(** * pg_strom, scan.c: the chunk-oriented column-store scan

    A shallow embedding of [scan.c] and the properties of its scan
    pipeline.  The development follows the order of the C file:

    - the PostgreSQL services the file calls (arrays, bit strings, bitmap
      sets, index and heap scans), modelled as far as [scan.c] uses them;
    - [pgstrom_open_relation_set] / [pgstrom_close_relation_set];
    - [pgstrom_load_column_store] and [pgstrom_load_chunk_buffer];
    - [pgstrom_scan_column_store] (the per-column array cache);
    - [pgstrom_scan_chunk_buffer] and [pgstrom_iterate_foreign_scan].

    Conventions.  [int64] and [int] values are integers of [Z].  Signed
    overflow is undefined in C, so additions are exact; the narrowing
    conversions of the file ([int index = rowid - min],
    [int csidx = intVal(...)] and [AttrNumber attnum = bms_first_member(...)])
    are written out with [to_int32] and [to_int16].  [Assert]s are
    compiled out (a production build).  A [Datum] of a fixed-length
    attribute is the integer it holds, and a value buffer is addressed
    by element instead of by byte ([offset * attlen] in C is [offset]
    here).  A C access outside an array the file itself allocates is
    undefined behaviour; the embedding returns [None] there. *)

From Stdlib Require Import String.
From Stdlib Require Import ZArith List Bool Lia Sorted.
Import ListNotations.
Local Open Scope Z_scope.

(** ** Small utilities *)

(** An error monad for the accesses that are undefined behaviour in C. *)
Definition bind {A B : Type} (m : option A) (k : A -> option B) : option B :=
  match m with
  | Some a => k a
  | None => None
  end.

Notation "x <- m ;; k" := (bind m (fun x => k))
  (at level 61, m at next level, right associativity).
Notation "' p <- m ;; k" := (bind m (fun p => k))
  (at level 61, p pattern, m at next level, right associativity).

(** [a[i]] for a C array held as a list; [None] outside its bounds. *)
Definition list_get {A : Type} (l : list A) (i : Z) : option A :=
  if i <? 0 then None else nth_error l (Z.to_nat i).

Fixpoint set_nth {A : Type} (l : list A) (n : nat) (x : A) : option (list A) :=
  match l, n with
  | [], _ => None
  | _ :: t, O => Some (x :: t)
  | h :: t, S n' =>
      match set_nth t n' x with
      | Some t' => Some (h :: t')
      | None => None
      end
  end.

(** [a[i] = x]; [None] outside the bounds. *)
Definition list_set {A : Type} (l : list A) (i : Z) (x : A) : option (list A) :=
  if i <? 0 then None else set_nth l (Z.to_nat i) x.

(** [memcpy(dst + off, src, n)] on element buffers.  The part of the copy
    that would read past [src] reads zeros here, and the part that would
    land past [dst] is dropped; both are undefined in C and no statement
    below rests on either. *)
Definition memcpy (dst : list Z) (off : Z) (src : list Z) (n : Z) : list Z :=
  let o := Z.to_nat off in
  let k := Z.to_nat n in
  firstn (length dst)
         (firstn o dst ++ firstn k (src ++ repeat 0 k) ++ skipn (o + k) dst).

(** The conversion of an [int64] or a [long] to [int]. *)
Definition to_int32 (z : Z) : Z := (z + 2 ^ 31) mod 2 ^ 32 - 2 ^ 31.

(** The conversion of an [int] to [AttrNumber], which is [int16]. *)
Definition to_int16 (z : Z) : Z := (z + 2 ^ 15) mod 2 ^ 16 - 2 ^ 15.

Definition BITS_PER_BYTE : Z := 8.

(** [(bytes[i / 8] & (1 << (i & 7))) != 0]: the bit test that [scan.c]
    writes out for the row map and for the null map of a chunk. *)
Definition bit_is_set (bytes : list Z) (index : Z) : bool :=
  let index_h := index / BITS_PER_BYTE in
  let index_l := Z.land index (BITS_PER_BYTE - 1) in
  negb (Z.land (nth (Z.to_nat index_h) bytes 0) (Z.shiftl 1 index_l) =? 0).

(** ** PostgreSQL services used by scan.c *)

Definition Datum := Z.

(** A one-dimensional array with lower bound 0 (both are asserted by
    [pgstrom_load_column_store]).  PostgreSQL keeps the number of items
    ([ARR_DIMS(a)[0]]), an optional null bitmap in which a SET bit means
    that the element is NOT null, and the data area, which holds the
    non-null elements only. *)
Record ArrayType := mkArray {
  ARR_DIMS0 : Z;
  ARR_NULLBITMAP : option (list Z);
  ARR_DATA_PTR : list Datum
}.

(** arrayfuncs.c, [array_get_isnull]. *)
Definition array_get_isnull (nullbitmap : option (list Z)) (offset : Z) : bool :=
  match nullbitmap with
  | None => false
  | Some bm => negb (bit_is_set bm offset)
  end.

(** The number of non-null elements below [offset]: where the element
    number [offset] lies in the data area. *)
Definition array_seek (nullbitmap : option (list Z)) (offset : Z) : nat :=
  match nullbitmap with
  | None => Z.to_nat offset
  | Some bm =>
      length (filter (fun i => bit_is_set bm (Z.of_nat i))
                     (seq 0 (Z.to_nat offset)))
  end.

(** arrayfuncs.c, [array_ref] with one subscript on a varlena array: a
    subscript outside the array gives NULL, as does a null element. *)
Definition array_ref (a : ArrayType) (index : Z) : Datum * bool :=
  if (index <? 0) || (index >=? ARR_DIMS0 a) then (0, true)
  else if array_get_isnull (ARR_NULLBITMAP a) index then (0, true)
  else (nth (array_seek (ARR_NULLBITMAP a) index) (ARR_DATA_PTR a) 0, false).

(** A bit string ([VarBit]): its length in bits and its bytes. *)
Record VarBit := mkVarBit {
  VARBITLEN : Z;
  VARBITS : list Z
}.

(** [Bitmapset]: the members in ascending order, the order in which
    [bms_first_member] hands them out. *)
Definition Bitmapset := list Z.

Definition bms_is_member (x : Z) (a : Bitmapset) : bool :=
  existsb (Z.eqb x) a.

Fixpoint bms_insert (a : Bitmapset) (x : Z) : Bitmapset :=
  match a with
  | [] => [x]
  | y :: t =>
      if x <? y then x :: a
      else if x =? y then a
      else y :: bms_insert t x
  end.

(** bitmapset.c, [bms_add_member]: a negative member raises the error
    "negative bitmapset member not allowed", [None] here. *)
Definition bms_add_member (a : Bitmapset) (x : Z) : option Bitmapset :=
  if x <? 0 then None else Some (bms_insert a x).

(** The attribute numbers that a loop
    [while ((attnum = bms_first_member(temp)) > 0)] goes through, [attnum]
    being an [AttrNumber]: the members in ascending order, each narrowed
    to [int16], up to the first that is not positive then. *)
Fixpoint attnums (temp : Bitmapset) : list Z :=
  match temp with
  | [] => []
  | x :: rest =>
      if to_int16 x >? 0 then to_int16 x :: attnums rest else []
  end.

(** One tuple of a column store: the first row identifier it holds and
    the array of the values from there on. *)
Record cs_tuple := mkCsTuple {
  cs_rowid : Z;
  cs_array : ArrayType
}.

(** One tuple of the rowid relation: the base row identifier of a chunk
    and the map of its live rows. *)
Record ri_tuple := mkRiTuple {
  ri_rowid : Z;
  ri_rowmap : VarBit
}.

Inductive StrategyNumber :=
| BTLessStrategyNumber
| BTLessEqualStrategyNumber
| BTGreaterEqualStrategyNumber
| BTGreaterStrategyNumber.

Record ScanKeyData := ScanKeyInit {
  sk_strategy : StrategyNumber;
  sk_argument : Z
}.

Inductive ScanDirection := BackwardScanDirection | ForwardScanDirection.

Inductive ScanPosition :=
| BeforeFirst            (* (re)started, nothing fetched yet *)
| OnItem (i : nat)       (* on the i-th tuple that satisfies the keys *)
| RanOff.                (* the last fetch found no tuple *)

(** What was asked of an index scan, for statements about seeks. *)
Inductive IndexCall :=
| CallRescan (keys : list ScanKeyData)
| CallGetNext (dir : ScanDirection).

(** An index scan on the rowid column of a column store.  [xs_rel] is
    the relation as its index orders it. *)
Record IndexScanDesc := mkIndexScan {
  xs_rel : list cs_tuple;
  xs_keys : list ScanKeyData;
  xs_pos : ScanPosition;
  xs_calls : list IndexCall
}.

Definition key_holds (rowid : Z) (k : ScanKeyData) : bool :=
  match sk_strategy k with
  | BTLessStrategyNumber => rowid <? sk_argument k
  | BTLessEqualStrategyNumber => rowid <=? sk_argument k
  | BTGreaterEqualStrategyNumber => rowid >=? sk_argument k
  | BTGreaterStrategyNumber => rowid >? sk_argument k
  end.

Definition keys_hold (keys : list ScanKeyData) (t : cs_tuple) : bool :=
  forallb (key_holds (cs_rowid t)) keys.

(** The tuples an index scan can return, in index order. *)
Definition scan_matches (sd : IndexScanDesc) : list cs_tuple :=
  filter (keys_hold (xs_keys sd)) (xs_rel sd).

Definition index_beginscan (rel : list cs_tuple) : IndexScanDesc :=
  {| xs_rel := rel; xs_keys := []; xs_pos := BeforeFirst; xs_calls := [] |}.

Definition index_rescan (sd : IndexScanDesc) (keys : list ScanKeyData)
  : IndexScanDesc :=
  {| xs_rel := xs_rel sd; xs_keys := keys; xs_pos := BeforeFirst;
     xs_calls := xs_calls sd ++ [CallRescan keys] |}.

(** The position the next fetch goes to: a restarted scan begins with
    the first match going forward and with the last one going backward. *)
Definition next_position (sd : IndexScanDesc) (dir : ScanDirection)
  : option nat :=
  match xs_pos sd, dir with
  | BeforeFirst, ForwardScanDirection => Some O
  | BeforeFirst, BackwardScanDirection =>
      match length (scan_matches sd) with
      | O => None
      | S n => Some n
      end
  | OnItem i, ForwardScanDirection => Some (S i)
  | OnItem (S i), BackwardScanDirection => Some i
  | OnItem O, BackwardScanDirection => None
  | RanOff, _ => None
  end.

Definition index_getnext (sd : IndexScanDesc) (dir : ScanDirection)
  : IndexScanDesc * option cs_tuple :=
  let calls := xs_calls sd ++ [CallGetNext dir] in
  let ran_off := {| xs_rel := xs_rel sd; xs_keys := xs_keys sd;
                    xs_pos := RanOff; xs_calls := calls |} in
  match next_position sd dir with
  | Some i =>
      match nth_error (scan_matches sd) i with
      | Some t => ({| xs_rel := xs_rel sd; xs_keys := xs_keys sd;
                      xs_pos := OnItem i; xs_calls := calls |}, Some t)
      | None => (ran_off, None)
      end
  | None => (ran_off, None)
  end.

(** A sequential scan of the rowid relation [rs_rel]: [rs_rest] holds
    the tuples the scan returns before it next runs off the end,
    [rs_returned] the tuples it has returned so far and [rs_fetches] the
    number of fetches made. *)
Record HeapScanDesc := mkHeapScan {
  rs_rel : list ri_tuple;
  rs_rest : list ri_tuple;
  rs_returned : list ri_tuple;
  rs_fetches : nat
}.

Definition heap_beginscan (rel : list ri_tuple) : HeapScanDesc :=
  {| rs_rel := rel; rs_rest := rel; rs_returned := []; rs_fetches := O |}.

(** heapam.c, [heap_getnext] going forward.  The fetch that runs off the
    end returns no tuple and leaves the scan as [heap_beginscan] made it
    ([rs_inited = false]): the fetch after it starts over at the first
    tuple of the relation. *)
Definition heap_getnext (sd : HeapScanDesc) : HeapScanDesc * option ri_tuple :=
  match rs_rest sd with
  | [] =>
      ({| rs_rel := rs_rel sd; rs_rest := rs_rel sd;
          rs_returned := rs_returned sd;
          rs_fetches := S (rs_fetches sd) |}, None)
  | t :: rest =>
      ({| rs_rel := rs_rel sd; rs_rest := rest;
          rs_returned := rs_returned sd ++ [t];
          rs_fetches := S (rs_fetches sd) |}, Some t)
  end.

(** ** The relation set (scan.c, lines 35-163) *)

(** The shadow objects of a base table in [PGSTROM_SCHEMA_NAME]; a column
    is named by its position in the tuple descriptor of the base table. *)
Inductive RelName :=
| NameRowid                 (* "<schema>.<table>.rowid" *)
| NameRowidIdx              (* "<schema>.<table>.idx"   *)
| NameCs (i : nat)          (* "<schema>.<table>.<column>.cs"  *)
| NameCsIdx (i : nat)       (* "<schema>.<table>.<column>.idx" *)
| NameSeq.                  (* "<schema>.<table>.seq"   *)

Inductive relkind :=
| RELKIND_RELATION
| RELKIND_INDEX
| RELKIND_SEQUENCE
| RELKIND_FOREIGN_TABLE.

Definition relkind_eqb (a b : relkind) : bool :=
  match a, b with
  | RELKIND_RELATION, RELKIND_RELATION
  | RELKIND_INDEX, RELKIND_INDEX
  | RELKIND_SEQUENCE, RELKIND_SEQUENCE
  | RELKIND_FOREIGN_TABLE, RELKIND_FOREIGN_TABLE => true
  | _, _ => false
  end.

(** An open relation.  [rd_cs_tuples] is what an index scan of a column
    store sees, in index order; [rd_ri_tuples] what a heap scan of the
    rowid relation sees. *)
Record Relation := mkRelation {
  rd_name : RelName;
  rd_relkind : relkind;
  rd_natts : Z;
  rd_cs_tuples : list cs_tuple;
  rd_ri_tuples : list ri_tuple
}.

Record Form_pg_attribute := mkAttr {
  attisdropped : bool;
  attlen : Z
}.

Record BaseRelation := mkBaseRel {
  base_relkind : relkind;
  base_is_pgstrom : bool;   (* GetFdwRoutine(handler) == &pgstromFdwHandlerData *)
  base_attrs : list Form_pg_attribute
}.

Definition RelationGetNumberOfAttributes (r : BaseRelation) : nat :=
  length (base_attrs r).

Record RelationSetData := mkRelationSet {
  base_rel : BaseRelation;
  rowid_rel : Relation;
  rowid_idx : option Relation;
  cs_rel : list (option Relation);
  cs_idx : list (option Relation);
  rowid_seqid : option Relation
}.

(** The catalog: what [relation_openrv] finds under a name. *)
Definition Catalog := RelName -> option Relation.

(** A handle is the [Relation] that [relation_openrv] returned. *)
Inductive RelEvent :=
| Opened (r : Relation)
| Closed (r : Relation).

Inductive OpenError :=
| NotForeignTable
| NotManagedByPgStrom
| NotRegularTable (r : RelName)
| NotIndex (r : RelName)
| NoSuchRelation (r : RelName).

(** A computation that opens relations: it extends the trace of handle
    events and either fails ([ereport(ERROR)]) or returns. *)
Definition Opening (A : Type) : Type :=
  list RelEvent -> list RelEvent * (OpenError + A).

Definition oret {A : Type} (a : A) : Opening A := fun tr => (tr, inr a).

Definition ofail {A : Type} (e : OpenError) : Opening A := fun tr => (tr, inl e).

Definition obind {A B : Type} (m : Opening A) (k : A -> Opening B) : Opening B :=
  fun tr =>
    match m tr with
    | (tr', inr a) => k a tr'
    | (tr', inl e) => (tr', inl e)
    end.

Notation "x <~ m ;; k" := (obind m (fun x => k))
  (at level 61, m at next level, right associativity).

Definition relation_openrv (cat : Catalog) (name : RelName) : Opening Relation :=
  fun tr =>
    match cat name with
    | Some r => (tr ++ [Opened r], inr r)
    | None => (tr, inl (NoSuchRelation name))
    end.

(** [relation_openrv] followed by the check of the kind of the object. *)
Definition open_as (cat : Catalog) (name : RelName) (kind : relkind)
  (err : OpenError) : Opening Relation :=
  r <~ relation_openrv cat name ;;
  if relkind_eqb (rd_relkind r) kind then oret r else ofail err.

(** The body of [for (i = 0; i < nattrs; i++)] at lines 102-132. *)
Definition open_column (cat : Catalog) (with_index : bool) (i : nat)
  (attr : Form_pg_attribute) : Opening (option Relation * option Relation) :=
  if attisdropped attr then oret (None, None)
  else
    rel <~ open_as cat (NameCs i) RELKIND_RELATION (NotRegularTable (NameCs i)) ;;
    if with_index then
      idx <~ open_as cat (NameCsIdx i) RELKIND_INDEX (NotIndex (NameCsIdx i)) ;;
      oret (Some rel, Some idx)
    else oret (Some rel, None).

Fixpoint open_columns (cat : Catalog) (with_index : bool) (i : nat)
  (attrs : list Form_pg_attribute)
  : Opening (list (option Relation) * list (option Relation)) :=
  match attrs with
  | [] => oret ([], [])
  | attr :: rest =>
      c <~ open_column cat with_index i attr ;;
      cs <~ open_columns cat with_index (S i) rest ;;
      oret (fst c :: fst cs, snd c :: snd cs)
  end.

Definition pgstrom_open_relation_set (cat : Catalog) (base : BaseRelation)
  (with_index : bool) : Opening RelationSetData :=
  if negb (relkind_eqb (base_relkind base) RELKIND_FOREIGN_TABLE)
  then ofail NotForeignTable
  else if negb (base_is_pgstrom base) then ofail NotManagedByPgStrom
  else
    rrel <~ open_as cat NameRowid RELKIND_RELATION (NotRegularTable NameRowid) ;;
    ridx <~ (if with_index
             then r <~ open_as cat NameRowidIdx RELKIND_INDEX (NotIndex NameRowidIdx) ;;
                  oret (Some r)
             else oret None) ;;
    cols <~ open_columns cat with_index O (base_attrs base) ;;
    (* RangeVarGetRelid(range, NoLock, false): a lookup, no handle *)
    fun tr =>
      match cat NameSeq with
      | None => (tr, inl (NoSuchRelation NameSeq))
      | Some s =>
          (tr, inr {| base_rel := base; rowid_rel := rrel; rowid_idx := ridx;
                      cs_rel := fst cols; cs_idx := snd cols;
                      rowid_seqid := Some s |})
      end.

Definition relation_close (r : Relation) (tr : list RelEvent) : list RelEvent :=
  tr ++ [Closed r].

Definition close_if_open (r : option Relation) (tr : list RelEvent)
  : list RelEvent :=
  match r with
  | Some rel => relation_close rel tr
  | None => tr
  end.

(** [for (i=0; i < nattrs; i++)] at lines 153-159, from [i] on. *)
Fixpoint close_columns (n : nat) (i : nat) (rs : RelationSetData)
  (tr : list RelEvent) : list RelEvent :=
  match n with
  | O => tr
  | S n' =>
      let tr1 := close_if_open (nth i (cs_rel rs) None) tr in
      let tr2 := close_if_open (nth i (cs_idx rs) None) tr1 in
      close_columns n' (S i) rs tr2
  end.

Definition pgstrom_close_relation_set (rs : RelationSetData)
  (tr : list RelEvent) : list RelEvent :=
  let nattrs := RelationGetNumberOfAttributes (base_rel rs) in
  let tr1 := relation_close (rowid_rel rs) tr in
  let tr2 := close_if_open (rowid_idx rs) tr1 in
  close_columns nattrs O rs tr2.

(** The handles a trace opens, and those it closes, each in order. *)
Definition opened_handles (tr : list RelEvent) : list Relation :=
  flat_map (fun e => match e with Opened r => [r] | Closed _ => [] end) tr.

Definition closed_handles (tr : list RelEvent) : list Relation :=
  flat_map (fun e => match e with Closed r => [r] | Opened _ => [] end) tr.

(** The handle of a column store or of the index of one. *)
Definition is_column_handle (r : Relation) : bool :=
  match rd_name r with
  | NameCs _ | NameCsIdx _ => true
  | _ => false
  end.

Definition handles_of (c : option Relation * option Relation) : list Relation :=
  match fst c with Some r => [r] | None => [] end ++
  match snd c with Some r => [r] | None => [] end.

(** ** Chunk buffers and the state of a scan (scan.c, lines 166-211) *)

Record PgStromChunkBuf := mkChunk {
  nattrs : Z;
  rowid : Z;
  rowmap : VarBit;
  cs_nulls : list (option (list Z));       (* per column, NULL or a bitmap *)
  cs_values : list (option (list Datum))   (* per column, NULL or PGSTROM_CHUNK_SIZE values *)
}.

(** The entries of [cs_scan], [cs_cur_values], [cs_cur_rowid_min] and
    [cs_cur_rowid_max] for one column whose [cs_scan] is not NULL. *)
Record ColumnScan := mkColumnScan {
  cs_scan : IndexScanDesc;
  cs_cur_values : option ArrayType;
  cs_cur_rowid_min : Z;
  cs_cur_rowid_max : Z
}.

Record TupleTableSlot := mkSlot {
  tts_isempty : bool;
  tts_values : list Datum;
  tts_isnull : list bool
}.

(** [PgStromExecState].  [cs_cols] holds the four per-column arrays, one
    entry per attribute of the base table; an entry is [None] while
    [cs_scan[csidx]] is NULL (the other three arrays are then still the
    zeros of [palloc0], since only [pgstrom_scan_column_store] writes
    them and it calls the scan first).  [curr_chunk] is the position of
    the current cell in [chunk_ready_list].  The OpenCL handles take no
    part in what is stated below; [device_program] records only whether a
    program was built. *)
Record PgStromExecState := mkExecState {
  relset : RelationSetData;
  predictable : Z;
  required_cols : Bitmapset;
  clause_cols : Bitmapset;
  ri_scan : HeapScanDesc;
  cs_cols : list (option ColumnScan);
  chunk_exec_pending_list : list PgStromChunkBuf;
  chunk_exec_list : list PgStromChunkBuf;
  chunk_ready_list : list PgStromChunkBuf;
  curr_chunk : option nat;
  curr_index : Z;
  device_program : bool
}.

Definition set_ri_scan (st : PgStromExecState) (sd : HeapScanDesc) :=
  {| relset := relset st; predictable := predictable st;
     required_cols := required_cols st; clause_cols := clause_cols st;
     ri_scan := sd; cs_cols := cs_cols st;
     chunk_exec_pending_list := chunk_exec_pending_list st;
     chunk_exec_list := chunk_exec_list st;
     chunk_ready_list := chunk_ready_list st;
     curr_chunk := curr_chunk st; curr_index := curr_index st;
     device_program := device_program st |}.

Definition set_cs_cols (st : PgStromExecState) (cols : list (option ColumnScan)) :=
  {| relset := relset st; predictable := predictable st;
     required_cols := required_cols st; clause_cols := clause_cols st;
     ri_scan := ri_scan st; cs_cols := cols;
     chunk_exec_pending_list := chunk_exec_pending_list st;
     chunk_exec_list := chunk_exec_list st;
     chunk_ready_list := chunk_ready_list st;
     curr_chunk := curr_chunk st; curr_index := curr_index st;
     device_program := device_program st |}.

Definition set_chunk_ready_list (st : PgStromExecState)
  (ready : list PgStromChunkBuf) :=
  {| relset := relset st; predictable := predictable st;
     required_cols := required_cols st; clause_cols := clause_cols st;
     ri_scan := ri_scan st; cs_cols := cs_cols st;
     chunk_exec_pending_list := chunk_exec_pending_list st;
     chunk_exec_list := chunk_exec_list st;
     chunk_ready_list := ready;
     curr_chunk := curr_chunk st; curr_index := curr_index st;
     device_program := device_program st |}.

Definition set_cursor (st : PgStromExecState) (cell : option nat) (index : Z) :=
  {| relset := relset st; predictable := predictable st;
     required_cols := required_cols st; clause_cols := clause_cols st;
     ri_scan := ri_scan st; cs_cols := cs_cols st;
     chunk_exec_pending_list := chunk_exec_pending_list st;
     chunk_exec_list := chunk_exec_list st;
     chunk_ready_list := chunk_ready_list st;
     curr_chunk := cell; curr_index := index;
     device_program := device_program st |}.

Definition ExecClearTuple (slot : TupleTableSlot) : TupleTableSlot :=
  {| tts_isempty := true; tts_values := tts_values slot;
     tts_isnull := tts_isnull slot |}.

Definition ExecStoreVirtualTuple (slot : TupleTableSlot) : TupleTableSlot :=
  {| tts_isempty := false; tts_values := tts_values slot;
     tts_isnull := tts_isnull slot |}.

(** [slot->tts_isnull[csidx] = isnull; slot->tts_values[csidx] = value]. *)
Definition slot_store (slot : TupleTableSlot) (csidx : Z) (v : Datum * bool)
  : option TupleTableSlot :=
  vs <- list_set (tts_values slot) csidx (fst v) ;;
  ns <- list_set (tts_isnull slot) csidx (snd v) ;;
  Some {| tts_isempty := tts_isempty slot; tts_values := vs; tts_isnull := ns |}.

Definition slot_column (slot : TupleTableSlot) (csidx : Z)
  : option (Datum * bool) :=
  v <- list_get (tts_values slot) csidx ;;
  n <- list_get (tts_isnull slot) csidx ;;
  Some (v, n).

(** ** The column-store cache (scan.c, lines 400-538) *)

(** The condition of line 416: the cached array does not serve [r]. *)
Definition cache_miss (cs : ColumnScan) (r : Z) : bool :=
  match cs_cur_values cs with
  | None => true
  | Some _ => (r <? cs_cur_rowid_min cs) || (r >? cs_cur_rowid_max cs)
  end.

(** The condition of lines 429-433: [r] is near enough ahead. *)
Definition probe_applicable (cs : ColumnScan) (r : Z) : bool :=
  match cs_cur_values cs with
  | None => false
  | Some _ =>
      (r >? cs_cur_rowid_max cs) &&
      (r <? cs_cur_rowid_max cs +
            2 * (cs_cur_rowid_max cs - cs_cur_rowid_min cs))
  end.

(** [while (count-- > 0)] at lines 437-470.  The flag tells whether the
    loop left through [goto out]. *)
Fixpoint forward_probe (count : nat) (cs : ColumnScan) (r : Z)
  : ColumnScan * bool :=
  match count with
  | O => (cs, false)
  | S count' =>
      let (sd, tuple) := index_getnext (cs_scan cs) ForwardScanDirection in
      let cs1 := {| cs_scan := sd; cs_cur_values := cs_cur_values cs;
                    cs_cur_rowid_min := cs_cur_rowid_min cs;
                    cs_cur_rowid_max := cs_cur_rowid_max cs |} in
      match tuple with
      | None => (cs1, false)
      | Some t =>
          let cur_rowid := cs_rowid t in
          let cur_values := cs_array t in
          if (r >=? cur_rowid) && (r <=? cur_rowid + ARR_DIMS0 cur_values)
          then ({| cs_scan := sd; cs_cur_values := Some cur_values;
                   cs_cur_rowid_min := cur_rowid;
                   cs_cur_rowid_max := cur_rowid + ARR_DIMS0 cur_values |},
                true)
          else forward_probe count' cs1 r
      end
  end.

(** Lines 473-525: drop the cached array, seek the last tuple that
    starts at or below [r], cache it and restart the scan behind it.  The
    flag is false when the seek finds no tuple. *)
Definition full_seek (cs : ColumnScan) (r : Z) : ColumnScan * bool :=
  let cs0 :=
    match cs_cur_values cs with
    | Some _ => {| cs_scan := cs_scan cs; cs_cur_values := None;
                   cs_cur_rowid_min := -1; cs_cur_rowid_max := -1 |}
    | None => cs
    end in
  let sd1 := index_rescan (cs_scan cs0)
               [ScanKeyInit BTLessEqualStrategyNumber r] in
  let (sd2, tuple) := index_getnext sd1 BackwardScanDirection in
  match tuple with
  | None => ({| cs_scan := sd2; cs_cur_values := cs_cur_values cs0;
                cs_cur_rowid_min := cs_cur_rowid_min cs0;
                cs_cur_rowid_max := cs_cur_rowid_max cs0 |}, false)
  | Some t =>
      let cur_rowid := cs_rowid t in
      let cur_values := cs_array t in
      let rowid_max := cur_rowid + ARR_DIMS0 cur_values in
      let sd3 := index_rescan sd2
                   [ScanKeyInit BTGreaterStrategyNumber rowid_max] in
      ({| cs_scan := sd3; cs_cur_values := Some cur_values;
          cs_cur_rowid_min := cur_rowid; cs_cur_rowid_max := rowid_max |},
       true)
  end.

(** The label [out:], lines 527-537.  It is reached with an array
    cached; the [None] case is there to make the function total. *)
Definition fetch_cached (cs : ColumnScan) (r : Z) : Datum * bool :=
  let index := to_int32 (r - cs_cur_rowid_min cs) in
  match cs_cur_values cs with
  | Some a => array_ref a index
  | None => (0, true)
  end.

(** What the function leaves in the slot when only the full seek is
    taken: lines 473-537 from the state [cs]. *)
Definition lookup_by_full_seek (cs : ColumnScan) (r : Z)
  : ColumnScan * (Datum * bool) :=
  let (cs2, found) := full_seek cs r in
  if found then (cs2, fetch_cached cs2 r) else (cs2, (0, true)).

(** [pgstrom_scan_column_store] on the entries of one column: the new
    entries and the pair written to [slot->tts_values[csidx]] and
    [slot->tts_isnull[csidx]]. *)
Definition pgstrom_scan_column_store (cs : ColumnScan) (r : Z)
  : ColumnScan * (Datum * bool) :=
  if cache_miss cs r then
    let (cs1, hit) :=
      if probe_applicable cs r then forward_probe 2 cs r else (cs, false) in
    if hit then (cs1, fetch_cached cs1 r)
    else lookup_by_full_seek cs1 r
  else (cs, fetch_cached cs r).

(** The lookup is served by the forward probe (the [goto out] of line
    464 is taken). *)
Definition served_by_probe (cs : ColumnScan) (r : Z) : bool :=
  cache_miss cs r && probe_applicable cs r && snd (forward_probe 2 cs r).

(** The entries of a column after [pgstrom_begin_foreign_scan]. *)
Definition column_begin (rel : list cs_tuple) : ColumnScan :=
  {| cs_scan := index_beginscan rel; cs_cur_values := None;
     cs_cur_rowid_min := 0; cs_cur_rowid_max := 0 |}.

(** A run of lookups on one column, the results in order. *)
Fixpoint lookups (cs : ColumnScan) (rs : list Z)
  : ColumnScan * list (Datum * bool) :=
  match rs with
  | [] => (cs, [])
  | r :: rest =>
      let (cs1, v) := pgstrom_scan_column_store cs r in
      let (cs2, vs) := lookups cs1 rest in
      (cs2, v :: vs)
  end.

(** [pgstrom_scan_column_store(sestate, csidx, rowid, slot)]. *)
Definition pgstrom_scan_column_store_at (st : PgStromExecState) (csidx : Z)
  (r : Z) (slot : TupleTableSlot) : option (PgStromExecState * TupleTableSlot) :=
  entry <- list_get (cs_cols st) csidx ;;
  cs <- entry ;;
  let (cs', v) := pgstrom_scan_column_store cs r in
  cols <- list_set (cs_cols st) csidx (Some cs') ;;
  slot' <- slot_store slot csidx v ;;
  Some (set_cs_cols st cols, slot').

Section Scan.

(** [PGSTROM_CHUNK_SIZE] comes from pg_strom.h and
    [pgstrom_max_async_chunks] is a global set outside scan.c: both are
    parameters of what follows. *)
Variable PGSTROM_CHUNK_SIZE : Z.
Variable pgstrom_max_async_chunks : Z.

(** ** Loading chunks (scan.c, lines 231-398) *)

Definition set_chunk_values (chunk : PgStromChunkBuf) (csidx : Z)
  (v : option (list Datum)) : option PgStromChunkBuf :=
  vs <- list_set (cs_values chunk) csidx v ;;
  Some {| nattrs := nattrs chunk; rowid := rowid chunk; rowmap := rowmap chunk;
          cs_nulls := cs_nulls chunk; cs_values := vs |}.

Definition set_chunk_nulls (chunk : PgStromChunkBuf) (csidx : Z)
  (v : option (list Z)) : option PgStromChunkBuf :=
  ns <- list_set (cs_nulls chunk) csidx v ;;
  Some {| nattrs := nattrs chunk; rowid := rowid chunk; rowmap := rowmap chunk;
          cs_nulls := ns; cs_values := cs_values chunk |}.

(** The body of the loop at lines 271-316 for the tuple [t]. *)
Definition load_tuple (chunk : PgStromChunkBuf) (csidx : Z) (t : cs_tuple)
  : option PgStromChunkBuf :=
  let cur_rowid := cs_rowid t in
  let cur_array := cs_array t in
  let offset := to_int32 (cur_rowid - rowid chunk) in
  let nullbitmap := ARR_NULLBITMAP cur_array in
  nulls0 <- list_get (cs_nulls chunk) csidx ;;
  chunk1 <-
    match nullbitmap, nulls0 with
    | Some _, None =>
        set_chunk_nulls chunk csidx
          (Some (repeat 0 (Z.to_nat (PGSTROM_CHUNK_SIZE / BITS_PER_BYTE))))
    | _, _ => Some chunk
    end ;;
  let nitems := ARR_DIMS0 cur_array in
  values <- list_get (cs_values chunk1) csidx ;;
  buf <- values ;;
  chunk2 <- set_chunk_values chunk1 csidx
              (Some (memcpy buf offset (ARR_DATA_PTR cur_array) nitems)) ;;
  match nullbitmap with
  | Some bm =>
      nulls <- list_get (cs_nulls chunk2) csidx ;;
      dst <- nulls ;;
      set_chunk_nulls chunk2 csidx
        (Some (memcpy dst (offset / BITS_PER_BYTE) bm
                      ((nitems + BITS_PER_BYTE - 1) / BITS_PER_BYTE)))
  | None => Some chunk2
  end.

(** [while (HeapTupleIsValid(tup = index_getnext(iscan, Forward)))].  A
    forward scan returns each matching tuple once, so [fuel] above their
    number is never used up; [None] is also the answer when it is. *)
Fixpoint load_tuples (fuel : nat) (iscan : IndexScanDesc)
  (chunk : PgStromChunkBuf) (csidx : Z) (found : bool)
  : option (PgStromChunkBuf * bool) :=
  match fuel with
  | O => None
  | S fuel' =>
      let (iscan1, tup) := index_getnext iscan ForwardScanDirection in
      match tup with
      | None => Some (chunk, found)
      | Some t =>
          chunk1 <- load_tuple chunk csidx t ;;
          load_tuples fuel' iscan1 chunk1 csidx true
      end
  end.

(** [pgstrom_load_column_store] from line 250 on, for the column store
    [rel] of the attribute. *)
Definition load_column_store (rel : list cs_tuple) (chunk : PgStromChunkBuf)
  (csidx : Z) : option PgStromChunkBuf :=
  chunk1 <- set_chunk_values chunk csidx
              (Some (repeat 0 (Z.to_nat PGSTROM_CHUNK_SIZE))) ;;
  let skeys := [ScanKeyInit BTGreaterEqualStrategyNumber (rowid chunk);
                ScanKeyInit BTLessStrategyNumber
                            (rowid chunk + PGSTROM_CHUNK_SIZE)] in
  let iscan := index_rescan (index_beginscan rel) skeys in
  '(chunk2, found) <- load_tuples (S (length rel)) iscan chunk1 csidx false ;;
  if found then Some chunk2
  else set_chunk_nulls chunk2 csidx
         (Some (repeat 255 (Z.to_nat (PGSTROM_CHUNK_SIZE / BITS_PER_BYTE)))).

Definition pgstrom_load_column_store (st : PgStromExecState)
  (chunk : PgStromChunkBuf) (attnum : Z) : option PgStromChunkBuf :=
  let csidx := attnum - 1 in
  _ <- list_get (base_attrs (base_rel (relset st))) csidx ;;
  entry <- list_get (cs_rel (relset st)) csidx ;;
  rel <- entry ;;
  load_column_store (rd_cs_tuples rel) chunk csidx.

(** [while ((attnum = bms_first_member(temp)) > 0)] at lines 376-377,
    with [AttrNumber attnum] (line 370). *)
Fixpoint load_clause_cols (st : PgStromExecState) (temp : Bitmapset)
  (chunk : PgStromChunkBuf) : option PgStromChunkBuf :=
  match temp with
  | [] => Some chunk
  | member :: rest =>
      let attnum := to_int16 member in
      if attnum >? 0 then
        chunk1 <- pgstrom_load_column_store st chunk attnum ;;
        load_clause_cols st rest chunk1
      else Some chunk
  end.

(** Lines 358-363: the chunk of a tuple of the rowid relation.  Its
    [nattrs] is taken from the tuple descriptor of the rowid relation. *)
Definition new_chunk (st : PgStromExecState) (t : ri_tuple) : PgStromChunkBuf :=
  let n := rd_natts (rowid_rel (relset st)) in
  {| nattrs := n; rowid := ri_rowid t; rowmap := ri_rowmap t;
     cs_nulls := repeat None (Z.to_nat n);
     cs_values := repeat None (Z.to_nat n) |}.

(** The loop of [pgstrom_load_chunk_buffer] with [n] rounds to go and
    [loaded] chunks read so far. *)
Fixpoint load_chunks (n : nat) (st : PgStromExecState) (loaded : Z)
  : option (PgStromExecState * Z) :=
  match n with
  | O => Some (st, loaded)
  | S n' =>
      let (sd, tuple) := heap_getnext (ri_scan st) in
      let st1 := set_ri_scan st sd in
      match tuple with
      | None => Some (st1, loaded)
      | Some t =>
          let chunk := new_chunk st1 t in
          if predictable st1 =? 0 then
            chunk1 <- load_clause_cols st1 (clause_cols st1) chunk ;;
            load_chunks n'
              (set_chunk_ready_list st1 (chunk_ready_list st1 ++ [chunk1]))
              (loaded + 1)
          else
            load_chunks n'
              (set_chunk_ready_list st1 (chunk_ready_list st1 ++ [chunk]))
              (loaded + 1)
      end
  end.

Definition pgstrom_load_chunk_buffer (st : PgStromExecState) (num_chunks : Z)
  : option (PgStromExecState * Z) :=
  load_chunks (Z.to_nat num_chunks) st 0.

(** ** Scanning a chunk (scan.c, lines 540-606) *)

(** Lines 578-592: a column that was loaded into the chunk. *)
Definition chunk_fetch (vals : list Datum) (nulls : option (list Z))
  (index : Z) : Datum * bool :=
  match nulls with
  | None => (nth (Z.to_nat index) vals 0, false)
  | Some bm =>
      if bit_is_set bm index then (0, true)
      else (nth (Z.to_nat index) vals 0, false)
  end.

(** The body of [for (csidx=0; csidx < chunk->nattrs; csidx++)]. *)
Definition scan_column (chunk : PgStromChunkBuf) (index r : Z) (csidx : Z)
  (st : PgStromExecState) (slot : TupleTableSlot)
  : option (PgStromExecState * TupleTableSlot) :=
  if negb (bms_is_member (csidx + 1) (required_cols st)) then
    slot' <- slot_store slot csidx (0, true) ;;
    Some (st, slot')
  else
    values <- list_get (cs_values chunk) csidx ;;
    match values with
    | Some vals =>
        nulls <- list_get (cs_nulls chunk) csidx ;;
        slot' <- slot_store slot csidx (chunk_fetch vals nulls index) ;;
        Some (st, slot')
    | None => pgstrom_scan_column_store_at st csidx r slot
    end.

Fixpoint scan_columns (n : nat) (csidx : Z) (chunk : PgStromChunkBuf)
  (index r : Z) (st : PgStromExecState) (slot : TupleTableSlot)
  : option (PgStromExecState * TupleTableSlot) :=
  match n with
  | O => Some (st, slot)
  | S n' =>
      '(st1, slot1) <- scan_column chunk index r csidx st slot ;;
      scan_columns n' (csidx + 1) chunk index r st1 slot1
  end.

(** [for (index = ...; index < VARBITLEN(chunk->rowmap); index++)] with
    [n] rounds to go.  The third component is the row identifier of the
    tuple stored in the slot, when the function returns true. *)
Fixpoint scan_bits (n : nat) (index : Z) (chunk : PgStromChunkBuf)
  (st : PgStromExecState) (slot : TupleTableSlot)
  : option (PgStromExecState * TupleTableSlot * option Z) :=
  match n with
  | O => Some (st, slot, None)
  | S n' =>
      if bit_is_set (VARBITS (rowmap chunk)) index then
        let r := rowid chunk + index in
        '(st1, slot1) <- scan_columns (Z.to_nat (nattrs chunk)) 0 chunk
                           index r st slot ;;
        Some (st1, ExecStoreVirtualTuple slot1, Some r)
      else scan_bits n' (index + 1) chunk st slot
  end.

Definition pgstrom_scan_chunk_buffer (st : PgStromExecState)
  (slot : TupleTableSlot)
  : option (PgStromExecState * TupleTableSlot * option Z) :=
  cell <- curr_chunk st ;;
  chunk <- nth_error (chunk_ready_list st) cell ;;
  scan_bits (Z.to_nat (VARBITLEN (rowmap chunk) - curr_index st))
            (curr_index st) chunk st slot.

(** ** The iterator (scan.c, lines 801-872) *)

Inductive IterateResult :=
| Returns (st : PgStromExecState) (slot : TupleTableSlot) (emitted : option Z)
| NeverReturns    (* the loop of line 845 has an empty body *)
| OutOfFuel.      (* [goto retry] was followed [fuel] times *)

(** From the label [retry:] on.  Nothing bounds the number of times the
    code goes back to [retry:], so the embedding follows it [fuel] times
    and answers [OutOfFuel] when that is not enough. *)
Fixpoint iterate_retry (fuel : nat) (st : PgStromExecState)
  (slot : TupleTableSlot) : option IterateResult :=
  match fuel with
  | O => Some OutOfFuel
  | S fuel' =>
      '(st1, slot1, emitted) <- pgstrom_scan_chunk_buffer st slot ;;
      match emitted with
      | Some r => Some (Returns st1 slot1 (Some r))
      | None =>
          let num_chunks := pgstrom_max_async_chunks -
                            Z.of_nat (length (chunk_exec_list st1)) in
          '(st2, _) <- pgstrom_load_chunk_buffer st1 num_chunks ;;
          cell <- curr_chunk st2 ;;
          if (length (chunk_ready_list st2) <=? S cell)%nat then
            (* lnext(curr_chunk) == NULL *)
            match chunk_exec_list st2, chunk_exec_pending_list st2 with
            | [], [] => Some (Returns st2 slot1 None)
            | _, _ => Some NeverReturns
            end
          else iterate_retry fuel' (set_cursor st2 (Some (S cell)) 0) slot1
      end
  end.

(** [pgstrom_iterate_foreign_scan], going back to [retry:] at most
    [fuel] times. *)
Definition pgstrom_iterate_foreign_scan (fuel : nat) (st : PgStromExecState)
  (slot0 : TupleTableSlot) : option IterateResult :=
  let slot := ExecClearTuple slot0 in
  if predictable st <? 0 then Some (Returns st slot None)
  else
    match curr_chunk st with
    | None =>
        let num_chunks := pgstrom_max_async_chunks -
                          Z.of_nat (length (chunk_exec_list st)) in
        '(st1, loaded) <- pgstrom_load_chunk_buffer st num_chunks ;;
        if loaded =? 0 then Some (Returns st1 slot None)
        else
          iterate_retry fuel (set_cursor st1 (Some O) 0) slot
    | Some _ => iterate_retry fuel st slot
    end.

(** ** Setting a scan up (scan.c, lines 608-799) *)

Inductive Value :=
| T_Integer (i : Z)
| T_String (s : string).

Definition intVal (v : Value) : Z :=
  match v with
  | T_Integer i => i
  | T_String _ => 0
  end.

Record DefElem := makeDefElem {
  defname : string;
  arg : Value
}.

Definition TRUE : Z := 1.

(** What the loop over [fdw_private] (lines 625-664) collects. *)
Record PlanInfo := mkPlanInfo {
  pi_predictable : Z;
  pi_required_cols : Bitmapset;
  pi_clause_cols : Bitmapset
}.

Inductive BeginError :=
| UnexpectedPlanInfo (name : string)
| NegativeBitmapsetMember     (* raised by [bms_add_member] *)
| DeviceSetupFailed
| OpenFailed (e : OpenError).

Definition set_clause_cols (acc : PlanInfo) (s : Bitmapset) : PlanInfo :=
  {| pi_predictable := pi_predictable acc;
     pi_required_cols := pi_required_cols acc;
     pi_clause_cols := s |}.

Definition set_required_cols (acc : PlanInfo) (s : Bitmapset) : PlanInfo :=
  {| pi_predictable := pi_predictable acc;
     pi_required_cols := s;
     pi_clause_cols := pi_clause_cols acc |}.

Fixpoint read_fdw_private (l : list DefElem) (acc : PlanInfo)
  : BeginError + PlanInfo :=
  match l with
  | [] => inr acc
  | defel :: rest =>
      if String.eqb (defname defel) "predictable" then
        read_fdw_private rest
          {| pi_predictable := if intVal (arg defel) =? TRUE then 1 else -1;
             pi_required_cols := pi_required_cols acc;
             pi_clause_cols := pi_clause_cols acc |}
      else if String.eqb (defname defel) "device_kernel" then
        read_fdw_private rest acc
      else if String.eqb (defname defel) "clause_cols" then
        let csidx := to_int32 (intVal (arg defel)) in
        match bms_add_member (pi_clause_cols acc) csidx with
        | Some s => read_fdw_private rest (set_clause_cols acc s)
        | None => inl NegativeBitmapsetMember
        end
      else if String.eqb (defname defel) "required_cols" then
        let csidx := to_int32 (intVal (arg defel)) in
        if csidx <? 1 then read_fdw_private rest acc
        else
          match bms_add_member (pi_required_cols acc) csidx with
          | Some s => read_fdw_private rest (set_required_cols acc s)
          | None => inl NegativeBitmapsetMember
          end
      else inl (UnexpectedPlanInfo (defname defel))
  end.

(** [pgstrom_init_exec_state].  [cl_ok] tells whether OpenCL creates and
    builds the program and the command queues; it is consulted only when
    the query is not predictable. *)
Definition pgstrom_init_exec_state (fdw_private : list DefElem) (cl_ok : bool)
  : BeginError + (PlanInfo * bool) :=
  match read_fdw_private fdw_private
          {| pi_predictable := 0; pi_required_cols := [];
             pi_clause_cols := [] |} with
  | inl e => inl e
  | inr info =>
      if negb (pi_predictable info =? 0) then inr (info, false)
      else if cl_ok then inr (info, true)
      else inl DeviceSetupFailed
  end.

(** [while ((attnum = bms_first_member(tempset)) > 0)] at lines 782-795,
    with [AttrNumber attnum] (line 763). *)
Fixpoint begin_column_scans (rs : RelationSetData) (clause : Bitmapset)
  (tempset : Bitmapset) (cols : list (option ColumnScan))
  : option (list (option ColumnScan)) :=
  match tempset with
  | [] => Some cols
  | member :: rest =>
      let attnum := to_int16 member in
      if attnum >? 0 then
        if bms_is_member attnum clause then
          begin_column_scans rs clause rest cols
        else
          entry <- list_get (cs_rel rs) (attnum - 1) ;;
          rel <- entry ;;
          cols' <- list_set cols (attnum - 1)
                     (Some (column_begin (rd_cs_tuples rel))) ;;
          begin_column_scans rs clause rest cols'
      else Some cols
  end.

Inductive BeginResult :=
| ExplainOnly                                   (* [fdw_state] stays NULL *)
| BeginFails (e : BeginError)
| BeginUndefined
| Begun (st : PgStromExecState).

(** [pgstrom_begin_foreign_scan], with the trace of the relations it
    opens. *)
Definition pgstrom_begin_foreign_scan (cat : Catalog) (base : BaseRelation)
  (fdw_private : list DefElem) (cl_ok : bool) (explain_only : bool)
  : list RelEvent * BeginResult :=
  if explain_only then ([], ExplainOnly)
  else
    match pgstrom_init_exec_state fdw_private cl_ok with
    | inl e => ([], BeginFails e)
    | inr (info, program) =>
        match pgstrom_open_relation_set cat base true [] with
        | (tr, inl e) => (tr, BeginFails (OpenFailed e))
        | (tr, inr rs) =>
            let cols0 := repeat None (RelationGetNumberOfAttributes base) in
            match begin_column_scans rs (pi_clause_cols info)
                    (pi_required_cols info) cols0 with
            | None => (tr, BeginUndefined)
            | Some cols =>
                (tr, Begun
                  {| relset := rs;
                     predictable := pi_predictable info;
                     required_cols := pi_required_cols info;
                     clause_cols := pi_clause_cols info;
                     ri_scan := heap_beginscan (rd_ri_tuples (rowid_rel rs));
                     cs_cols := cols;
                     chunk_exec_pending_list := [];
                     chunk_exec_list := [];
                     chunk_ready_list := [];
                     curr_chunk := None;
                     curr_index := 0;
                     device_program := program |})
            end
        end
    end.

(** The states a scan goes through: the one [pgstrom_begin_foreign_scan]
    leaves, and those that calls of [pgstrom_iterate_foreign_scan] lead
    to, whatever slot each call is given. *)
Inductive reachable : PgStromExecState -> Prop :=
| reach_begin : forall cat base fdw_private cl_ok tr st,
    pgstrom_begin_foreign_scan cat base fdw_private cl_ok false
      = (tr, Begun st) ->
    reachable st
| reach_iterate : forall fuel st slot st' slot' emitted,
    reachable st ->
    pgstrom_iterate_foreign_scan fuel st slot
      = Some (Returns st' slot' emitted) ->
    reachable st'.

(** [n] calls of the iterator in a row, each on the slot the call before
    left and each with [fuel] rounds of [retry:] at most: for every call
    the tuple returned, as the row identifier with the values and the
    null flags of the slot, or [None] for the empty slot. *)
Definition row_of (emitted : option Z) (slot : TupleTableSlot)
  : option (Z * list Datum * list bool) :=
  match emitted with
  | Some r => Some (r, tts_values slot, tts_isnull slot)
  | None => None
  end.

Fixpoint iterate_n (fuel : nat) (n : nat) (st : PgStromExecState)
  (slot : TupleTableSlot)
  : option (list (option (Z * list Datum * list bool))) :=
  match n with
  | O => Some []
  | S n' =>
      res <- pgstrom_iterate_foreign_scan fuel st slot ;;
      match res with
      | Returns st1 slot1 emitted =>
          rest <- iterate_n fuel n' st1 slot1 ;;
          Some (row_of emitted slot1 :: rest)
      | NeverReturns | OutOfFuel => None
      end
  end.

(** The states before and after each of [n] calls. *)
Fixpoint scan_states (fuel : nat) (n : nat) (st : PgStromExecState)
  (slot : TupleTableSlot) : list PgStromExecState :=
  match n with
  | O => [st]
  | S n' =>
      st :: match pgstrom_iterate_foreign_scan fuel st slot with
            | Some (Returns st1 slot1 _) => scan_states fuel n' st1 slot1
            | _ => []
            end
  end.

End Scan.

(** ** Notions used in the statements *)

(** Two tuples of a column store, the first before the second in index
    order: their arrays do not overlap. *)
Definition apart (a b : cs_tuple) : Prop :=
  cs_rowid a < cs_rowid b /\
  cs_rowid a + ARR_DIMS0 (cs_array a) <= cs_rowid b.

(** Some tuple of the column store holds a value for the row [r]. *)
Definition has_stored_row (rel : list cs_tuple) (r : Z) : bool :=
  existsb (fun t => (cs_rowid t <=? r) &&
                    (r <? cs_rowid t + ARR_DIMS0 (cs_array t))) rel.

(** What [pgstrom_scan_chunk_buffer] reads for the row at [index] from a
    column that was loaded into the chunk (lines 576-593). *)
Definition loaded_value (chunk : PgStromChunkBuf) (csidx index : Z)
  : option (Datum * bool) :=
  values <- list_get (cs_values chunk) csidx ;;
  vals <- values ;;
  nulls <- list_get (cs_nulls chunk) csidx ;;
  Some (chunk_fetch vals nulls index).

(** The fields that nothing writes once the scan has begun, and those
    that reading a row leaves alone. *)
Definition plan_of (st : PgStromExecState) :=
  (relset st, predictable st, required_cols st, clause_cols st,
   chunk_exec_pending_list st, chunk_exec_list st).

Definition cursor_of (st : PgStromExecState) :=
  (ri_scan st, chunk_ready_list st, curr_chunk st, curr_index st).

Definition has_scan (o : option ColumnScan) : bool :=
  match o with
  | Some _ => true
  | None => false
  end.

(** What decides whether reading the columns of a row runs into an
    undefined access: the sizes of the arrays, and which columns have an
    index scan. *)
Definition shape (st : PgStromExecState) (slot : TupleTableSlot) :=
  (required_cols st, map has_scan (cs_cols st),
   length (tts_values slot), length (tts_isnull slot)).

(** Along a sequence of states, every chunk found on the ready list was
    on the pending list and later on the executing list before. *)
Definition passes_through_pipeline (trace : list PgStromExecState) : Prop :=
  forall k st c,
    nth_error trace k = Some st ->
    In c (chunk_ready_list st) ->
    exists i j si sj,
      (i < j <= k)%nat /\
      nth_error trace i = Some si /\ In c (chunk_exec_pending_list si) /\
      nth_error trace j = Some sj /\ In c (chunk_exec_list sj).

(** The close of a relation set releases the column handles in the
    reverse of the order in which the open acquired them. *)
Definition closes_columns_in_reverse (cat : Catalog) (base : BaseRelation)
  (with_index : bool) : Prop :=
  forall tr rs,
    pgstrom_open_relation_set cat base with_index [] = (tr, inr rs) ->
    filter is_column_handle (closed_handles (pgstrom_close_relation_set rs []))
    = rev (filter is_column_handle (opened_handles tr)).

(** After the eager load of a column, every row of the chunk for which
    the column store holds no value reads as null. *)
Definition gaps_read_as_null (chunk_size : Z) (rel : list cs_tuple)
  (chunk : PgStromChunkBuf) (csidx : Z) : Prop :=
  forall chunk' index,
    load_column_store chunk_size rel chunk csidx = Some chunk' ->
    0 <= index < chunk_size ->
    has_stored_row rel (rowid chunk + index) = false ->
    exists v, loaded_value chunk' csidx index = Some (v, true).

(** ** Sample tables *)

Module Sample.

(** An array without a null bitmap. *)
Definition plain_array (vals : list Datum) : ArrayType :=
  mkArray (Z.of_nat (length vals)) None vals.

(** A foreign table of two columns with its shadow objects. *)
Definition base : BaseRelation :=
  mkBaseRel RELKIND_FOREIGN_TABLE true [mkAttr false 8; mkAttr false 8].

Definition catalog (ri : list ri_tuple) (c0 c1 : list cs_tuple) : Catalog :=
  fun name =>
    match name with
    | NameRowid => Some (mkRelation NameRowid RELKIND_RELATION 2 [] ri)
    | NameRowidIdx => Some (mkRelation NameRowidIdx RELKIND_INDEX 1 [] [])
    | NameCs O => Some (mkRelation (NameCs 0) RELKIND_RELATION 2 c0 [])
    | NameCs (S O) => Some (mkRelation (NameCs 1) RELKIND_RELATION 2 c1 [])
    | NameCsIdx O => Some (mkRelation (NameCsIdx 0) RELKIND_INDEX 1 [] [])
    | NameCsIdx (S O) => Some (mkRelation (NameCsIdx 1) RELKIND_INDEX 1 [] [])
    | NameSeq => Some (mkRelation NameSeq RELKIND_SEQUENCE 3 [] [])
    | _ => None
    end.

Definition slot0 : TupleTableSlot := mkSlot true [0; 0] [false; false].

Definition no_relation : Relation :=
  mkRelation NameRowid RELKIND_RELATION 0 [] [].

Definition no_state : PgStromExecState :=
  {| relset := mkRelationSet base no_relation None [] [] None;
     predictable := 0; required_cols := []; clause_cols := [];
     ri_scan := heap_beginscan []; cs_cols := [];
     chunk_exec_pending_list := []; chunk_exec_list := [];
     chunk_ready_list := []; curr_chunk := None; curr_index := 0;
     device_program := false |}.

(** The state a scan begins in. *)
Definition begin (cat : Catalog) (fdw_private : list DefElem)
  : PgStromExecState :=
  match snd (pgstrom_begin_foreign_scan cat base fdw_private true false) with
  | Begun st => st
  | _ => no_state
  end.

Definition returned_state (res : option IterateResult) : PgStromExecState :=
  match res with
  | Some (Returns st _ _) => st
  | _ => no_state
  end.

Definition returned_slot (res : option IterateResult) : TupleTableSlot :=
  match res with
  | Some (Returns _ slot _) => slot
  | _ => slot0
  end.

(** A chunk of eight rows at row 0 of which rows 0 and 1 are live. *)
Definition two_live_rows : list ri_tuple := [mkRiTuple 0 (mkVarBit 8 [3])].

(** A chunk of eight rows at row 0 of which row 0 is live. *)
Definition one_live_row : list ri_tuple := [mkRiTuple 0 (mkVarBit 8 [1])].

Definition predictable_query : list DefElem :=
  [makeDefElem "predictable" (T_Integer 1)].

Definition empty_query : list DefElem :=
  [makeDefElem "predictable" (T_Integer 0)].

(** Column 1 is returned and is read row by row. *)
Definition lazy_query : list DefElem :=
  [makeDefElem "predictable" (T_Integer 1);
   makeDefElem "required_cols" (T_Integer 1)].

(** Column 1 is returned and is loaded with each chunk. *)
Definition eager_query : list DefElem :=
  [makeDefElem "clause_cols" (T_Integer 1);
   makeDefElem "required_cols" (T_Integer 1)].

(** The array {5, NULL} at row 0: two items, a bitmap in which only the
    bit of the first item is set, one value in the data area. *)
Definition five_and_null : list cs_tuple :=
  [mkCsTuple 0 (mkArray 2 (Some [1]) [5])].

(** Arrays at rows 0..19, 25..29 and 30..34. *)
Definition three_arrays : list cs_tuple :=
  [mkCsTuple 0 (plain_array (map (fun i => 1000 + Z.of_nat i) (seq 0 20)));
   mkCsTuple 25 (plain_array [2000; 2001; 2002; 2003; 2004]);
   mkCsTuple 30 (plain_array [3000; 3001; 3002; 3003; 3004])].

(** One array for the rows 100..109. *)
Definition rows_100_to_109 : list cs_tuple :=
  [mkCsTuple 100 (plain_array [10; 11; 12; 13; 14; 15; 16; 17; 18; 19])].

(** Values for the rows 0..7 of a chunk of sixteen rows. *)
Definition first_half : list cs_tuple :=
  [mkCsTuple 0 (plain_array [1; 2; 3; 4; 5; 6; 7; 8])].

Definition empty_chunk : PgStromChunkBuf :=
  mkChunk 2 0 (mkVarBit 16 [255; 255]) [None; None] [None; None].

End Sample.

(** ** Ending a scan (scan.c, lines 884-928) and the OpenCL objects *)

Inductive EndEvent :=
| IndexEndScan (csidx : nat)          (* index_endscan(cs_scan[csidx]) *)
| HeapEndScan                         (* heap_endscan(ri_scan) *)
| RelationEvent (e : RelEvent)        (* of pgstrom_close_relation_set *)
| ReleaseCommandQueue (i : nat)
| ReleaseProgram.

(** [for (i=0; i < nattrs; i++) if (cs_scan[i]) index_endscan(cs_scan[i])]
    at lines 900-904, from [i] on. *)
Fixpoint end_column_scans (n : nat) (i : nat) (cols : list (option ColumnScan))
  : list EndEvent :=
  match n with
  | O => []
  | S n' =>
      match nth i cols None with
      | Some _ => IndexEndScan i :: end_column_scans n' (S i) cols
      | None => end_column_scans n' (S i) cols
      end
  end.

(** [pgboost_end_foreign_scan]: what it ends, closes and releases, in
    order.  [fdw_state] is NULL after an EXPLAIN;
    [pgstrom_num_devices] is a global set outside scan.c;
    [fss->ss.ss_currentRelation] is the base relation, which the
    relation set keeps.  The loop that releases the chunks is compiled
    out ([#if 0]). *)
Definition pgboost_end_foreign_scan (pgstrom_num_devices : nat)
  (fdw_state : option PgStromExecState) : list EndEvent :=
  match fdw_state with
  | None => []
  | Some sestate =>
      let nattrs :=
        RelationGetNumberOfAttributes (base_rel (relset sestate)) in
      end_column_scans nattrs O (cs_cols sestate) ++
      [HeapEndScan] ++
      map RelationEvent (pgstrom_close_relation_set (relset sestate) []) ++
      (if device_program sestate
       then map ReleaseCommandQueue (seq 0 pgstrom_num_devices) ++
            [ReleaseProgram]
       else [])
  end.

(** The answers of the OpenCL driver to the calls of lines 672-742. *)
Record CLDriver := mkCLDriver {
  cl_create_program : bool;     (* clCreateProgramWithSource succeeds *)
  cl_build_program : bool;      (* clBuildProgram succeeds *)
  cl_create_queue : nat -> bool (* clCreateCommandQueue for the device succeeds *)
}.

Inductive CLEvent :=
| CreatedProgram
| CreatedQueue (i : nat)
| ReleasedQueue (i : nat)
| ReleasedProgram.

(** [while (i > 0) clReleaseCommandQueue(queue[--i])] at lines 733-734. *)
Fixpoint release_queues_below (i : nat) : list CLEvent :=
  match i with
  | O => []
  | S i' => ReleasedQueue i' :: release_queues_below i'
  end.

(** [for (i=0; i < pgstrom_num_devices; i++)] at lines 724-742 with [n]
    devices to go from the device [i] on.  The flag is false when the
    loop leaves through [ereport(ERROR)]. *)
Fixpoint create_queues (drv : CLDriver) (n : nat) (i : nat)
  : list CLEvent * bool :=
  match n with
  | O => ([], true)
  | S n' =>
      if cl_create_queue drv i then
        let (evs, ok) := create_queues drv n' (S i) in
        (CreatedQueue i :: evs, ok)
      else (release_queues_below i ++ [ReleasedProgram], false)
  end.

(** Lines 672-742: the program and the command queues of a query that
    is not predictable, with the flag [false] when an error is raised.
    The build log that a failed build sends as notices is left out.
    The flag is the [cl_ok] of [pgstrom_init_exec_state]. *)
Definition device_setup (drv : CLDriver) (pgstrom_num_devices : nat)
  : list CLEvent * bool :=
  if negb (cl_create_program drv) then ([], false)
  else if negb (cl_build_program drv)
  then ([CreatedProgram; ReleasedProgram], false)
  else
    let (evs, ok) := create_queues drv pgstrom_num_devices O in
    (CreatedProgram :: evs, ok).

Definition created_queues (evs : list CLEvent) : list nat :=
  flat_map (fun e => match e with CreatedQueue i => [i] | _ => [] end) evs.

Definition released_queues (evs : list CLEvent) : list nat :=
  flat_map (fun e => match e with ReleasedQueue i => [i] | _ => [] end) evs.

Definition count_event (e : CLEvent) (evs : list CLEvent) : nat :=
  length (filter (fun x => match x, e with
                           | CreatedProgram, CreatedProgram
                           | ReleasedProgram, ReleasedProgram => true
                           | _, _ => false
                           end) evs).

(** ** More notions used in the statements *)

(** The tuple [t] holds a value for the row [r]. *)
Definition holds_row (t : cs_tuple) (r : Z) : Prop :=
  cs_rowid t <= r < cs_rowid t + ARR_DIMS0 (cs_array t).

(** The row [r] is the row after the last one of some array stored. *)
Definition is_array_end (rel : list cs_tuple) (r : Z) : bool :=
  existsb (fun t => r =? cs_rowid t + ARR_DIMS0 (cs_array t)) rel.

(** The number of items of every array is a non-negative [int]. *)
Definition dims_are_int (rel : list cs_tuple) : Prop :=
  Forall (fun t => 0 <= ARR_DIMS0 (cs_array t) < 2 ^ 31) rel.

(** The cached array of a column, when there is one, is the array of a
    tuple of its store, with the bounds the code computes for it. *)
Definition cache_consistent (cs : ColumnScan) : Prop :=
  match cs_cur_values cs with
  | Some a =>
      exists t, In t (xs_rel (cs_scan cs)) /\ a = cs_array t /\
                cs_cur_rowid_min cs = cs_rowid t /\
                cs_cur_rowid_max cs = cs_rowid t + ARR_DIMS0 (cs_array t)
  | None => True
  end.

(** No row of the chunk at or after [index] is live. *)
Definition no_live_row_from (c : PgStromChunkBuf) (index : Z) : Prop :=
  forall j, index <= j < VARBITLEN (rowmap c) ->
            bit_is_set (VARBITS (rowmap c)) j = false.

Definition no_live_row_in (t : ri_tuple) : Prop :=
  forall j, 0 <= j < VARBITLEN (ri_rowmap t) ->
            bit_is_set (VARBITS (ri_rowmap t)) j = false.

(** The cursor of the iterator stands at the index 0 of a chunk of the
    ready list, and no chunk before that one has a live row. *)
Definition cursor_passed_dead_chunks (st : PgStromExecState) : Prop :=
  curr_index st = 0 /\
  match curr_chunk st with
  | None => True
  | Some cell =>
      forall k c, (k < cell)%nat ->
                  nth_error (chunk_ready_list st) k = Some c ->
                  no_live_row_from c 0
  end.

(** The loop of [pgstrom_load_column_store] as a fold over the tuples
    the scan of the range returns. *)
Fixpoint load_fold (chunk_size : Z) (ts : list cs_tuple)
  (chunk : PgStromChunkBuf) (csidx : Z) (found : bool)
  : option (PgStromChunkBuf * bool) :=
  match ts with
  | [] => Some (chunk, found)
  | t :: rest =>
      chunk1 <- load_tuple chunk_size chunk csidx t ;;
      load_fold chunk_size rest chunk1 csidx true
  end.

(** The tuples a forward scan has still to return. *)
Definition scan_remaining (sd : IndexScanDesc) : list cs_tuple :=
  match xs_pos sd with
  | BeforeFirst => scan_matches sd
  | OnItem i => skipn (S i) (scan_matches sd)
  | RanOff => []
  end.

(** The entries of [fdw_private] with the name [name], by value. *)
Definition plan_entries (name : string) (l : list DefElem) : list Z :=
  map (fun d => intVal (arg d))
      (filter (fun d => String.eqb (defname d) name) l).

Definition known_plan_entry (d : DefElem) : bool :=
  String.eqb (defname d) "predictable" ||
  String.eqb (defname d) "device_kernel" ||
  String.eqb (defname d) "clause_cols" ||
  String.eqb (defname d) "required_cols".

(** The same entries as the [int] that [int csidx = intVal(...)] makes
    of each (lines 642 and 651). *)
Definition plan_ints (name : string) (l : list DefElem) : list Z :=
  map to_int32 (plan_entries name l).

(** The error that the loop of lines 625-664 raises at an entry, if
    any. *)
Definition plan_entry_error (d : DefElem) : option BeginError :=
  if negb (known_plan_entry d) then Some (UnexpectedPlanInfo (defname d))
  else if String.eqb (defname d) "clause_cols" &&
          (to_int32 (intVal (arg d)) <? 0)
  then Some NegativeBitmapsetMember
  else None.

Definition plan_entry_ok (d : DefElem) : bool :=
  match plan_entry_error d with
  | Some _ => false
  | None => true
  end.

(** The catalog has the relation [name], and it is of the kind [kind]. *)
Definition has_kind (cat : Catalog) (name : RelName) (kind : relkind) : Prop :=
  exists r, cat name = Some r /\ rd_relkind r = kind.

(** The base table is a foreign table of pg_strom and each of its shadow
    objects is in the catalog with the kind expected of it. *)
Definition companions_ok (cat : Catalog) (base : BaseRelation)
  (with_index : bool) : Prop :=
  base_relkind base = RELKIND_FOREIGN_TABLE /\
  base_is_pgstrom base = true /\
  has_kind cat NameRowid RELKIND_RELATION /\
  (with_index = true -> has_kind cat NameRowidIdx RELKIND_INDEX) /\
  (forall i attr, nth_error (base_attrs base) i = Some attr ->
     attisdropped attr = false ->
     has_kind cat (NameCs i) RELKIND_RELATION /\
     (with_index = true -> has_kind cat (NameCsIdx i) RELKIND_INDEX)) /\
  cat NameSeq <> None.

(** What the column store holds for the row [r]: the item of the array
    that holds the row, or null when no array does. *)
Definition stored_value (rel : list cs_tuple) (r : Z) : Datum * bool :=
  match find (fun t => (cs_rowid t <=? r) &&
                       (r <? cs_rowid t + ARR_DIMS0 (cs_array t))) rel with
  | Some t => array_ref (cs_array t) (r - cs_rowid t)
  | None => (0, true)
  end.

(** A tuple the eager load copies as it is: its array has no null
    bitmap, as many values as items, and lies within the chunk. *)
Definition fits_chunk (chunk_size : Z) (chunk : PgStromChunkBuf)
  (t : cs_tuple) : Prop :=
  ARR_NULLBITMAP (cs_array t) = None /\
  length (ARR_DATA_PTR (cs_array t)) = Z.to_nat (ARR_DIMS0 (cs_array t)) /\
  0 <= ARR_DIMS0 (cs_array t) /\
  rowid chunk <= cs_rowid t /\
  cs_rowid t + ARR_DIMS0 (cs_array t) <= rowid chunk + chunk_size.

(** What [pgboost_end_foreign_scan] looks at. *)
Definition end_view (st : PgStromExecState) :=
  (relset st, device_program st, map has_scan (cs_cols st)).

(** A column has values in the chunk only when the query is not
    predictable and the number of the column is one that the loop of
    lines 376-377 reads from [clause_cols]. *)
Definition only_clause_loaded (st : PgStromExecState) (c : PgStromChunkBuf)
  : Prop :=
  forall csidx vals,
    list_get (cs_values c) csidx = Some (Some vals) ->
    predictable st = 0 /\
    bms_is_member (csidx + 1) (attnums (clause_cols st)) = true.

(** ** More samples *)

Module Case.

(** The catalog of [Sample.catalog] without the column store of the
    second column. *)
Definition no_second_store : Catalog :=
  fun name =>
    match name with
    | NameCs (S O) => None
    | _ => Sample.catalog [] [] [] name
    end.

(** A foreign table whose second column is dropped. *)
Definition base_dropped : BaseRelation :=
  mkBaseRel RELKIND_FOREIGN_TABLE true [mkAttr false 8; mkAttr true 8].

Definition opened_set (r : list RelEvent * (OpenError + RelationSetData))
  : RelationSetData :=
  match snd r with
  | inr rs => rs
  | inl _ => relset Sample.no_state
  end.

Definition plan_info (r : BeginError + (PlanInfo * bool)) : PlanInfo :=
  match r with
  | inr (info, _) => info
  | inl _ => mkPlanInfo 0 [] []
  end.

(** Plan information with an entry that [pgstrom_init_exec_state] does
    not know. *)
Definition unknown_entry : list DefElem :=
  [makeDefElem "predictable" (T_Integer 1);
   makeDefElem "kernel" (T_Integer 0);
   makeDefElem "required_cols" (T_Integer 1)].

(** Plan information whose "required_cols" entry holds 2^32 + 1. *)
Definition wide_query : list DefElem :=
  [makeDefElem "clause_cols" (T_Integer 2);
   makeDefElem "required_cols" (T_Integer 4294967297)].

(** Plan information with a negative clause column before an entry of
    an unknown name. *)
Definition negative_clause : list DefElem :=
  [makeDefElem "predictable" (T_Integer 1);
   makeDefElem "clause_cols" (T_Integer (-1));
   makeDefElem "kernel" (T_Integer 0)].

(** A chunk of sixteen rows at row 0 of which the row 8 is live. *)
Definition row_8_live : list ri_tuple := [mkRiTuple 0 (mkVarBit 16 [0; 1])].

(** A foreign table of three columns with its shadow objects.  The
    rowid relation has its two attributes, the row identifier and the
    row map (line 343 deforms its tuples into [values[2]]). *)
Definition base3 : BaseRelation :=
  mkBaseRel RELKIND_FOREIGN_TABLE true
            [mkAttr false 8; mkAttr false 8; mkAttr false 8].

Definition catalog3 (ri : list ri_tuple) : Catalog :=
  fun name =>
    match name with
    | NameCs (S (S O)) => Some (mkRelation (NameCs 2) RELKIND_RELATION 2 [] [])
    | NameCsIdx (S (S O)) => Some (mkRelation (NameCsIdx 2) RELKIND_INDEX 1 [] [])
    | _ => Sample.catalog ri [] [] name
    end.

Definition begin3 (cat : Catalog) (fdw_private : list DefElem)
  : PgStromExecState :=
  match snd (pgstrom_begin_foreign_scan cat base3 fdw_private true false) with
  | Begun st => st
  | _ => Sample.no_state
  end.

(** A slot of three columns that holds the value 7 in each. *)
Definition slot3 : TupleTableSlot :=
  mkSlot true [7; 7; 7] [false; false; false].

(** Two chunks of eight rows without a live row. *)
Definition dead_table : list ri_tuple :=
  [mkRiTuple 0 (mkVarBit 8 [0]); mkRiTuple 8 (mkVarBit 8 [0])].

(** A driver on which the queue of the device 2 cannot be created. *)
Definition third_queue_fails : CLDriver :=
  mkCLDriver true true (fun i => negb (Nat.eqb i 2)).

(** The state of the iterator at the first chunk of a table, as lines
    817-824 leave it. *)
Definition at_first_chunk (st : PgStromExecState) : PgStromExecState :=
  match pgstrom_load_chunk_buffer 8 st 1 with
  | Some (st', _) => set_cursor st' (Some O) 0
  | None => st
  end.

End Case.

(** * Properties *)

Ltac inv H := inversion H; subst; clear H.

(** Case analysis on the first computation of a successful [bind]. *)
Ltac bind_case H :=
  match type of H with
  | bind ?m _ = Some _ =>
      let E := fresh "E" in
      destruct m eqn:E; [cbn [bind] in H | discriminate H]
  end.

(** ** Arrays updated in place *)

Lemma set_nth_some {A} (x : A) : forall l n,
  (n < length l)%nat -> exists l', set_nth l n x = Some l'.
Proof.
  induction l as [|h t IH]; intros n Hn; simpl in *; [lia|].
  destruct n as [|n]; [eauto|].
  destruct (IH n) as [t' Ht]; [lia|]. rewrite Ht. eauto.
Qed.

Lemma set_nth_none {A} (x : A) : forall l n,
  (length l <= n)%nat -> set_nth l n x = None.
Proof.
  induction l as [|h t IH]; intros n Hn; simpl in *; [reflexivity|].
  destruct n as [|n]; [lia|]. rewrite IH by lia. reflexivity.
Qed.

Lemma set_nth_length {A} (x : A) : forall l n l',
  set_nth l n x = Some l' -> length l' = length l.
Proof.
  induction l as [|h t IH]; intros n l'; simpl; [discriminate|].
  destruct n as [|n].
  - intros H; inv H; reflexivity.
  - destruct (set_nth t n x) as [t'|] eqn:E; [|discriminate].
    intros H; inv H. simpl. f_equal. eauto.
Qed.

Lemma set_nth_same {A} (x : A) : forall l n l',
  set_nth l n x = Some l' -> nth_error l' n = Some x.
Proof.
  induction l as [|h t IH]; intros n l'; simpl; [discriminate|].
  destruct n as [|n].
  - intros H; inv H; reflexivity.
  - destruct (set_nth t n x) as [t'|] eqn:E; [|discriminate].
    intros H; inv H. simpl. eauto.
Qed.

Lemma set_nth_other {A} (x : A) : forall l n l' m,
  set_nth l n x = Some l' -> m <> n -> nth_error l' m = nth_error l m.
Proof.
  induction l as [|h t IH]; intros n l' m; simpl; [discriminate|].
  destruct n as [|n].
  - intros H Hm; inv H. destruct m; [congruence|reflexivity].
  - destruct (set_nth t n x) as [t'|] eqn:E; [|discriminate].
    intros H Hm; inv H. destruct m; simpl; [reflexivity|].
    eapply IH; eauto.
Qed.

Lemma set_nth_map {A B} (f : A -> B) x : forall l n l',
  set_nth l n x = Some l' -> set_nth (map f l) n (f x) = Some (map f l').
Proof.
  induction l as [|h t IH]; intros n l'; simpl; [discriminate|].
  destruct n as [|n].
  - intros H; inv H. reflexivity.
  - destruct (set_nth t n x) eqn:E; [|discriminate]. intros H; inv H.
    rewrite (IH _ _ E). reflexivity.
Qed.

Lemma set_nth_id {A} : forall (l : list A) n x,
  nth_error l n = Some x -> set_nth l n x = Some l.
Proof.
  induction l as [|h t IH]; intros n x; destruct n; simpl; try discriminate.
  - intros H; inv H. reflexivity.
  - intros H. rewrite (IH _ _ H). reflexivity.
Qed.

Lemma list_set_some {A} (l : list A) i x :
  0 <= i < Z.of_nat (length l) -> exists l', list_set l i x = Some l'.
Proof.
  intros H. unfold list_set.
  destruct (i <? 0) eqn:E; [apply Z.ltb_lt in E; lia|].
  apply set_nth_some. lia.
Qed.

Lemma list_set_in_range {A} (l : list A) i x l' :
  list_set l i x = Some l' -> 0 <= i < Z.of_nat (length l).
Proof.
  unfold list_set. intros H.
  destruct (i <? 0) eqn:E; [discriminate|]. apply Z.ltb_ge in E.
  destruct (Nat.lt_ge_cases (Z.to_nat i) (length l)) as [Hlt|Hge]; [lia|].
  rewrite set_nth_none in H by exact Hge. discriminate.
Qed.

Lemma list_set_length {A} (l : list A) i x l' :
  list_set l i x = Some l' -> length l' = length l.
Proof.
  unfold list_set. destruct (i <? 0); [discriminate|]. apply set_nth_length.
Qed.

Lemma list_set_transfer {A B} (l : list A) (m : list B) i x y l' :
  list_set l i x = Some l' -> length m = length l ->
  exists m', list_set m i y = Some m'.
Proof.
  intros H L. apply list_set_some. rewrite L.
  eapply list_set_in_range; eauto.
Qed.

Lemma list_get_set_same {A} (l : list A) i x l' :
  list_set l i x = Some l' -> list_get l' i = Some x.
Proof.
  unfold list_set, list_get. destruct (i <? 0); [discriminate|].
  apply set_nth_same.
Qed.

Lemma list_get_set_other {A} (l : list A) i x l' j :
  list_set l i x = Some l' -> j <> i -> 0 <= j -> list_get l' j = list_get l j.
Proof.
  unfold list_set, list_get. destruct (i <? 0) eqn:E; [discriminate|].
  intros H Hj Hj0. apply Z.ltb_ge in E.
  destruct (j <? 0); [reflexivity|].
  eapply set_nth_other; eauto. lia.
Qed.

Lemma list_get_map {A B} (f : A -> B) l i :
  list_get (map f l) i = option_map f (list_get l i).
Proof.
  unfold list_get. destruct (i <? 0); [reflexivity|]. apply nth_error_map.
Qed.

Lemma skipn_cons_nth {A} (d : A) : forall i (l : list A) a l',
  skipn i l = a :: l' -> nth i l d = a /\ skipn (S i) l = l'.
Proof.
  induction i as [|i IH]; intros [|x l] a l' H; simpl in *; try discriminate.
  - inv H. now destruct l'.
  - apply IH in H. exact H.
Qed.

(** ** The relation set *)

Lemma closed_handles_app tr1 tr2 :
  closed_handles (tr1 ++ tr2) = closed_handles tr1 ++ closed_handles tr2.
Proof. unfold closed_handles. apply flat_map_app. Qed.

Lemma opened_handles_app tr1 tr2 :
  opened_handles (tr1 ++ tr2) = opened_handles tr1 ++ opened_handles tr2.
Proof. unfold opened_handles. apply flat_map_app. Qed.

Lemma handles_of_opened l :
  opened_handles (map Opened l) = l /\ closed_handles (map Opened l) = [].
Proof. induction l as [|r l [IH1 IH2]]; simpl; split; congruence. Qed.

Lemma handles_of_closed l :
  closed_handles (map Closed l) = l /\ opened_handles (map Closed l) = [].
Proof. induction l as [|r l [IH1 IH2]]; simpl; split; congruence. Qed.

Lemma open_as_trace cat name kind err tr tr' r :
  open_as cat name kind err tr = (tr', inr r) ->
  tr' = tr ++ [Opened r].
Proof.
  unfold open_as, obind, relation_openrv, oret, ofail.
  destruct (cat name) as [r0|]; [|discriminate].
  destruct (relkind_eqb (rd_relkind r0) kind); intros H; inv H.
  reflexivity.
Qed.

Lemma open_column_trace cat wi i attr tr tr' c :
  open_column cat wi i attr tr = (tr', inr c) ->
  tr' = tr ++ map Opened (handles_of c).
Proof.
  unfold open_column. destruct (attisdropped attr).
  - unfold oret. intros H; inv H. simpl. now rewrite app_nil_r.
  - unfold obind at 1.
    destruct (open_as cat (NameCs i) RELKIND_RELATION _ tr)
      as [tr1 [e|rel]] eqn:E1; [discriminate|].
    apply open_as_trace in E1. subst tr1.
    destruct wi.
    + unfold obind.
      destruct (open_as cat (NameCsIdx i) RELKIND_INDEX _ _)
        as [tr2 [e|idx]] eqn:E2; [discriminate|].
      apply open_as_trace in E2. subst tr2.
      unfold oret. intros H; inv H. unfold handles_of; simpl.
      now rewrite <- app_assoc.
    + unfold oret. intros H; inv H. reflexivity.
Qed.

Lemma open_columns_trace cat wi attrs : forall i tr tr' cols,
  open_columns cat wi i attrs tr = (tr', inr cols) ->
  length (fst cols) = length attrs /\
  length (snd cols) = length attrs /\
  tr' = tr ++ map Opened (flat_map handles_of (combine (fst cols) (snd cols))).
Proof.
  induction attrs as [|attr rest IH]; intros i tr tr' cols; simpl.
  - unfold oret. intros H; inv H. simpl. now rewrite app_nil_r.
  - unfold obind at 1.
    destruct (open_column cat wi i attr tr) as [tr1 [e|c]] eqn:E1;
      [discriminate|].
    apply open_column_trace in E1. subst tr1.
    unfold obind at 1.
    destruct (open_columns cat wi (S i) rest _) as [tr2 [e|cs]] eqn:E2;
      [discriminate|].
    apply IH in E2. destruct E2 as (L1 & L2 & ->).
    unfold oret. intros H; inv H. simpl.
    split; [congruence|]. split; [congruence|].
    rewrite map_app, <- app_assoc. reflexivity.
Qed.

Lemma close_if_open_trace r tr :
  close_if_open r tr =
  tr ++ map Closed (match r with Some x => [x] | None => [] end).
Proof. destruct r; simpl; [reflexivity | now rewrite app_nil_r]. Qed.

Lemma close_columns_trace rs : forall n i l1 l2 tr,
  skipn i (cs_rel rs) = l1 -> skipn i (cs_idx rs) = l2 ->
  length l1 = n -> length l2 = n ->
  close_columns n i rs tr =
  tr ++ map Closed (flat_map handles_of (combine l1 l2)).
Proof.
  induction n as [|n IH]; intros i l1 l2 tr H1 H2 L1 L2.
  - destruct l1; [|discriminate]. simpl. now rewrite app_nil_r.
  - destruct l1 as [|a l1]; [discriminate|].
    destruct l2 as [|b l2]; [discriminate|].
    apply (skipn_cons_nth None) in H1. destruct H1 as [N1 S1].
    apply (skipn_cons_nth None) in H2. destruct H2 as [N2 S2].
    simpl close_columns. rewrite N1, N2.
    rewrite (IH (S i) l1 l2); auto.
    rewrite !close_if_open_trace. simpl flat_map.
    rewrite map_app, <- !app_assoc. f_equal.
    unfold handles_of at 2. simpl fst. simpl snd. rewrite map_app.
    rewrite <- !app_assoc. reflexivity.
Qed.

(** C6, as stated, fails: for a table of two columns the close releases
    the column handles in the order store 1, index 1, store 2, index 2,
    the order in which the open acquired them, not its reverse. *)
Lemma close_order_is_not_reversed :
  ~ closes_columns_in_reverse (Sample.catalog [] [] []) Sample.base true.
Proof.
  intros H.
  specialize (H _ _ eq_refl). vm_compute in H. discriminate H.
Qed.

(** C6, amended: when [pgstrom_open_relation_set] succeeds, the close of
    the relation set it returned releases exactly the handles the open
    acquired (the rowid relation, its index, the column stores and their
    indexes), each once and in the order of their opening, and acquires
    none. *)
Theorem close_releases_in_open_order cat base with_index tr rs :
  pgstrom_open_relation_set cat base with_index [] = (tr, inr rs) ->
  closed_handles (pgstrom_close_relation_set rs []) = opened_handles tr /\
  opened_handles (pgstrom_close_relation_set rs []) = [].
Proof.
  unfold pgstrom_open_relation_set.
  destruct (negb (relkind_eqb (base_relkind base) RELKIND_FOREIGN_TABLE));
    [discriminate|].
  destruct (negb (base_is_pgstrom base)); [discriminate|].
  unfold obind at 1.
  destruct (open_as cat NameRowid _ _ []) as [tr1 [e|rrel]] eqn:E1;
    [discriminate|].
  apply open_as_trace in E1. subst tr1.
  unfold obind at 1.
  match goal with
  | |- context [(if with_index then ?a else ?b) ?t] =>
      destruct ((if with_index then a else b) t) as [tr2 [e|ridx]] eqn:E2;
        [discriminate|]
  end.
  assert (T2 : tr2 = ([] ++ [Opened rrel]) ++
                     map Opened (match ridx with Some x => [x] | None => [] end)).
  { destruct with_index.
    - unfold obind in E2.
      destruct (open_as cat NameRowidIdx _ _ _) as [tr3 [e|r]] eqn:E3;
        [discriminate|].
      apply open_as_trace in E3. unfold oret in E2. inv E2. reflexivity.
    - unfold oret in E2. inv E2. simpl. reflexivity. }
  clear E2. subst tr2.
  unfold obind at 1.
  destruct (open_columns cat with_index 0 (base_attrs base) _)
    as [tr3 [e|cols]] eqn:E3; [discriminate|].
  apply open_columns_trace in E3. destruct E3 as (L1 & L2 & ->).
  destruct (cat NameSeq); [|discriminate].
  intros H; inv H.
  unfold pgstrom_close_relation_set, RelationGetNumberOfAttributes. simpl.
  rewrite (close_columns_trace _ (length (base_attrs base)) 0
             (fst cols) (snd cols)); auto.
  rewrite close_if_open_trace. unfold relation_close. simpl.
  rewrite !closed_handles_app, !opened_handles_app.
  rewrite !(proj1 (handles_of_closed _)), !(proj2 (handles_of_closed _)).
  rewrite !(proj1 (handles_of_opened _)). simpl. split; reflexivity.
Qed.

Lemma close_releases_in_open_order_witness :
  let opened := pgstrom_open_relation_set (Sample.catalog [] [] [])
                  Sample.base true [] in
  let rs := match snd opened with
            | inr rs => rs
            | inl _ => relset Sample.no_state
            end in
  closed_handles (pgstrom_close_relation_set rs []) = opened_handles (fst opened) /\
  opened_handles (pgstrom_close_relation_set rs []) = [].
Proof.
  exact (close_releases_in_open_order (Sample.catalog [] [] []) Sample.base
           true _ _ eq_refl).
Defined.

(** ** The column-store cache *)

(** C3: with an array cached for the rows [min, max], a lookup of the row
    [max] itself is a hit of the cache: the condition of line 416 is
    false, the entries of the column (the cached array, its bounds, the
    index scan with the record of its calls) are left as they were, so
    no rescan and no fetch is made, and the value is read from the
    cached array at [max - min]. *)
Theorem boundary_rowid_hits_cache cs a :
  cs_cur_values cs = Some a ->
  cs_cur_rowid_min cs <= cs_cur_rowid_max cs ->
  cache_miss cs (cs_cur_rowid_max cs) = false /\
  pgstrom_scan_column_store cs (cs_cur_rowid_max cs) =
    (cs, array_ref a (to_int32 (cs_cur_rowid_max cs - cs_cur_rowid_min cs))).
Proof.
  intros Ha Hle.
  assert (M : cache_miss cs (cs_cur_rowid_max cs) = false).
  { unfold cache_miss. rewrite Ha.
    apply orb_false_iff. split; [apply Z.ltb_ge; lia|].
    rewrite Z.gtb_ltb. apply Z.ltb_ge. lia. }
  split; [exact M|].
  unfold pgstrom_scan_column_store. rewrite M.
  unfold fetch_cached. rewrite Ha. reflexivity.
Qed.

(** The array of the rows 100..109, cached by a lookup of the row 105,
    and then asked for the row 110. *)
Lemma boundary_rowid_hits_cache_witness :
  let cs := fst (lookups (column_begin Sample.rows_100_to_109) [105]) in
  (cs_cur_rowid_min cs = 100 /\ cs_cur_rowid_max cs = 110) /\
  cache_miss cs 110 = false /\
  pgstrom_scan_column_store cs 110 = (cs, (0, true)).
Proof.
  split; [split; reflexivity|].
  exact (boundary_rowid_hits_cache
           (fst (lookups (column_begin Sample.rows_100_to_109) [105]))
           (Sample.plain_array [10; 11; 12; 13; 14; 15; 16; 17; 18; 19])
           eq_refl ltac:(vm_compute; discriminate)).
Defined.

Lemma index_getnext_some sd dir sd' t :
  index_getnext sd dir = (sd', Some t) ->
  In t (xs_rel sd) /\ xs_rel sd' = xs_rel sd.
Proof.
  unfold index_getnext.
  destruct (next_position sd dir) as [i|]; [|discriminate].
  destruct (nth_error (scan_matches sd) i) as [t0|] eqn:E; [|discriminate].
  intros H; inv H. simpl. split; [|reflexivity].
  apply nth_error_In in E. unfold scan_matches in E.
  apply filter_In in E. tauto.
Qed.

Lemma no_match_getnext sd dir :
  scan_matches sd = [] -> snd (index_getnext sd dir) = None.
Proof.
  intros H. unfold index_getnext.
  destruct (next_position sd dir) as [i|]; [|reflexivity].
  rewrite H. destruct i; reflexivity.
Qed.

(** A hit of the forward probe caches a tuple of the column store whose
    rows, with the row after its last one, include [r]. *)
Lemma forward_probe_hit : forall count cs r cs1,
  forward_probe count cs r = (cs1, true) ->
  exists t, In t (xs_rel (cs_scan cs)) /\
    cs_cur_values cs1 = Some (cs_array t) /\
    cs_cur_rowid_min cs1 = cs_rowid t /\
    cs_cur_rowid_max cs1 = cs_rowid t + ARR_DIMS0 (cs_array t) /\
    cs_rowid t <= r <= cs_rowid t + ARR_DIMS0 (cs_array t).
Proof.
  induction count as [|count IH]; intros cs r cs1; simpl; [discriminate|].
  destruct (index_getnext (cs_scan cs) ForwardScanDirection)
    as [sd [t|]] eqn:E; [|discriminate].
  apply index_getnext_some in E. destruct E as [Hin Hrel].
  destruct ((r >=? cs_rowid t) && (r <=? cs_rowid t + ARR_DIMS0 (cs_array t)))
    eqn:Hhit.
  - intros H; inv H. exists t. simpl.
    apply andb_true_iff in Hhit. destruct Hhit as [H1 H2].
    rewrite Z.geb_leb in H1. apply Z.leb_le in H1. apply Z.leb_le in H2.
    repeat split; auto.
  - intros H. apply IH in H. simpl in H. rewrite Hrel in H. exact H.
Qed.

(** In a store of arrays that do not overlap, the tuples that start at
    or below a row end with the tuple that holds the row. *)
Lemma filter_last_covering r : forall (rel : list cs_tuple) t,
  StronglySorted apart rel -> In t rel ->
  cs_rowid t <= r < cs_rowid t + ARR_DIMS0 (cs_array t) ->
  exists pre,
    filter (keys_hold [ScanKeyInit BTLessEqualStrategyNumber r]) rel
    = pre ++ [t].
Proof.
  intros rel t Hs Hin Hr.
  apply in_split in Hin. destruct Hin as (l1 & l2 & ->).
  exists (filter (keys_hold [ScanKeyInit BTLessEqualStrategyNumber r]) l1).
  rewrite filter_app. f_equal. cbn [filter].
  assert (K : keys_hold [ScanKeyInit BTLessEqualStrategyNumber r] t = true).
  { unfold keys_hold, key_holds. simpl. rewrite andb_true_r.
    apply Z.leb_le. lia. }
  rewrite K. f_equal.
  assert (Hs2 : StronglySorted apart (t :: l2)).
  { clear -Hs. induction l1; simpl in *; auto. inversion Hs; auto. }
  inversion Hs2 as [|? ? _ Hall]; subst.
  clear -Hall Hr. induction l2 as [|x l2 IH]; cbn [filter]; auto.
  inversion Hall as [|? ? Hx Hrest]; subst.
  assert (Kx : keys_hold [ScanKeyInit BTLessEqualStrategyNumber r] x = false).
  { unfold keys_hold, key_holds. simpl. rewrite andb_true_r.
    apply Z.leb_gt. destruct Hx. lia. }
  rewrite Kx. auto.
Qed.

Lemma full_seek_covering cs r t :
  StronglySorted apart (xs_rel (cs_scan cs)) ->
  In t (xs_rel (cs_scan cs)) ->
  cs_rowid t <= r < cs_rowid t + ARR_DIMS0 (cs_array t) ->
  snd (lookup_by_full_seek cs r) =
    array_ref (cs_array t) (to_int32 (r - cs_rowid t)).
Proof.
  intros Hs Hin Hr.
  unfold lookup_by_full_seek, full_seek.
  set (cs0 := match cs_cur_values cs with Some _ => _ | None => cs end).
  assert (R0 : xs_rel (cs_scan cs0) = xs_rel (cs_scan cs))
    by (unfold cs0; destruct (cs_cur_values cs); reflexivity).
  destruct (filter_last_covering r _ t Hs Hin Hr) as [pre Hpre].
  unfold index_getnext, next_position, scan_matches. simpl.
  rewrite R0, Hpre. rewrite length_app. simpl.
  replace (length pre + 1)%nat with (S (length pre)) by lia.
  rewrite nth_error_app2 by lia. rewrite Nat.sub_diag. simpl.
  unfold fetch_cached. simpl. reflexivity.
Qed.

(** Where the forward probe and the full seek do agree: on a store of
    arrays that do not overlap, a lookup served by the probe returns
    what the full seek returns whenever the row lies below the end
    [cs_cur_rowid_max] of the array the probe has cached. *)
Lemma probe_agrees_below_array_end cs r :
  StronglySorted apart (xs_rel (cs_scan cs)) ->
  served_by_probe cs r = true ->
  r < cs_cur_rowid_max (fst (pgstrom_scan_column_store cs r)) ->
  snd (pgstrom_scan_column_store cs r) = snd (lookup_by_full_seek cs r).
Proof.
  unfold served_by_probe, pgstrom_scan_column_store.
  intros Hs Hp.
  apply andb_true_iff in Hp. destruct Hp as [Hp Hhit].
  apply andb_true_iff in Hp. destruct Hp as [Hmiss Happ].
  rewrite Hmiss, Happ.
  destruct (forward_probe 2 cs r) as [cs1 hit] eqn:E. simpl in Hhit. subst hit.
  simpl. intros Hlt.
  destruct (forward_probe_hit _ _ _ _ E) as (t & Hin & Hv & Hmin & Hmax & Hr).
  rewrite (full_seek_covering cs r t); auto; [|lia].
  unfold fetch_cached. rewrite Hv, Hmin. reflexivity.
Qed.

(** C2 on the store with arrays for the rows 0..19, 25..29 and 30..34,
    after a lookup of the row 5.  The lookup of the row 30 is served by
    the forward probe, which takes the array of the rows 25..29 for a hit
    (30 = 25 + 5 passes the test of line 455) and reads it at the index
    5, past its last item: the row is returned as null.  The full seek
    from the same state finds the array that starts at the row 30 and
    returns its first value. *)
Theorem probe_hit_at_array_end_differs_from_full_seek :
  let cs := fst (lookups (column_begin Sample.three_arrays) [5]) in
  StronglySorted apart (xs_rel (cs_scan cs)) /\
  has_stored_row Sample.three_arrays 30 = true /\
  served_by_probe cs 30 = true /\
  snd (pgstrom_scan_column_store cs 30) = (0, true) /\
  snd (lookup_by_full_seek cs 30) = (3000, false).
Proof.
  split; [|repeat split; reflexivity].
  repeat constructor; simpl; lia.
Qed.

(** ** The eager load of a column *)

Lemma land_low_bits index :
  Z.land index (BITS_PER_BYTE - 1) = index mod 8.
Proof.
  change (BITS_PER_BYTE - 1) with (Z.ones 3).
  rewrite Z.land_ones by lia. reflexivity.
Qed.

(** Every bit of a map filled by [memset(.., -1, ..)] is set. *)
Lemma all_ones_bit_is_set n index :
  0 <= index < 8 * Z.of_nat n ->
  bit_is_set (repeat 255 n) index = true.
Proof.
  intros H. unfold bit_is_set.
  rewrite land_low_bits.
  assert (Hd : (Z.to_nat (index / BITS_PER_BYTE) < n)%nat).
  { unfold BITS_PER_BYTE.
    assert (index / 8 < Z.of_nat n) by (apply Z.div_lt_upper_bound; lia).
    assert (0 <= index / 8) by (apply Z.div_pos; lia). lia. }
  rewrite nth_indep with (d' := 255) by (rewrite repeat_length; exact Hd).
  rewrite nth_repeat.
  assert (Hm : 0 <= index mod 8 < 8) by (apply Z.mod_pos_bound; lia).
  assert (C : index mod 8 = 0 \/ index mod 8 = 1 \/ index mod 8 = 2 \/
              index mod 8 = 3 \/ index mod 8 = 4 \/ index mod 8 = 5 \/
              index mod 8 = 6 \/ index mod 8 = 7) by lia.
  destruct C as [-> | [-> | [-> | [-> | [-> | [-> | [-> | ->]]]]]]];
    reflexivity.
Qed.

(** In a chunk of sixteen rows whose column store holds the rows 0..7
    only, the rows 8..15 have no stored value, yet the row 8 reads as
    the value 0, not as null.  The all-null map is written only when the
    scan of the range finds no tuple at all (line 323). *)
Lemma partial_gap_is_not_marked_null :
  ~ gaps_read_as_null 16 Sample.first_half Sample.empty_chunk 0.
Proof.
  intros H.
  destruct (H _ 8 eq_refl ltac:(lia) eq_refl) as [v Hv].
  vm_compute in Hv. discriminate Hv.
Qed.

(** The part of C5 that the code keeps: when the column store holds no
    tuple that starts in [rowid, rowid + PGSTROM_CHUNK_SIZE), the eager
    load of the column succeeds (the empty range is not an error) and
    every row of the chunk reads as null in that column. *)
Lemma empty_range_loads_as_null chunk_size rel chunk csidx :
  0 <= chunk_size -> chunk_size mod 8 = 0 ->
  (forall t, In t rel ->
     cs_rowid t < rowid chunk \/ rowid chunk + chunk_size <= cs_rowid t) ->
  0 <= csidx < Z.of_nat (length (cs_values chunk)) ->
  csidx < Z.of_nat (length (cs_nulls chunk)) ->
  exists chunk',
    load_column_store chunk_size rel chunk csidx = Some chunk' /\
    forall index, 0 <= index < chunk_size ->
      loaded_value chunk' csidx index = Some (0, true).
Proof.
  intros H0 H8 Hgap Hv Hn.
  unfold load_column_store.
  destruct (list_set_some (cs_values chunk) csidx
              (Some (repeat 0 (Z.to_nat chunk_size))) Hv) as [vs Hvs].
  unfold set_chunk_values at 1. rewrite Hvs. cbn [bind].
  set (chunk1 := {| nattrs := nattrs chunk; rowid := rowid chunk;
                    rowmap := rowmap chunk; cs_nulls := cs_nulls chunk;
                    cs_values := vs |}).
  set (iscan := index_rescan (index_beginscan rel) _).
  assert (M : scan_matches iscan = []).
  { unfold scan_matches, iscan.
    cbn [xs_keys xs_rel index_rescan index_beginscan].
    clear -Hgap. induction rel as [|t rel IH]; cbn [filter]; auto.
    assert (K : keys_hold
                  [ScanKeyInit BTGreaterEqualStrategyNumber (rowid chunk);
                   ScanKeyInit BTLessStrategyNumber (rowid chunk + chunk_size)]
                  t = false).
    { unfold keys_hold, key_holds. simpl. rewrite andb_true_r.
      destruct (Hgap t (or_introl eq_refl)) as [Hl | Hr].
      - apply andb_false_iff. left. rewrite Z.geb_leb. apply Z.leb_gt. lia.
      - apply andb_false_iff. right. apply Z.ltb_ge. lia. }
    rewrite K. apply IH. intros t' Ht'. apply Hgap. now right. }
  cbn [load_tuples].
  pose proof (no_match_getnext iscan ForwardScanDirection M) as G.
  destruct (index_getnext iscan ForwardScanDirection) as [sd1 tup].
  simpl in G. subst tup. cbn [bind].
  assert (Hn1 : 0 <= csidx < Z.of_nat (length (cs_nulls chunk1)))
    by (simpl; lia).
  destruct (list_set_some (cs_nulls chunk1) csidx
              (Some (repeat 255 (Z.to_nat (chunk_size / BITS_PER_BYTE)))) Hn1)
    as [ns Hns].
  unfold set_chunk_nulls. rewrite Hns. cbn [bind].
  eexists. split; [reflexivity|].
  intros index Hi. unfold loaded_value. cbn [cs_values cs_nulls].
  change (cs_values chunk1) with vs.
  rewrite (list_get_set_same _ _ _ _ Hvs). cbn [bind].
  rewrite (list_get_set_same _ _ _ _ Hns). cbn [bind].
  unfold chunk_fetch. rewrite all_ones_bit_is_set; [reflexivity|].
  unfold BITS_PER_BYTE.
  assert (0 <= chunk_size / 8) by (apply Z.div_pos; lia).
  rewrite Z2Nat.id by lia.
  pose proof (Z.div_mod chunk_size 8). lia.
Qed.

(** A chunk of sixteen rows at row 0 and a column store whose only
    tuple starts at the row 100. *)
Lemma empty_range_loads_as_null_witness :
  exists chunk',
    load_column_store 16 Sample.rows_100_to_109 Sample.empty_chunk 0
      = Some chunk' /\
    forall index, 0 <= index < 16 ->
      loaded_value chunk' 0 index = Some (0, true).
Proof.
  apply (empty_range_loads_as_null 16 Sample.rows_100_to_109
           Sample.empty_chunk 0).
  - lia.
  - reflexivity.
  - intros t [<- | []]. right. vm_compute. discriminate.
  - simpl. lia.
  - simpl. lia.
Defined.

(** C4 on the array {5, NULL} stored at the row 0.  Read row by row,
    the row 0 has the value 5.  Loaded with its chunk, the same row is
    null: the null bitmap of the array, in which a set bit marks a value
    that is present, is copied as it is (line 313) into the null map of
    the chunk, in which a set bit marks a null (lines 328 and 579).  The
    last two equations are the two scans from beginning to first row,
    whatever the number of times the iterator may go back to [retry:]. *)
Theorem eager_load_reads_present_value_as_null fuel :
  snd (pgstrom_scan_column_store (column_begin Sample.five_and_null) 0)
    = (5, false) /\
  (chunk' <- load_column_store 8 Sample.five_and_null
               (mkChunk 2 0 (mkVarBit 8 [1]) [None; None] [None; None]) 0 ;;
   loaded_value chunk' 0 0) = Some (0, true) /\
  iterate_n 8 1 (S fuel) 1
    (Sample.begin (Sample.catalog Sample.one_live_row Sample.five_and_null [])
                  Sample.lazy_query) Sample.slot0
    = Some [Some (0, [5; 0], [false; true])] /\
  iterate_n 8 1 (S fuel) 1
    (Sample.begin (Sample.catalog Sample.one_live_row Sample.five_and_null [])
                  Sample.eager_query) Sample.slot0
    = Some [Some (0, [0; 0], [true; true])].
Proof. repeat split; reflexivity. Qed.

(** C5 on a chunk of sixteen rows whose column store holds the rows 0..7
    only, the row 8 being the live row of the chunk.  The rows 8..15
    are a sub-range without stored rows, yet the eager load leaves the
    row 8 as the value 0, not null: the all-null map is written only
    when the scan of the whole range finds no tuple (line 323), and the
    part of the zeroed buffer that no array covers is not marked.  Read
    row by row, the same row is null.  The last two equations are the
    two scans from beginning to first row, the column loaded with the
    chunk and the column looked up. *)
Theorem partial_gap_reads_as_value_on_eager_path fuel :
  (chunk' <- load_column_store 16 Sample.first_half Sample.empty_chunk 0 ;;
   loaded_value chunk' 0 8) = Some (0, false) /\
  has_stored_row Sample.first_half 8 = false /\
  snd (pgstrom_scan_column_store (column_begin Sample.first_half) 8)
    = (0, true) /\
  iterate_n 16 1 (S fuel) 1
    (Sample.begin (Sample.catalog Case.row_8_live Sample.first_half [])
                  Sample.eager_query) Sample.slot0
    = Some [Some (8, [0; 0], [false; true])] /\
  iterate_n 16 1 (S fuel) 1
    (Sample.begin (Sample.catalog Case.row_8_live Sample.first_half [])
                  Sample.lazy_query) Sample.slot0
    = Some [Some (8, [0; 0], [true; true])].
Proof. repeat split; reflexivity. Qed.

(** ** What each function leaves untouched *)

Lemma scan_column_store_at_frame st csidx r slot st' slot' :
  pgstrom_scan_column_store_at st csidx r slot = Some (st', slot') ->
  plan_of st' = plan_of st /\ cursor_of st' = cursor_of st.
Proof.
  unfold pgstrom_scan_column_store_at. intros H.
  bind_case H. bind_case H.
  destruct (pgstrom_scan_column_store c r) as [cs' v].
  bind_case H. bind_case H. inv H. split; reflexivity.
Qed.

Lemma scan_column_frame chunk index r csidx st slot st' slot' :
  scan_column chunk index r csidx st slot = Some (st', slot') ->
  plan_of st' = plan_of st /\ cursor_of st' = cursor_of st.
Proof.
  unfold scan_column. intros H.
  destruct (negb (bms_is_member (csidx + 1) (required_cols st))).
  - bind_case H. inv H. split; reflexivity.
  - bind_case H. destruct o.
    + bind_case H. bind_case H. inv H. split; reflexivity.
    + eapply scan_column_store_at_frame; eauto.
Qed.

Lemma scan_columns_frame chunk index r : forall n csidx st slot st' slot',
  scan_columns n csidx chunk index r st slot = Some (st', slot') ->
  plan_of st' = plan_of st /\ cursor_of st' = cursor_of st.
Proof.
  induction n as [|n IH]; intros csidx st slot st' slot' H; simpl in H.
  - inv H. split; reflexivity.
  - bind_case H. destruct p as [st1 slot1].
    apply scan_column_frame in E. apply IH in H.
    destruct E, H. split; congruence.
Qed.

Lemma scan_bits_frame chunk : forall n index st slot st' slot' e,
  scan_bits n index chunk st slot = Some (st', slot', e) ->
  plan_of st' = plan_of st /\ cursor_of st' = cursor_of st.
Proof.
  induction n as [|n IH]; intros index st slot st' slot' e H; simpl in H.
  - inv H. split; reflexivity.
  - destruct (bit_is_set (VARBITS (rowmap chunk)) index).
    + bind_case H. destruct p as [st1 slot1]. inv H.
      eapply scan_columns_frame; eauto.
    + eapply IH; eauto.
Qed.

Lemma scan_chunk_buffer_frame st slot st' slot' e :
  pgstrom_scan_chunk_buffer st slot = Some (st', slot', e) ->
  plan_of st' = plan_of st /\ cursor_of st' = cursor_of st.
Proof.
  unfold pgstrom_scan_chunk_buffer. intros H.
  bind_case H. bind_case H. eapply scan_bits_frame; eauto.
Qed.

Lemma set_chunk_values_rowid chunk csidx v chunk' :
  set_chunk_values chunk csidx v = Some chunk' -> rowid chunk' = rowid chunk.
Proof. unfold set_chunk_values. intros H. bind_case H. now inv H. Qed.

Lemma set_chunk_nulls_rowid chunk csidx v chunk' :
  set_chunk_nulls chunk csidx v = Some chunk' -> rowid chunk' = rowid chunk.
Proof. unfold set_chunk_nulls. intros H. bind_case H. now inv H. Qed.

Lemma new_chunk_relset st1 st2 t :
  relset st1 = relset st2 -> new_chunk st1 t = new_chunk st2 t.
Proof. unfold new_chunk. intros ->. reflexivity. Qed.

Section Frames.

Variable chunk_size : Z.
Variable max_async : Z.

Lemma load_tuple_rowid chunk csidx t chunk' :
  load_tuple chunk_size chunk csidx t = Some chunk' ->
  rowid chunk' = rowid chunk.
Proof.
  unfold load_tuple. intros H.
  bind_case H. bind_case H.
  assert (R1 : rowid p = rowid chunk).
  { destruct (ARR_NULLBITMAP (cs_array t)), o;
      try (now inv E0); eapply set_chunk_nulls_rowid; eauto. }
  bind_case H. bind_case H. bind_case H.
  apply set_chunk_values_rowid in E3.
  destruct (ARR_NULLBITMAP (cs_array t)).
  - bind_case H. bind_case H. apply set_chunk_nulls_rowid in H. congruence.
  - inv H. congruence.
Qed.

Lemma load_tuples_rowid csidx : forall fuel iscan chunk found chunk' found',
  load_tuples chunk_size fuel iscan chunk csidx found = Some (chunk', found') ->
  rowid chunk' = rowid chunk.
Proof.
  induction fuel as [|fuel IH]; intros iscan chunk found chunk' found' H;
    simpl in H; [discriminate|].
  destruct (index_getnext iscan ForwardScanDirection) as [iscan1 [t|]].
  - bind_case H. apply load_tuple_rowid in E. apply IH in H. congruence.
  - now inv H.
Qed.

Lemma load_column_store_rowid rel chunk csidx chunk' :
  load_column_store chunk_size rel chunk csidx = Some chunk' ->
  rowid chunk' = rowid chunk.
Proof.
  unfold load_column_store. intros H.
  bind_case H. apply set_chunk_values_rowid in E.
  bind_case H. destruct p0 as [chunk2 found].
  apply load_tuples_rowid in E0.
  destruct found.
  - inv H. congruence.
  - apply set_chunk_nulls_rowid in H. congruence.
Qed.

Lemma load_clause_cols_rowid st : forall temp chunk chunk',
  load_clause_cols chunk_size st temp chunk = Some chunk' ->
  rowid chunk' = rowid chunk.
Proof.
  induction temp as [|a temp IH]; intros chunk chunk' H; simpl in H.
  - now inv H.
  - destruct (to_int16 a >? 0); [|now inv H].
    bind_case H. apply IH in H. unfold pgstrom_load_column_store in E.
    bind_case E. bind_case E. bind_case E.
    apply load_column_store_rowid in E. congruence.
Qed.

(** Loading appends chunks to the ready list and moves the rowid scan;
    it writes nothing else. *)
Lemma load_chunks_frame : forall n st loaded st' loaded',
  load_chunks chunk_size n st loaded = Some (st', loaded') ->
  plan_of st' = plan_of st /\
  cs_cols st' = cs_cols st /\
  curr_chunk st' = curr_chunk st /\ curr_index st' = curr_index st /\
  rs_rel (ri_scan st') = rs_rel (ri_scan st) /\
  (length (chunk_ready_list st) <= length (chunk_ready_list st'))%nat /\
  (n = O -> st' = st /\ loaded' = loaded).
Proof.
  induction n as [|n IH]; intros st loaded st' loaded' H; simpl in H.
  - inv H. repeat split; auto; lia.
  - unfold heap_getnext in H.
    destruct (rs_rest (ri_scan st)) as [|t rest] eqn:R.
    + inv H. simpl. repeat split; auto; try lia; try discriminate.
    + cbn [set_ri_scan predictable clause_cols chunk_ready_list] in H.
      destruct (predictable st =? 0).
      * bind_case H. apply IH in H.
        destruct H as (P & C & CC & CI & RR & LE & _).
        simpl in *. rewrite length_app in LE. simpl in LE.
        repeat split; auto; try lia; try discriminate.
      * apply IH in H.
        destruct H as (P & C & CC & CI & RR & LE & _).
        simpl in *. rewrite length_app in LE. simpl in LE.
        repeat split; auto; try lia; try discriminate.
Qed.

Lemma iterate_retry_frame : forall fuel st slot st' slot' e,
  iterate_retry chunk_size max_async fuel st slot
    = Some (Returns st' slot' e) ->
  plan_of st' = plan_of st /\ rs_rel (ri_scan st') = rs_rel (ri_scan st).
Proof.
  induction fuel as [|fuel IH]; intros st slot st' slot' e H; simpl in H;
    [discriminate|].
  bind_case H. destruct p as [[st1 slot1] emitted].
  apply scan_chunk_buffer_frame in E. destruct E as [P1 C1].
  assert (R1 : ri_scan st1 = ri_scan st)
    by (unfold cursor_of in C1; congruence).
  destruct emitted as [r|].
  - inv H. split; congruence.
  - bind_case H. destruct p as [st2 n].
    apply load_chunks_frame in E.
    destruct E as (P2 & _ & _ & _ & R2 & _).
    bind_case H.
    destruct (length (chunk_ready_list st2) <=? S n0)%nat.
    + destruct (chunk_exec_list st2), (chunk_exec_pending_list st2); inv H.
      split; congruence.
    + apply IH in H. destruct H as [P3 R3].
      unfold plan_of in *. simpl in *. split; congruence.
Qed.

Lemma iterate_frame fuel st slot st' slot' e :
  pgstrom_iterate_foreign_scan chunk_size max_async fuel st slot
    = Some (Returns st' slot' e) ->
  plan_of st' = plan_of st /\ rs_rel (ri_scan st') = rs_rel (ri_scan st).
Proof.
  unfold pgstrom_iterate_foreign_scan. intros H.
  destruct (predictable st <? 0); [inv H; auto|].
  destruct (curr_chunk st).
  - eapply iterate_retry_frame; eauto.
  - bind_case H. destruct p as [st1 loaded].
    apply load_chunks_frame in E.
    destruct E as (P2 & _ & _ & _ & R2 & _).
    destruct (loaded =? 0).
    + inv H. auto.
    + apply iterate_retry_frame in H. destruct H as [P3 R3].
      unfold plan_of in *. simpl in *. split; congruence.
Qed.

Lemma begin_state cat base fdw_private cl_ok tr st :
  pgstrom_begin_foreign_scan cat base fdw_private cl_ok false
    = (tr, Begun st) ->
  chunk_exec_pending_list st = [] /\ chunk_exec_list st = [] /\
  chunk_ready_list st = [] /\ curr_chunk st = None /\
  ri_scan st = heap_beginscan (rd_ri_tuples (rowid_rel (relset st))).
Proof.
  unfold pgstrom_begin_foreign_scan. intros H.
  destruct (pgstrom_init_exec_state fdw_private cl_ok)
    as [e|[info program]]; [inv H|].
  destruct (pgstrom_open_relation_set cat base true []) as [tr1 [e|rs]];
    [inv H|].
  destruct (begin_column_scans _ _ _ _); inv H. simpl. auto.
Qed.

(** In every state of a scan the pending and the executing list are
    empty, and the rowid scan is a scan of the rowid relation. *)
Lemma reachable_lists st :
  reachable chunk_size max_async st ->
  chunk_exec_pending_list st = [] /\ chunk_exec_list st = [] /\
  rs_rel (ri_scan st) = rd_ri_tuples (rowid_rel (relset st)).
Proof.
  induction 1 as [cat base fdw cl tr st H | fuel st slot st' slot' e Hr IH H].
  - apply begin_state in H. destruct H as (P & X & R & _ & S).
    rewrite S. simpl. auto.
  - apply iterate_frame in H. destruct H as [P R].
    destruct IH as (I1 & I2 & I3).
    unfold plan_of in P. inv P. rewrite R. repeat split; congruence.
Qed.




(** In a predictable query the ready list holds the chunk of each tuple
    the rowid scan has returned, in the order of the fetches. *)
Lemma load_chunks_fetched : forall n st loaded st' loaded',
  predictable st <> 0 ->
  load_chunks chunk_size n st loaded = Some (st', loaded') ->
  chunk_ready_list st = map (new_chunk st) (rs_returned (ri_scan st)) ->
  chunk_ready_list st' = map (new_chunk st') (rs_returned (ri_scan st')).
Proof.
  induction n as [|n IH]; intros st loaded st' loaded' Hp H Hinv;
    simpl in H.
  - now inv H.
  - unfold heap_getnext in H.
    destruct (rs_rest (ri_scan st)) as [|t rest] eqn:R.
    + inv H. exact Hinv.
    + cbn [set_ri_scan predictable clause_cols chunk_ready_list] in H.
      destruct (predictable st =? 0) eqn:Ep;
        [apply Z.eqb_eq in Ep; contradiction|].
      apply IH in H; [exact H|exact Hp|].
      simpl. rewrite map_app, Hinv. reflexivity.
Qed.

Lemma iterate_retry_fetched : forall fuel st slot st' slot' e,
  predictable st <> 0 ->
  iterate_retry chunk_size max_async fuel st slot
    = Some (Returns st' slot' e) ->
  chunk_ready_list st = map (new_chunk st) (rs_returned (ri_scan st)) ->
  chunk_ready_list st' = map (new_chunk st') (rs_returned (ri_scan st')).
Proof.
  induction fuel as [|fuel IH]; intros st slot st' slot' e Hp H Hinv;
    simpl in H; [discriminate|].
  bind_case H. destruct p as [[st1 slot1] emitted].
  apply scan_chunk_buffer_frame in E. destruct E as [P1 C1].
  unfold plan_of in P1. unfold cursor_of in C1.
  assert (Hp1 : predictable st1 <> 0) by congruence.
  assert (H1 : chunk_ready_list st1
               = map (new_chunk st1) (rs_returned (ri_scan st1))).
  { replace (chunk_ready_list st1) with (chunk_ready_list st) by congruence.
    replace (ri_scan st1) with (ri_scan st) by congruence.
    rewrite Hinv. apply map_ext. intros t. apply new_chunk_relset.
    congruence. }
  destruct emitted as [r|].
  - now inv H.
  - bind_case H. destruct p as [st2 n].
    pose proof (load_chunks_frame _ _ _ _ _ E) as (P2 & _).
    apply load_chunks_fetched in E; [|exact Hp1|exact H1].
    bind_case H.
    destruct (length (chunk_ready_list st2) <=? S n0)%nat.
    + destruct (chunk_exec_list st2), (chunk_exec_pending_list st2); now inv H.
    + apply IH in H; [exact H| |exact E].
      simpl. unfold plan_of in P2. congruence.
Qed.

Lemma iterate_fetched fuel st slot st' slot' e :
  predictable st <> 0 ->
  pgstrom_iterate_foreign_scan chunk_size max_async fuel st slot
    = Some (Returns st' slot' e) ->
  chunk_ready_list st = map (new_chunk st) (rs_returned (ri_scan st)) ->
  chunk_ready_list st' = map (new_chunk st') (rs_returned (ri_scan st')).
Proof.
  unfold pgstrom_iterate_foreign_scan. intros Hp H Hinv.
  destruct (predictable st <? 0); [now inv H|].
  destruct (curr_chunk st).
  - eapply iterate_retry_fetched; eauto.
  - bind_case H. destruct p as [st1 loaded].
    pose proof (load_chunks_frame _ _ _ _ _ E) as (P1 & _).
    apply load_chunks_fetched in E; [|exact Hp|exact Hinv].
    destruct (loaded =? 0); [now inv H|].
    apply iterate_retry_fetched in H; [exact H| |exact E].
    simpl. unfold plan_of in P1. congruence.
Qed.

Lemma reachable_fetched st :
  reachable chunk_size max_async st ->
  predictable st <> 0 ->
  chunk_ready_list st = map (new_chunk st) (rs_returned (ri_scan st)).
Proof.
  induction 1 as [cat base fdw cl tr st H | fuel st slot st' slot' e Hr IH H];
    intros Hp.
  - apply begin_state in H. destruct H as (_ & _ & R & _ & S).
    rewrite R, S. reflexivity.
  - pose proof (iterate_frame _ _ _ _ _ _ H) as [P _].
    unfold plan_of in P.
    assert (Hp0 : predictable st <> 0) by congruence.
    eapply iterate_fetched; eauto.
Qed.

End Frames.

(** ** The three lists of chunks *)



(** C7, as stated, fails: in a predictable query the chunk of the first
    tuple of the rowid relation is on the ready list after the first
    call of the iterator, and it was on the pending or the executing
    list in no state before. *)
Lemma chunk_is_ready_without_pending_or_executing :
  ~ passes_through_pipeline
      (scan_states 8 1 1 1
         (Sample.begin (Sample.catalog Sample.two_live_rows [] [])
                       Sample.predictable_query)
         Sample.slot0).
Proof.
  intros H.
  destruct (H 1%nat _ _ eq_refl (or_introl eq_refl))
    as (i & j & si & sj & Hij & Hi & Hp & _).
  assert (i = O) by lia. subst i.
  vm_compute in Hi. inv Hi. exact Hp.
Qed.

(** C7, amended to what the code does by design, for a predictable
    query (lines 388-395): in every state of the scan the pending and
    the executing list are empty, and the ready list holds one chunk for
    each tuple that the rowid scan has returned, in the order of the
    fetches: a chunk enters the ready list when it is loaded, without a
    stay on the other two, and it stays there. *)
Theorem predictable_chunks_enter_ready_directly chunk_size max_async st :
  reachable chunk_size max_async st ->
  predictable st <> 0 ->
  chunk_exec_pending_list st = [] /\
  chunk_exec_list st = [] /\
  chunk_ready_list st = map (new_chunk st) (rs_returned (ri_scan st)).
Proof.
  intros Hr Hp.
  destruct (reachable_lists _ _ _ Hr) as (H1 & H2 & _).
  split; [exact H1|]. split; [exact H2|].
  exact (reachable_fetched _ _ _ Hr Hp).
Qed.

Lemma predictable_chunks_enter_ready_directly_witness :
  let st0 := Sample.begin (Sample.catalog Sample.two_live_rows [] [])
                          Sample.predictable_query in
  let st1 := Sample.returned_state
               (pgstrom_iterate_foreign_scan 8 1 1 st0 Sample.slot0) in
  map rowid (chunk_ready_list st1) = [0] /\
  chunk_exec_pending_list st1 = [] /\
  chunk_exec_list st1 = [] /\
  chunk_ready_list st1 = map (new_chunk st1) (rs_returned (ri_scan st1)).
Proof.
  split; [reflexivity|].
  apply (predictable_chunks_enter_ready_directly 8 1).
  - eapply reach_iterate with
      (fuel := 1%nat)
      (st := Sample.begin (Sample.catalog Sample.two_live_rows [] [])
                          Sample.predictable_query)
      (slot := Sample.slot0).
    + eapply reach_begin with
        (cat := Sample.catalog Sample.two_live_rows [] [])
        (base := Sample.base) (fdw_private := Sample.predictable_query)
        (cl_ok := true).
      reflexivity.
    + reflexivity.
  - vm_compute. discriminate.
Defined.

(** The planner's mark of a result that is known to be empty: a
    "predictable" entry whose value is not TRUE sets the field to -1. *)
Lemma empty_mark_sets_predictable v cl_ok :
  v <> TRUE ->
  pgstrom_init_exec_state [makeDefElem "predictable" (T_Integer v)] cl_ok
  = inr ({| pi_predictable := -1; pi_required_cols := [];
            pi_clause_cols := [] |}, false).
Proof.
  intros Hv. unfold pgstrom_init_exec_state. simpl.
  destruct (v =? TRUE) eqn:E; [apply Z.eqb_eq in E; contradiction|].
  reflexivity.
Qed.

(** C9: when the query is marked predictable and empty ([predictable]
    is negative), a call of the iterator, the first one included,
    returns the cleared slot, which is the end of the scan, and leaves
    the state as it was: the rowid scan has made no fetch and no index
    scan of a column has been called. *)
Theorem predictable_empty_ends_at_once chunk_size max_async fuel st slot :
  predictable st < 0 ->
  pgstrom_iterate_foreign_scan chunk_size max_async fuel st slot
    = Some (Returns st (ExecClearTuple slot) None) /\
  tts_isempty (ExecClearTuple slot) = true.
Proof.
  intros Hp. unfold pgstrom_iterate_foreign_scan.
  destruct (predictable st <? 0) eqn:E; [split; reflexivity|].
  apply Z.ltb_ge in E. lia.
Qed.

Lemma predictable_empty_ends_at_once_witness :
  let st0 := Sample.begin
               (Sample.catalog Sample.two_live_rows Sample.three_arrays [])
               Sample.empty_query in
  rs_fetches (ri_scan st0) = O /\
  pgstrom_iterate_foreign_scan 8 1 1 st0 Sample.slot0
    = Some (Returns st0 (ExecClearTuple Sample.slot0) None) /\
  tts_isempty (ExecClearTuple Sample.slot0) = true.
Proof.
  split; [reflexivity|].
  apply (predictable_empty_ends_at_once 8 1 1).
  vm_compute. reflexivity.
Defined.

(** ** The rows the iterator returns *)

Lemma slot_store_same slot csidx v slot' :
  slot_store slot csidx v = Some slot' -> slot_column slot' csidx = Some v.
Proof.
  unfold slot_store, slot_column. intros H.
  bind_case H. bind_case H. inv H. simpl.
  rewrite (list_get_set_same _ _ _ _ E), (list_get_set_same _ _ _ _ E0).
  simpl. now destruct v.
Qed.

Lemma slot_store_other slot csidx v slot' j :
  slot_store slot csidx v = Some slot' -> j <> csidx -> 0 <= j ->
  slot_column slot' j = slot_column slot j.
Proof.
  unfold slot_store, slot_column. intros H Hj H0.
  bind_case H. bind_case H. inv H. simpl.
  rewrite (list_get_set_other _ _ _ _ j E), (list_get_set_other _ _ _ _ j E0);
    auto.
Qed.

Lemma slot_store_lengths slot csidx v slot' :
  slot_store slot csidx v = Some slot' ->
  length (tts_values slot') = length (tts_values slot) /\
  length (tts_isnull slot') = length (tts_isnull slot).
Proof.
  unfold slot_store. intros H. bind_case H. bind_case H. inv H. simpl.
  split; eapply list_set_length; eauto.
Qed.

Lemma slot_store_transfer slot csidx v slot' slotB w :
  slot_store slot csidx v = Some slot' ->
  length (tts_values slotB) = length (tts_values slot) ->
  length (tts_isnull slotB) = length (tts_isnull slot) ->
  exists slotB', slot_store slotB csidx w = Some slotB'.
Proof.
  unfold slot_store. intros H L1 L2. bind_case H. bind_case H.
  destruct (list_set_transfer _ (tts_values slotB) _ _ (fst w) _ E L1)
    as [a ->].
  destruct (list_set_transfer _ (tts_isnull slotB) _ _ (snd w) _ E0 L2)
    as [b ->].
  simpl. eauto.
Qed.

(** The round of the column loop for [csidx] writes the entry [csidx] of
    the slot and no other. *)
Lemma scan_column_other chunk index r csidx st slot st' slot' j :
  scan_column chunk index r csidx st slot = Some (st', slot') ->
  j <> csidx -> 0 <= j -> slot_column slot' j = slot_column slot j.
Proof.
  unfold scan_column. intros H Hj H0.
  destruct (negb (bms_is_member (csidx + 1) (required_cols st))).
  - bind_case H. inv H. eapply slot_store_other; eauto.
  - bind_case H. destruct o.
    + bind_case H. bind_case H. inv H. eapply slot_store_other; eauto.
    + unfold pgstrom_scan_column_store_at in H.
      bind_case H. bind_case H.
      destruct (pgstrom_scan_column_store c r) as [cs' v].
      bind_case H. bind_case H. inv H. eapply slot_store_other; eauto.
Qed.

Lemma scan_columns_below chunk index r : forall n c0 st slot st' slot' j,
  scan_columns n c0 chunk index r st slot = Some (st', slot') ->
  0 <= j < c0 -> slot_column slot' j = slot_column slot j.
Proof.
  induction n as [|n IH]; intros c0 st slot st' slot' j H Hj; simpl in H.
  - now inv H.
  - bind_case H. destruct p as [st1 slot1].
    rewrite (IH _ _ _ _ _ j H) by lia.
    eapply scan_column_other; eauto; lia.
Qed.

Lemma scan_columns_unrequired chunk index r :
  forall n c0 st slot st' slot' csidx,
  scan_columns n c0 chunk index r st slot = Some (st', slot') ->
  0 <= c0 -> c0 <= csidx < c0 + Z.of_nat n ->
  bms_is_member (csidx + 1) (required_cols st) = false ->
  slot_column slot' csidx = Some (0, true).
Proof.
  induction n as [|n IH]; intros c0 st slot st' slot' csidx H H0 Hc Hm;
    simpl in H; [lia|].
  bind_case H. destruct p as [st1 slot1].
  destruct (Z.eq_dec csidx c0) as [->|Hne].
  - rewrite (scan_columns_below _ _ _ _ _ _ _ _ _ c0 H) by lia.
    unfold scan_column in E. rewrite Hm in E. simpl in E.
    bind_case E. inv E. eapply slot_store_same; eauto.
  - apply (IH _ _ _ _ _ csidx) in H; auto; try lia.
    apply scan_column_frame in E. destruct E as [P _].
    unfold plan_of in P. inv P. congruence.
Qed.

(** What a call of the bitmap loop that returns true has found: the
    first set bit of the row map at or after the index it began at, and
    the columns read for the row of that bit. *)
Lemma scan_bits_emits chunk : forall n index st slot st' slot' r,
  scan_bits n index chunk st slot = Some (st', slot', Some r) ->
  exists i slot1,
    index <= i < index + Z.of_nat n /\
    r = rowid chunk + i /\
    bit_is_set (VARBITS (rowmap chunk)) i = true /\
    (forall j, index <= j < i ->
       bit_is_set (VARBITS (rowmap chunk)) j = false) /\
    scan_columns (Z.to_nat (nattrs chunk)) 0 chunk i r st slot
      = Some (st', slot1) /\
    slot' = ExecStoreVirtualTuple slot1.
Proof.
  induction n as [|n IH]; intros index st slot st' slot' r H; simpl in H;
    [discriminate|].
  destruct (bit_is_set (VARBITS (rowmap chunk)) index) eqn:B.
  - bind_case H. destruct p as [st1 slot1]. inv H.
    exists index, slot1. repeat split; auto; try lia.
  - apply IH in H.
    destruct H as (i & slot1 & Hi & Hr & Hb & Hbefore & Hs & Hv).
    exists i, slot1. repeat split; auto; try lia.
    intros j Hj. destruct (Z.eq_dec j index) as [->|]; auto.
    apply Hbefore. lia.
Qed.

Lemma scan_bits_reaches chunk i r st slot st1 slot1 :
  forall n index,
  index <= i < index + Z.of_nat n ->
  bit_is_set (VARBITS (rowmap chunk)) i = true ->
  (forall j, index <= j < i ->
     bit_is_set (VARBITS (rowmap chunk)) j = false) ->
  r = rowid chunk + i ->
  scan_columns (Z.to_nat (nattrs chunk)) 0 chunk i r st slot
    = Some (st1, slot1) ->
  scan_bits n index chunk st slot
    = Some (st1, ExecStoreVirtualTuple slot1, Some r).
Proof.
  induction n as [|n IH]; intros index Hi Hb Hbefore Hr Hs; [lia|].
  simpl. destruct (Z.eq_dec index i) as [->|Hne].
  - rewrite Hb. subst r. rewrite Hs. reflexivity.
  - rewrite Hbefore by lia. apply IH; auto; try lia.
    intros j Hj. apply Hbefore. lia.
Qed.

Lemma scan_chunk_buffer_unrequired st slot st' slot' r cell chunk csidx :
  pgstrom_scan_chunk_buffer st slot = Some (st', slot', Some r) ->
  curr_chunk st = Some cell ->
  nth_error (chunk_ready_list st) cell = Some chunk ->
  0 <= csidx < nattrs chunk ->
  bms_is_member (csidx + 1) (required_cols st) = false ->
  slot_column slot' csidx = Some (0, true).
Proof.
  unfold pgstrom_scan_chunk_buffer. intros H Hc Hn Hi Hm.
  rewrite Hc in H. cbn [bind] in H. rewrite Hn in H. cbn [bind] in H.
  apply scan_bits_emits in H.
  destruct H as (i & slot1 & _ & _ & _ & _ & Hs & ->).
  apply (scan_columns_unrequired _ _ _ _ _ _ _ _ _ csidx) in Hs; auto; lia.
Qed.

Lemma scan_column_store_at_shape st csidx r slot st' slot' :
  pgstrom_scan_column_store_at st csidx r slot = Some (st', slot') ->
  shape st' slot' = shape st slot.
Proof.
  unfold pgstrom_scan_column_store_at, shape. intros H.
  bind_case H. bind_case H.
  destruct (pgstrom_scan_column_store c r) as [cs' v].
  bind_case H. bind_case H. inv H. simpl.
  apply slot_store_lengths in E2. destruct E2 as [-> ->].
  f_equal. f_equal. f_equal.
  unfold list_set in E1. unfold list_get in E.
  destruct (csidx <? 0); [discriminate|].
  apply (set_nth_map has_scan) in E1. simpl in E1.
  assert (G : nth_error (map has_scan (cs_cols st)) (Z.to_nat csidx)
              = Some true)
    by (rewrite nth_error_map, E; reflexivity).
  apply set_nth_id in G. congruence.
Qed.

Lemma scan_column_shape chunk index r csidx st slot st' slot' :
  scan_column chunk index r csidx st slot = Some (st', slot') ->
  shape st' slot' = shape st slot.
Proof.
  unfold scan_column. intros H.
  destruct (negb (bms_is_member (csidx + 1) (required_cols st))).
  - bind_case H. inv H. apply slot_store_lengths in E. destruct E.
    unfold shape. congruence.
  - bind_case H. destruct o.
    + bind_case H. bind_case H. inv H.
      apply slot_store_lengths in E1. destruct E1. unfold shape. congruence.
    + eapply scan_column_store_at_shape; eauto.
Qed.

Lemma scan_columns_shape chunk index r : forall n c0 st slot st' slot',
  scan_columns n c0 chunk index r st slot = Some (st', slot') ->
  shape st' slot' = shape st slot.
Proof.
  induction n as [|n IH]; intros c0 st slot st' slot' H; simpl in H.
  - now inv H.
  - bind_case H. destruct p as [st1 slot1].
    apply scan_column_shape in E. apply IH in H. congruence.
Qed.

(** Whether a round of the column loop is defined depends on the shape
    of the state and of the slot only. *)
Lemma scan_column_succeeds chunk index r csidx stA slotA stA' slotA' stB slotB :
  scan_column chunk index r csidx stA slotA = Some (stA', slotA') ->
  shape stB slotB = shape stA slotA ->
  exists stB' slotB',
    scan_column chunk index r csidx stB slotB = Some (stB', slotB').
Proof.
  unfold scan_column, shape. intros H S. inv S.
  rename H1 into Rq, H2 into Cs, H3 into Lv, H4 into Ln.
  rewrite Rq.
  destruct (negb (bms_is_member (csidx + 1) (required_cols stA))).
  - bind_case H.
    destruct (slot_store_transfer _ _ _ _ slotB (0, true) E Lv Ln) as [s ->].
    simpl. eauto.
  - bind_case H. destruct o.
    + bind_case H. bind_case H. cbn [bind].
      match goal with
      | |- context [slot_store slotB csidx ?w] =>
          destruct (slot_store_transfer _ _ _ _ slotB w E1 Lv Ln) as [s ->]
      end.
      simpl. eauto.
    + unfold pgstrom_scan_column_store_at in *.
      bind_case H. bind_case H.
      assert (G : list_get (map has_scan (cs_cols stB)) csidx = Some true).
      { rewrite Cs, list_get_map.
        match goal with
        | Hg : list_get (cs_cols stA) csidx = _ |- _ => rewrite Hg
        end.
        subst; reflexivity. }
      rewrite list_get_map in G.
      destruct (list_get (cs_cols stB) csidx) as [[cB|]|]; try discriminate.
      cbn [bind].
      destruct (pgstrom_scan_column_store c r) as [cs' v].
      destruct (pgstrom_scan_column_store cB r) as [csB' vB].
      bind_case H. bind_case H.
      assert (L : length (cs_cols stB) = length (cs_cols stA)).
      { rewrite <- (length_map has_scan (cs_cols stB)), Cs.
        apply length_map. }
      match goal with
      | Hset : list_set (cs_cols stA) _ _ = Some _ |- _ =>
          destruct (list_set_transfer _ (cs_cols stB) _ _ (Some csB') _ Hset L)
            as [a ->]
      end.
      cbn [bind].
      match goal with
      | Hst : slot_store slotA _ _ = Some _ |- _ =>
          destruct (slot_store_transfer _ _ _ _ slotB vB Hst Lv Ln) as [s ->]
      end.
      simpl. eauto.
Qed.

Lemma scan_columns_succeeds chunk index r :
  forall n c0 stA slotA stA' slotA' stB slotB,
  scan_columns n c0 chunk index r stA slotA = Some (stA', slotA') ->
  shape stB slotB = shape stA slotA ->
  exists stB' slotB',
    scan_columns n c0 chunk index r stB slotB = Some (stB', slotB').
Proof.
  induction n as [|n IH]; intros c0 stA slotA stA' slotA' stB slotB H S;
    simpl in *.
  - eauto.
  - bind_case H. destruct p as [stA1 slotA1].
    destruct (scan_column_succeeds _ _ _ _ _ _ _ _ stB slotB E S)
      as (stB1 & slotB1 & EB).
    rewrite EB. cbn [bind].
    eapply IH; eauto.
    apply scan_column_shape in E. apply scan_column_shape in EB. congruence.
Qed.

Section Rows.

Variable chunk_size : Z.
Variable max_async : Z.

Lemma iterate_retry_emits : forall fuel st slot st' slot' r,
  iterate_retry chunk_size max_async fuel st slot
    = Some (Returns st' slot' (Some r)) ->
  exists st0 slot0,
    pgstrom_scan_chunk_buffer st0 slot0 = Some (st', slot', Some r) /\
    plan_of st0 = plan_of st.
Proof.
  induction fuel as [|fuel IH]; intros st slot st' slot' r H; simpl in H;
    [discriminate|].
  destruct (pgstrom_scan_chunk_buffer st slot)
    as [[[st1 slot1] emitted]|] eqn:E; [cbn [bind] in H|discriminate].
  destruct emitted as [r1|].
  - inv H. eauto.
  - pose proof (scan_chunk_buffer_frame _ _ _ _ _ E) as [P1 _].
    bind_case H. destruct p as [st2 n].
    apply load_chunks_frame in E0. destruct E0 as (P2 & _).
    bind_case H.
    destruct (length (chunk_ready_list st2) <=? S n0)%nat.
    + destruct (chunk_exec_list st2), (chunk_exec_pending_list st2); inv H.
    + apply IH in H. destruct H as (st0 & slot0 & Hs & P0).
      exists st0, slot0. split; auto.
      unfold plan_of in *. simpl in *. congruence.
Qed.

(** A tuple the iterator returns was stored in the slot by a call of
    [pgstrom_scan_chunk_buffer]. *)
Lemma iterate_emits fuel st slot st' slot' r :
  pgstrom_iterate_foreign_scan chunk_size max_async fuel st slot
    = Some (Returns st' slot' (Some r)) ->
  exists st0 slot0,
    pgstrom_scan_chunk_buffer st0 slot0 = Some (st', slot', Some r) /\
    plan_of st0 = plan_of st.
Proof.
  unfold pgstrom_iterate_foreign_scan. intros H.
  destruct (predictable st <? 0); [inv H|].
  destruct (curr_chunk st).
  - eapply iterate_retry_emits; eauto.
  - bind_case H. destruct p as [st1 loaded].
    apply load_chunks_frame in E. destruct E as (P2 & _).
    destruct (loaded =? 0); [inv H|].
    apply iterate_retry_emits in H. destruct H as (st0 & slot0 & Hs & P0).
    exists st0, slot0. split; auto.
    unfold plan_of in *. simpl in *. congruence.
Qed.

(** In every tuple the iterator returns, each column that the column
    loop visits (it runs over [chunk->nattrs] columns) and whose number
    is not in [required_cols] is null with the value 0, whatever its
    column store holds. *)
Lemma unrequired_columns_are_null fuel st slot st' slot' r :
  pgstrom_iterate_foreign_scan chunk_size max_async fuel st slot
    = Some (Returns st' slot' (Some r)) ->
  exists cell chunk,
    curr_chunk st' = Some cell /\
    nth_error (chunk_ready_list st') cell = Some chunk /\
    forall csidx,
      0 <= csidx < nattrs chunk ->
      bms_is_member (csidx + 1) (required_cols st) = false ->
      slot_column slot' csidx = Some (0, true).
Proof.
  intros H. apply iterate_emits in H. destruct H as (st0 & slot0 & Hs & P0).
  pose proof (scan_chunk_buffer_frame _ _ _ _ _ Hs) as [P1 C1].
  pose proof Hs as Hs'. unfold pgstrom_scan_chunk_buffer in Hs'.
  destruct (curr_chunk st0) as [cell|] eqn:Ec;
    [cbn [bind] in Hs'|discriminate].
  destruct (nth_error (chunk_ready_list st0) cell) as [chunk|] eqn:En;
    [|discriminate].
  unfold cursor_of in C1. inv C1.
  exists cell, chunk. repeat split; try congruence.
  intros csidx Hi Hm.
  eapply scan_chunk_buffer_unrequired; eauto.
  unfold plan_of in P0. inv P0. congruence.
Qed.

(** The row of a tuple the iterator returns is a live row of the current
    chunk: its identifier is [chunk.rowid] plus the index of a set bit of
    the row map, the first one at or after [curr_index]. *)
Lemma returned_row_is_live fuel st slot st' slot' r :
  pgstrom_iterate_foreign_scan chunk_size max_async fuel st slot
    = Some (Returns st' slot' (Some r)) ->
  exists cell chunk i,
    curr_chunk st' = Some cell /\
    nth_error (chunk_ready_list st') cell = Some chunk /\
    curr_index st' <= i < VARBITLEN (rowmap chunk) /\
    r = rowid chunk + i /\
    bit_is_set (VARBITS (rowmap chunk)) i = true /\
    (forall j, curr_index st' <= j < i ->
       bit_is_set (VARBITS (rowmap chunk)) j = false).
Proof.
  intros H. apply iterate_emits in H. destruct H as (st0 & slot0 & Hs & _).
  pose proof (scan_chunk_buffer_frame _ _ _ _ _ Hs) as [_ C1].
  unfold pgstrom_scan_chunk_buffer in Hs.
  destruct (curr_chunk st0) as [cell|] eqn:Ec; [cbn [bind] in Hs|discriminate].
  destruct (nth_error (chunk_ready_list st0) cell) as [chunk|] eqn:En;
    [cbn [bind] in Hs|discriminate].
  apply scan_bits_emits in Hs.
  destruct Hs as (i & slot1 & Hi & Hr & Hb & Hbefore & _).
  unfold cursor_of in C1. inv C1.
  exists cell, chunk, i.
  repeat split; try congruence; try lia.
  intros j Hj. apply Hbefore. lia.
Qed.

(** The iterator does not move past a row it has returned
    ([curr_index] is read at line 546 and is written at no place but
    lines 824 and 868, where it is set to 0): the call after one that
    returned the row [r] returns the row [r] again. *)
Lemma returned_row_is_returned_again fuel st slot st' slot' r :
  pgstrom_iterate_foreign_scan chunk_size max_async fuel st slot
    = Some (Returns st' slot' (Some r)) ->
  exists st'' slot'',
    forall fuel',
      pgstrom_iterate_foreign_scan chunk_size max_async (S fuel') st' slot'
        = Some (Returns st'' slot'' (Some r)).
Proof.
  intros H.
  assert (Hp : (predictable st <? 0) = false).
  { unfold pgstrom_iterate_foreign_scan in H.
    destruct (predictable st <? 0); [inv H|reflexivity]. }
  apply iterate_emits in H. destruct H as (st0 & slot0 & Hs & P0).
  pose proof (scan_chunk_buffer_frame _ _ _ _ _ Hs) as [P1 C1].
  unfold pgstrom_scan_chunk_buffer in Hs.
  destruct (curr_chunk st0) as [cell|] eqn:Ec; [cbn [bind] in Hs|discriminate].
  destruct (nth_error (chunk_ready_list st0) cell) as [chunk|] eqn:En;
    [cbn [bind] in Hs|discriminate].
  apply scan_bits_emits in Hs.
  destruct Hs as (i & slot1 & Hi & Hr & Hb & Hbefore & Hcols & ->).
  unfold cursor_of in C1. inv C1.
  unfold plan_of in P0, P1. inv P0. inv P1.
  assert (S : shape st' (ExecClearTuple (ExecStoreVirtualTuple slot1))
              = shape st0 slot0).
  { apply scan_columns_shape in Hcols. unfold shape in *. simpl.
    exact Hcols. }
  destruct (scan_columns_succeeds _ _ _ _ _ _ _ _ _ _ _ Hcols S)
    as (st2 & slot2 & Hcols2).
  exists st2, (ExecStoreVirtualTuple slot2). intros fuel'.
  unfold pgstrom_iterate_foreign_scan.
  replace (predictable st') with (predictable st) by congruence.
  rewrite Hp.
  replace (curr_chunk st') with (Some cell) by congruence.
  cbn [iterate_retry].
  unfold pgstrom_scan_chunk_buffer.
  replace (curr_chunk st') with (Some cell) by congruence. cbn [bind].
  replace (chunk_ready_list st') with (chunk_ready_list st0) by congruence.
  rewrite En. cbn [bind].
  replace (curr_index st') with (curr_index st0) by congruence.
  rewrite (scan_bits_reaches chunk i (rowid chunk + i) _ _ st2 slot2); auto.
Qed.

End Rows.

Lemma unrequired_columns_are_null_witness :
  let st0 := Sample.begin
               (Sample.catalog Sample.one_live_row Sample.five_and_null
                               Sample.rows_100_to_109)
               Sample.lazy_query in
  let res := pgstrom_iterate_foreign_scan 8 1 1 st0 Sample.slot0 in
  exists cell chunk,
    curr_chunk (Sample.returned_state res) = Some cell /\
    nth_error (chunk_ready_list (Sample.returned_state res)) cell
      = Some chunk /\
    forall csidx,
      0 <= csidx < nattrs chunk ->
      bms_is_member (csidx + 1) (required_cols st0) = false ->
      slot_column (Sample.returned_slot res) csidx = Some (0, true).
Proof.
  apply (unrequired_columns_are_null 8 1 1
           (Sample.begin
              (Sample.catalog Sample.one_live_row Sample.five_and_null
                              Sample.rows_100_to_109)
              Sample.lazy_query)
           Sample.slot0 _ _ 0).
  reflexivity.
Defined.

(** C10 on a table of three columns, in a query that requires none of
    them, with a slot that holds the value 7 in each column: the first
    row is returned with the columns 1 and 2 null and the column 3 as
    the slot had it, the value 7 and not null.  The column loop runs
    over [chunk->nattrs] columns (line 559), which line 359 takes from
    the tuple descriptor of the rowid relation, two attributes, and not
    from the base table. *)
Theorem column_beyond_rowid_relation_is_not_null fuel :
  let st0 := Case.begin3 (Case.catalog3 Sample.one_live_row)
                         Sample.predictable_query in
  required_cols st0 = [] /\
  length (base_attrs (base_rel (relset st0))) = 3%nat /\
  iterate_n 8 1 (S fuel) 1 st0 Case.slot3
    = Some [Some (0, [0; 0; 7], [true; true; false])].
Proof. repeat split; reflexivity. Qed.

(** C1 on a chunk at row 0 whose rows 0 and 1 are live, in a predictable
    query that returns no column: the rows to return are 0 and 1, once
    each, and then the end of the scan.  Every call returns the row 0;
    the row 1 is not returned, whatever the number of times a call may
    go back to [retry:].  [pgstrom_scan_chunk_buffer] begins each time
    at [curr_index], which it never advances. *)
Theorem first_live_row_is_returned_by_every_call fuel :
  let st0 := Sample.begin (Sample.catalog Sample.two_live_rows [] [])
                          Sample.predictable_query in
  option_map (map (option_map (fun row => fst (fst row))))
             (iterate_n 8 1 (S fuel) 4 st0 Sample.slot0)
  = Some [Some 0; Some 0; Some 0; Some 0].
Proof. reflexivity. Qed.

(** ** The bounds of the loops *)

(** The tuples a forward scan has not returned yet. *)
Lemma load_tuples_fuel chunk_size csidx : forall fuel iscan chunk found,
  (match xs_pos iscan with
   | BeforeFirst => length (scan_matches iscan)
   | OnItem i => length (scan_matches iscan) - S i
   | RanOff => O
   end < fuel)%nat ->
  load_tuples chunk_size (S fuel) iscan chunk csidx found
  = load_tuples chunk_size fuel iscan chunk csidx found.
Proof.
  induction fuel as [|fuel IH]; intros iscan chunk found Hm; [lia|].
  cbn [load_tuples].
  unfold index_getnext.
  destruct (next_position iscan ForwardScanDirection) as [k|] eqn:Ek;
    [|reflexivity].
  destruct (nth_error (scan_matches iscan) k) as [t|] eqn:Et; [|reflexivity].
  destruct (load_tuple chunk_size chunk csidx t) as [chunk1|]; [|reflexivity].
  cbn [bind].
  set (sd := {| xs_rel := xs_rel iscan; xs_keys := xs_keys iscan;
                xs_pos := OnItem k;
                xs_calls := xs_calls iscan ++ [CallGetNext ForwardScanDirection]
             |}).
  change (load_tuples chunk_size (S fuel) sd chunk1 csidx true
          = load_tuples chunk_size fuel sd chunk1 csidx true).
  apply IH.
  assert (Hk : (k < length (scan_matches iscan))%nat)
    by (apply nth_error_Some; congruence).
  change (scan_matches sd) with (scan_matches iscan).
  change (xs_pos sd) with (OnItem k). cbv beta iota.
  unfold next_position in Ek.
  destruct (xs_pos iscan) as [|[|i]|]; inv Ek; lia.
Qed.

(** The fuel [pgstrom_load_column_store] gives to the loop over the
    tuples of the range is never used up: more of it changes nothing. *)
Lemma load_tuples_fuel_suffices chunk_size csidx rel keys chunk found k :
  load_tuples chunk_size (S (length rel) + k)
    (index_rescan (index_beginscan rel) keys) chunk csidx found
  = load_tuples chunk_size (S (length rel))
      (index_rescan (index_beginscan rel) keys) chunk csidx found.
Proof.
  induction k as [|k IH].
  - now rewrite Nat.add_0_r.
  - rewrite <- IH. replace (S (length rel) + S k)%nat
      with (S (S (length rel) + k)) by lia.
    apply load_tuples_fuel. simpl.
    unfold scan_matches. simpl.
    pose proof (filter_length_le (keys_hold keys) rel). lia.
Qed.

(** The answer of the iterator, when it has one, does not depend on the
    number of rounds of [retry:] it is allowed: more rounds give the
    same answer, and an undefined access stays one. *)
Lemma iterate_retry_more_fuel chunk_size max_async :
  forall fuel st slot res,
    iterate_retry chunk_size max_async fuel st slot = res ->
    res <> Some OutOfFuel ->
    iterate_retry chunk_size max_async (S fuel) st slot = res.
Proof.
  induction fuel as [|fuel IH]; intros st slot res H Hn.
  - simpl in H. congruence.
  - cbn [iterate_retry] in *.
    destruct (pgstrom_scan_chunk_buffer st slot)
      as [[[st1 slot1] emitted]|]; [cbn [bind] in *|exact H].
    destruct emitted as [r|]; [exact H|].
    destruct (pgstrom_load_chunk_buffer chunk_size st1 _)
      as [[st2 n]|]; [cbn [bind] in *|exact H].
    destruct (curr_chunk st2) as [cell|]; [cbn [bind] in *|exact H].
    destruct (length (chunk_ready_list st2) <=? S cell)%nat; [exact H|].
    apply IH; assumption.
Qed.

Lemma iterate_retry_fuel_mono chunk_size max_async fuel fuel' st slot res :
  iterate_retry chunk_size max_async fuel st slot = res ->
  res <> Some OutOfFuel ->
  (fuel <= fuel')%nat ->
  iterate_retry chunk_size max_async fuel' st slot = res.
Proof.
  intros H Hn Hle. induction Hle as [|m Hle IH]; [exact H|].
  apply iterate_retry_more_fuel; assumption.
Qed.

Lemma iterate_fuel_mono chunk_size max_async fuel fuel' st slot res :
  pgstrom_iterate_foreign_scan chunk_size max_async fuel st slot = res ->
  res <> Some OutOfFuel ->
  (fuel <= fuel')%nat ->
  pgstrom_iterate_foreign_scan chunk_size max_async fuel' st slot = res.
Proof.
  unfold pgstrom_iterate_foreign_scan. intros H Hn Hle.
  destruct (predictable st <? 0); [exact H|].
  destruct (curr_chunk st).
  - eapply iterate_retry_fuel_mono; eauto.
  - destruct (pgstrom_load_chunk_buffer chunk_size st _) as [[st1 loaded]|];
      [cbn [bind] in *|exact H].
    destruct (loaded =? 0); [exact H|].
    eapply iterate_retry_fuel_mono; eauto.
Qed.

(** ** More on the relation set *)

Lemma open_as_only_opens cat name kind err tr tr' res :
  open_as cat name kind err tr = (tr', res) ->
  exists l, tr' = tr ++ map Opened l.
Proof.
  unfold open_as, obind, relation_openrv, oret, ofail.
  destruct (cat name) as [r0|].
  - destruct (relkind_eqb (rd_relkind r0) kind); intros H; inv H;
      exists [r0]; reflexivity.
  - intros H; inv H. exists []. simpl. now rewrite app_nil_r.
Qed.

Lemma open_column_only_opens cat wi i attr tr tr' res :
  open_column cat wi i attr tr = (tr', res) ->
  exists l, tr' = tr ++ map Opened l.
Proof.
  unfold open_column. destruct (attisdropped attr).
  - unfold oret. intros H; inv H. exists []. simpl. now rewrite app_nil_r.
  - unfold obind at 1.
    destruct (open_as cat (NameCs i) RELKIND_RELATION _ tr)
      as [tr1 [e|rel]] eqn:E1.
    + intros H; inv H. eapply open_as_only_opens; eauto.
    + apply open_as_only_opens in E1. destruct E1 as [l1 ->].
      destruct wi.
      * unfold obind.
        destruct (open_as cat (NameCsIdx i) RELKIND_INDEX _ _)
          as [tr2 [e|idx]] eqn:E2;
          apply open_as_only_opens in E2; destruct E2 as [l2 ->];
          unfold oret; intros H; inv H; exists (l1 ++ l2);
          now rewrite map_app, app_assoc.
      * unfold oret. intros H; inv H. eauto.
Qed.

Lemma open_columns_only_opens cat wi attrs : forall i tr tr' res,
  open_columns cat wi i attrs tr = (tr', res) ->
  exists l, tr' = tr ++ map Opened l.
Proof.
  induction attrs as [|attr rest IH]; intros i tr tr' res; simpl.
  - unfold oret. intros H; inv H. exists []. simpl. now rewrite app_nil_r.
  - unfold obind at 1.
    destruct (open_column cat wi i attr tr) as [tr1 [e|c]] eqn:E1.
    + intros H; inv H. eapply open_column_only_opens; eauto.
    + apply open_column_only_opens in E1. destruct E1 as [l1 ->].
      unfold obind at 1.
      destruct (open_columns cat wi (S i) rest _) as [tr2 [e|cs]] eqn:E2;
        apply IH in E2; destruct E2 as [l2 ->];
        unfold oret; intros H; inv H; exists (l1 ++ l2);
        now rewrite map_app, app_assoc.
Qed.

(** X1: whatever the outcome, [pgstrom_open_relation_set] only adds
    handles to the trace: when it fails on a companion object of the
    wrong kind or on a missing one, the handles it has opened so far are
    left open, none is closed before the error is raised. *)
Theorem open_never_closes cat base with_index tr tr' res :
  pgstrom_open_relation_set cat base with_index tr = (tr', res) ->
  exists l, tr' = tr ++ map Opened l.
Proof.
  unfold pgstrom_open_relation_set.
  assert (Nil : exists l : list Relation, tr = tr ++ map Opened l)
    by (exists []; simpl; now rewrite app_nil_r).
  destruct (negb (relkind_eqb (base_relkind base) RELKIND_FOREIGN_TABLE));
    [unfold ofail; intros H; inv H; exact Nil|].
  destruct (negb (base_is_pgstrom base));
    [unfold ofail; intros H; inv H; exact Nil|].
  unfold obind at 1.
  destruct (open_as cat NameRowid _ _ tr) as [tr1 [e|rrel]] eqn:E1.
  { intros H; inv H. eapply open_as_only_opens; eauto. }
  apply open_as_only_opens in E1. destruct E1 as [l1 ->].
  unfold obind at 1.
  match goal with
  | |- context [(if with_index then ?a else ?b) ?t] =>
      destruct ((if with_index then a else b) t) as [tr2 [e|ridx]] eqn:E2
  end.
  { intros H; inv H. destruct with_index; [|unfold oret in E2; inv E2].
    unfold obind in E2.
    destruct (open_as cat NameRowidIdx _ _ _) as [tr3 [e'|r]] eqn:E3;
      [|unfold oret in E2; inv E2].
    inv E2. apply open_as_only_opens in E3. destruct E3 as [l2 ->].
    exists (l1 ++ l2). now rewrite map_app, app_assoc. }
  assert (T2 : exists l2, tr2 = tr ++ map Opened l2).
  { destruct with_index.
    - unfold obind in E2.
      destruct (open_as cat NameRowidIdx _ _ _) as [tr3 [e'|r]] eqn:E3;
        [discriminate|].
      unfold oret in E2. inv E2.
      apply open_as_only_opens in E3. destruct E3 as [l2 ->].
      exists (l1 ++ l2). now rewrite map_app, app_assoc.
    - unfold oret in E2. inv E2. eauto. }
  destruct T2 as [l2 ->]. clear E2.
  unfold obind at 1.
  destruct (open_columns cat with_index 0 (base_attrs base) _)
    as [tr3 [e|cols]] eqn:E3;
    apply open_columns_only_opens in E3; destruct E3 as [l3 ->].
  - intros H; inv H. exists (l2 ++ l3). now rewrite map_app, app_assoc.
  - destruct (cat NameSeq); intros H; inv H;
      exists (l2 ++ l3); now rewrite map_app, app_assoc.
Qed.

Lemma relkind_eqb_eq a b : relkind_eqb a b = true <-> a = b.
Proof. destruct a, b; simpl; split; intros H; try reflexivity; discriminate. Qed.

Lemma open_as_inr cat name kind err tr tr' r :
  open_as cat name kind err tr = (tr', inr r) <->
  cat name = Some r /\ rd_relkind r = kind /\ tr' = tr ++ [Opened r].
Proof.
  unfold open_as, obind, relation_openrv, oret, ofail. split.
  - destruct (cat name) as [r0|]; [|discriminate].
    destruct (relkind_eqb (rd_relkind r0) kind) eqn:K; intros H; inv H.
    apply relkind_eqb_eq in K. auto.
  - intros (-> & K & ->). apply relkind_eqb_eq in K. now rewrite K.
Qed.

Lemma open_column_inr cat wi i attr tr tr' c :
  open_column cat wi i attr tr = (tr', inr c) ->
  c = (if attisdropped attr then None else cat (NameCs i),
       if attisdropped attr || negb wi then None else cat (NameCsIdx i)) /\
  (attisdropped attr = false ->
     has_kind cat (NameCs i) RELKIND_RELATION /\
     (wi = true -> has_kind cat (NameCsIdx i) RELKIND_INDEX)).
Proof.
  unfold open_column. destruct (attisdropped attr).
  - unfold oret. intros H; inv H. split; [reflexivity|discriminate].
  - unfold obind at 1.
    destruct (open_as cat (NameCs i) RELKIND_RELATION _ tr)
      as [tr1 [e|rel]] eqn:E1; [discriminate|].
    apply open_as_inr in E1. destruct E1 as (C1 & K1 & ->).
    destruct wi.
    + unfold obind.
      destruct (open_as cat (NameCsIdx i) RELKIND_INDEX _ _)
        as [tr2 [e|idx]] eqn:E2; [discriminate|].
      apply open_as_inr in E2. destruct E2 as (C2 & K2 & ->).
      unfold oret. intros H; inv H. simpl. rewrite C1, C2.
      split; [reflexivity|]. intros _. split; [|intros _]; eexists; eauto.
    + unfold oret. intros H; inv H. simpl. rewrite C1.
      split; [reflexivity|]. intros _. split; [eexists; eauto|discriminate].
Qed.

Lemma open_columns_inr cat wi attrs : forall i tr tr' cols,
  open_columns cat wi i attrs tr = (tr', inr cols) ->
  forall k attr, nth_error attrs k = Some attr ->
    nth_error (fst cols) k
      = Some (if attisdropped attr then None else cat (NameCs (i + k))) /\
    nth_error (snd cols) k
      = Some (if attisdropped attr || negb wi then None
              else cat (NameCsIdx (i + k))) /\
    (attisdropped attr = false ->
       has_kind cat (NameCs (i + k)) RELKIND_RELATION /\
       (wi = true -> has_kind cat (NameCsIdx (i + k)) RELKIND_INDEX)).
Proof.
  induction attrs as [|a rest IH]; intros i tr tr' cols H k attr Hk.
  - destruct k; discriminate.
  - simpl in H. unfold obind at 1 in H.
    destruct (open_column cat wi i a tr) as [tr1 [e|c]] eqn:E1;
      [discriminate|].
    apply open_column_inr in E1. destruct E1 as [-> K1].
    unfold obind at 1 in H.
    destruct (open_columns cat wi (S i) rest _) as [tr2 [e|cs]] eqn:E2;
      [discriminate|].
    unfold oret in H. inv H.
    destruct k as [|k]; simpl in Hk.
    + inv Hk. rewrite Nat.add_0_r. simpl. auto.
    + replace (i + S k)%nat with (S i + k)%nat by lia.
      cbn [fst snd nth_error].
      exact (IH (S i) _ _ _ E2 k attr Hk).
Qed.

(** X2: the relation set that a successful open returns.  Its two arrays
    have one entry for each attribute of the base table; the entries of
    a dropped attribute are NULL; those of another attribute are the
    column store and, when indexes are asked for, its index, as the
    catalog has them. *)
Theorem open_result_per_attribute cat base with_index tr tr' rs :
  pgstrom_open_relation_set cat base with_index tr = (tr', inr rs) ->
  base_rel rs = base /\
  cat NameRowid = Some (rowid_rel rs) /\
  rowid_idx rs = (if with_index then cat NameRowidIdx else None) /\
  length (cs_rel rs) = length (base_attrs base) /\
  length (cs_idx rs) = length (base_attrs base) /\
  forall i attr, nth_error (base_attrs base) i = Some attr ->
    nth_error (cs_rel rs) i
      = Some (if attisdropped attr then None else cat (NameCs i)) /\
    nth_error (cs_idx rs) i
      = Some (if attisdropped attr || negb with_index then None
              else cat (NameCsIdx i)).
Proof.
  unfold pgstrom_open_relation_set.
  destruct (negb (relkind_eqb (base_relkind base) RELKIND_FOREIGN_TABLE));
    [discriminate|].
  destruct (negb (base_is_pgstrom base)); [discriminate|].
  unfold obind at 1.
  destruct (open_as cat NameRowid _ _ tr) as [tr1 [e|rrel]] eqn:E1;
    [discriminate|].
  apply open_as_inr in E1. destruct E1 as (C1 & K1 & ->).
  unfold obind at 1.
  match goal with
  | |- context [(if with_index then ?a else ?b) ?t] =>
      destruct ((if with_index then a else b) t) as [tr2 [e|ridx]] eqn:E2;
        [discriminate|]
  end.
  assert (R2 : ridx = if with_index then cat NameRowidIdx else None).
  { destruct with_index.
    - unfold obind in E2.
      destruct (open_as cat NameRowidIdx _ _ _) as [tr3 [e|r]] eqn:E3;
        [discriminate|].
      apply open_as_inr in E3. destruct E3 as (C3 & _).
      unfold oret in E2. inv E2. auto.
    - unfold oret in E2. inv E2. reflexivity. }
  clear E2.
  unfold obind at 1.
  destruct (open_columns cat with_index 0 (base_attrs base) _)
    as [tr3 [e|cols]] eqn:E3; [discriminate|].
  pose proof (open_columns_trace _ _ _ _ _ _ _ E3) as (L1 & L2 & _).
  pose proof (open_columns_inr _ _ _ _ _ _ _ E3) as Hcols.
  destruct (cat NameSeq); [|discriminate].
  intros H; inv H. simpl.
  repeat split; auto.
  all: destruct (Hcols i attr H) as (A & B & _); simpl in A, B; auto.
Qed.

(** X3: [pgstrom_open_relation_set] returns a relation set exactly when
    the base table is a foreign table of pg_strom, the rowid relation,
    the column store of every attribute that is not dropped and the
    indexes (when asked for) are in the catalog, each with the kind the
    code checks for, and the sequence has an entry in the catalog (line
    139 looks its name up and checks no kind); in every other case it
    raises an error. *)
Theorem open_succeeds_iff cat base with_index tr :
  (exists tr' rs,
     pgstrom_open_relation_set cat base with_index tr = (tr', inr rs))
  <-> companions_ok cat base with_index.
Proof.
  split.
  - intros (tr' & rs & H). unfold pgstrom_open_relation_set in H.
    destruct (relkind_eqb (base_relkind base) RELKIND_FOREIGN_TABLE) eqn:B1;
      [simpl in H|discriminate].
    apply relkind_eqb_eq in B1.
    destruct (base_is_pgstrom base) eqn:B2; [simpl in H|discriminate].
    unfold obind at 1 in H.
    destruct (open_as cat NameRowid _ _ tr) as [tr1 [e|rrel]] eqn:E1;
      [discriminate|].
    apply open_as_inr in E1. destruct E1 as (C1 & K1 & ->).
    unfold obind at 1 in H.
    match type of H with
    | context [(if with_index then ?a else ?b) ?t] =>
        destruct ((if with_index then a else b) t) as [tr2 [e|ridx]] eqn:E2;
          [discriminate|]
    end.
    unfold obind at 1 in H.
    destruct (open_columns cat with_index 0 (base_attrs base) _)
      as [tr3 [e|cols]] eqn:E3; [discriminate|].
    pose proof (open_columns_inr _ _ _ _ _ _ _ E3) as Hcols.
    destruct (cat NameSeq) eqn:Sq; [|discriminate].
    unfold companions_ok. repeat split; auto.
    + eexists; eauto.
    + intros ->. unfold obind in E2.
      destruct (open_as cat NameRowidIdx _ _ _) as [tr4 [e|rx]] eqn:E4;
        [discriminate|].
      apply open_as_inr in E4. destruct E4 as (C4 & K4 & _). eexists; eauto.
    + destruct (Hcols i attr H0) as (_ & _ & K). simpl in K. apply K; auto.
    + destruct (Hcols i attr H0) as (_ & _ & K). simpl in K. apply K; auto.
    + congruence.
  - intros (B1 & B2 & (rrel & C1 & K1) & Hidx & Hcols & Sq).
    unfold pgstrom_open_relation_set.
    rewrite B1, B2. simpl.
    unfold obind at 1.
    rewrite (proj2 (open_as_inr cat NameRowid RELKIND_RELATION
                      (NotRegularTable NameRowid) tr _ rrel)
               (conj C1 (conj K1 eq_refl))).
    unfold obind at 1.
    assert (E2 : exists tr2 ridx,
      (if with_index
       then obind (open_as cat NameRowidIdx RELKIND_INDEX (NotIndex NameRowidIdx))
                  (fun r => oret (Some r))
       else oret None) (tr ++ [Opened rrel]) = (tr2, inr ridx)).
    { destruct with_index.
      - destruct (Hidx eq_refl) as (r & C & K).
        unfold obind.
        rewrite (proj2 (open_as_inr cat NameRowidIdx RELKIND_INDEX
                          (NotIndex NameRowidIdx) _ _ r)
                   (conj C (conj K eq_refl))).
        unfold oret. eauto.
      - unfold oret. eauto. }
    destruct E2 as (tr2 & ridx & ->).
    unfold obind at 1.
    assert (E3 : forall attrs i tr0,
      (forall k attr, nth_error attrs k = Some attr ->
         attisdropped attr = false ->
         has_kind cat (NameCs (i + k)) RELKIND_RELATION /\
         (with_index = true -> has_kind cat (NameCsIdx (i + k)) RELKIND_INDEX)) ->
      exists tr3 cols, open_columns cat with_index i attrs tr0 = (tr3, inr cols)).
    { clear. induction attrs as [|a rest IH]; intros i tr0 Hc; simpl.
      - unfold oret. eauto.
      - assert (E1 : exists tr1 c, open_column cat with_index i a tr0 = (tr1, inr c)).
        { unfold open_column. destruct (attisdropped a) eqn:D.
          - unfold oret. eauto.
          - destruct (Hc O a eq_refl D) as ((r & C & K) & Hi).
            rewrite Nat.add_0_r in *.
            unfold obind at 1.
            rewrite (proj2 (open_as_inr cat (NameCs i) RELKIND_RELATION
                              (NotRegularTable (NameCs i)) tr0 _ r)
                       (conj C (conj K eq_refl))).
            destruct with_index.
            + destruct (Hi eq_refl) as (r' & C' & K').
              unfold obind.
              rewrite (proj2 (open_as_inr cat (NameCsIdx i) RELKIND_INDEX
                                (NotIndex (NameCsIdx i)) _ _ r')
                         (conj C' (conj K' eq_refl))).
              unfold oret. eauto.
            + unfold oret. eauto. }
        destruct E1 as (tr1 & c & E1). unfold obind at 1. rewrite E1.
        destruct (IH (S i) tr1) as (tr3 & cols & E).
        { intros k attr Hk Hd.
          replace (S i + k)%nat with (i + S k)%nat by lia.
          apply (Hc (S k) attr Hk Hd). }
        unfold obind. rewrite E. unfold oret. eauto. }
    destruct (E3 (base_attrs base) O tr2) as (tr3 & cols & ->).
    { intros k attr Hk Hd. simpl. apply (Hcols k attr Hk Hd). }
    destruct (cat NameSeq); [eauto|congruence].
Qed.

(** ** The plan information and the scans of the columns *)

Lemma to_int16_small z : - 2 ^ 15 <= z < 2 ^ 15 -> to_int16 z = z.
Proof.
  intros H. unfold to_int16.
  rewrite Z.mod_small; lia.
Qed.

Lemma attnums_small : forall s,
  Forall (fun a => 0 < a < 2 ^ 15) s -> attnums s = s.
Proof.
  induction s as [|a s IH]; intros H; [reflexivity|].
  inversion H as [|? ? Ha Hs]; subst. simpl.
  rewrite to_int16_small by lia.
  destruct (a >? 0) eqn:E; [now rewrite IH|].
  rewrite Z.gtb_ltb in E. apply Z.ltb_ge in E. lia.
Qed.

Lemma attnums_positive : forall s x, In x (attnums s) -> 0 < x < 2 ^ 15.
Proof.
  induction s as [|a s IH]; intros x H; simpl in H; [contradiction|].
  destruct (to_int16 a >? 0) eqn:E; [|contradiction].
  destruct H as [<-|H]; [|auto].
  rewrite Z.gtb_ltb in E. apply Z.ltb_lt in E.
  split; [exact E|]. unfold to_int16.
  pose proof (Z.mod_pos_bound (a + 2 ^ 15) (2 ^ 16)). lia.
Qed.

Lemma bms_is_member_insert a : forall x y,
  bms_is_member x (bms_insert a y) = (x =? y) || bms_is_member x a.
Proof.
  unfold bms_is_member.
  induction a as [|h t IH]; intros x y; simpl.
  - reflexivity.
  - destruct (y <? h); [reflexivity|].
    destruct (y =? h) eqn:E.
    + apply Z.eqb_eq in E. subst. simpl.
      destruct (x =? h); reflexivity.
    + simpl. rewrite IH.
      destruct (x =? h), (x =? y); reflexivity.
Qed.

Lemma bms_is_member_In x a : bms_is_member x a = true <-> In x a.
Proof.
  unfold bms_is_member. rewrite existsb_exists. split.
  - intros (y & Hy & E). apply Z.eqb_eq in E. now subst.
  - intros H. exists x. split; [exact H|apply Z.eqb_refl].
Qed.

Lemma bms_add_member_In a x y s :
  bms_add_member a y = Some s ->
  0 <= y /\ (In x s <-> x = y \/ In x a).
Proof.
  unfold bms_add_member. destruct (y <? 0) eqn:E; [discriminate|].
  intros H; inv H. apply Z.ltb_ge in E. split; [exact E|].
  rewrite <- !bms_is_member_In, bms_is_member_insert, orb_true_iff, Z.eqb_eq.
  reflexivity.
Qed.

Lemma plan_entries_cons name d l :
  plan_entries name (d :: l) =
  if String.eqb (defname d) name
  then intVal (arg d) :: plan_entries name l
  else plan_entries name l.
Proof.
  unfold plan_entries. simpl. destruct (String.eqb (defname d) name); reflexivity.
Qed.

Lemma plan_ints_cons name d l :
  plan_ints name (d :: l) =
  if String.eqb (defname d) name
  then to_int32 (intVal (arg d)) :: plan_ints name l
  else plan_ints name l.
Proof.
  unfold plan_ints. rewrite plan_entries_cons.
  destruct (String.eqb (defname d) name); reflexivity.
Qed.

Lemma read_fdw_private_ok : forall l acc info,
  read_fdw_private l acc = inr info ->
  (forall x, In x (pi_required_cols info) <->
     In x (pi_required_cols acc) \/
     (1 <= x /\ In x (plan_ints "required_cols" l))) /\
  (forall x, In x (pi_clause_cols info) <->
     In x (pi_clause_cols acc) \/ In x (plan_ints "clause_cols" l)) /\
  Forall (fun x => 0 <= x) (plan_ints "clause_cols" l) /\
  pi_predictable info =
    match rev (plan_entries "predictable" l) with
    | [] => pi_predictable acc
    | v :: _ => if v =? TRUE then 1 else -1
    end.
Proof.
  induction l as [|d l IH]; intros acc info H; simpl in H.
  - inv H. unfold plan_ints, plan_entries. simpl.
    split; [intros x; tauto|]. split; [intros x; tauto|].
    split; [constructor|reflexivity].
  - rewrite !plan_ints_cons, plan_entries_cons.
    destruct (String.eqb (defname d) "predictable") eqn:E1.
    { apply String.eqb_eq in E1. rewrite E1. cbn [String.eqb Ascii.eqb Bool.eqb].
      apply IH in H. destruct H as (R & C & N & P). cbn in R, C, P.
      repeat split; auto; try apply R; try apply C.
      cbn [rev]. rewrite P.
      destruct (rev (plan_entries "predictable" l)); reflexivity. }
    destruct (String.eqb (defname d) "device_kernel") eqn:E2.
    { apply String.eqb_eq in E2. rewrite E2. cbn [String.eqb Ascii.eqb Bool.eqb].
      apply IH in H. exact H. }
    destruct (String.eqb (defname d) "clause_cols") eqn:E3.
    { apply String.eqb_eq in E3. rewrite E3. cbn [String.eqb Ascii.eqb Bool.eqb].
      destruct (bms_add_member (pi_clause_cols acc) (to_int32 (intVal (arg d))))
        as [s|] eqn:Ea; [|discriminate].
      apply IH in H. destruct H as (R & C & N & P). cbn in R, C, P.
      split; [exact R|]. split; [|split; [|exact P]].
      - intros x. rewrite C.
        destruct (bms_add_member_In _ x _ _ Ea) as [_ ->]. simpl.
        intuition auto.
      - constructor; [|exact N].
        exact (proj1 (bms_add_member_In _ 0 _ _ Ea)). }
    destruct (String.eqb (defname d) "required_cols") eqn:E4; [|discriminate].
    destruct (to_int32 (intVal (arg d)) <? 1) eqn:E5.
    + apply IH in H. destruct H as (R & C & N & P).
      apply Z.ltb_lt in E5.
      split; [|split; [exact C|split; [exact N|exact P]]].
      intros x. rewrite R. simpl. intuition (auto; lia).
    + destruct (bms_add_member (pi_required_cols acc)
                  (to_int32 (intVal (arg d)))) as [s|] eqn:Ea; [|discriminate].
      apply IH in H. destruct H as (R & C & N & P). cbn in R, C, P.
      apply Z.ltb_ge in E5.
      split; [|split; [exact C|split; [exact N|exact P]]].
      intros x. rewrite R.
      destruct (bms_add_member_In _ x _ _ Ea) as [_ ->]. simpl.
      intuition (auto; lia).
Qed.

Lemma init_exec_state_info fdw_private cl_ok info program :
  pgstrom_init_exec_state fdw_private cl_ok = inr (info, program) ->
  read_fdw_private fdw_private
    {| pi_predictable := 0; pi_required_cols := []; pi_clause_cols := [] |}
    = inr info /\
  program = (pi_predictable info =? 0).
Proof.
  unfold pgstrom_init_exec_state. intros H.
  destruct (read_fdw_private fdw_private _) as [e|info0]; [discriminate|].
  destruct (pi_predictable info0 =? 0) eqn:E; simpl in H.
  - destruct cl_ok; inv H. rewrite E. auto.
  - inv H. rewrite E. auto.
Qed.

(** X4: what [pgstrom_init_exec_state] makes of the plan information
    when it raises no error.  The value of an entry is read as an [int].
    The required columns are the values of the "required_cols" entries
    that are at least 1 then (the others stand for system columns and
    are skipped); the clause columns are the values of the "clause_cols"
    entries, none of which is negative; the last "predictable" entry
    decides the mark; and a device program is built exactly when there
    is no such entry. *)
Theorem init_reads_plan fdw_private cl_ok info program :
  pgstrom_init_exec_state fdw_private cl_ok = inr (info, program) ->
  (forall x, bms_is_member x (pi_required_cols info) = true <->
     1 <= x /\ In x (plan_ints "required_cols" fdw_private)) /\
  (forall x, bms_is_member x (pi_clause_cols info) = true <->
     In x (plan_ints "clause_cols" fdw_private)) /\
  Forall (fun x => 0 <= x) (plan_ints "clause_cols" fdw_private) /\
  pi_predictable info =
    match rev (plan_entries "predictable" fdw_private) with
    | [] => 0
    | v :: _ => if v =? TRUE then 1 else -1
    end /\
  program = (pi_predictable info =? 0).
Proof.
  intros H. apply init_exec_state_info in H. destruct H as [E ->].
  apply read_fdw_private_ok in E. destruct E as (R & C & N & P).
  simpl in R, C, P.
  split; [|split; [|split; [exact N|split; [exact P|reflexivity]]]].
  - intros x. rewrite bms_is_member_In, R. tauto.
  - intros x. rewrite bms_is_member_In, C. tauto.
Qed.

Lemma read_fdw_private_error : forall l acc d e,
  find (fun d => negb (plan_entry_ok d)) l = Some d ->
  plan_entry_error d = Some e ->
  read_fdw_private l acc = inl e.
Proof.
  induction l as [|d0 l IH]; intros acc d e H He; simpl in H; [discriminate|].
  cbn [read_fdw_private].
  unfold plan_entry_ok, plan_entry_error, known_plan_entry in H.
  destruct (String.eqb (defname d0) "predictable") eqn:E1.
  { apply String.eqb_eq in E1. rewrite E1 in H. cbn in H. eapply IH; eauto. }
  destruct (String.eqb (defname d0) "device_kernel") eqn:E2.
  { apply String.eqb_eq in E2. rewrite E2 in H. cbn in H. eapply IH; eauto. }
  destruct (String.eqb (defname d0) "clause_cols") eqn:E3.
  { unfold bms_add_member.
    destruct (to_int32 (intVal (arg d0)) <? 0) eqn:En; cbn in H.
    - inv H. unfold plan_entry_error, known_plan_entry in He.
      rewrite E1, E2, E3, En in He. cbn in He. inv He. reflexivity.
    - eapply IH; eauto. }
  destruct (String.eqb (defname d0) "required_cols") eqn:E4; cbn in H.
  - destruct (to_int32 (intVal (arg d0)) <? 1) eqn:E5; [eapply IH; eauto|].
    unfold bms_add_member.
    destruct (to_int32 (intVal (arg d0)) <? 0) eqn:En; [|eapply IH; eauto].
    apply Z.ltb_ge in E5. apply Z.ltb_lt in En. lia.
  - inv H. unfold plan_entry_error, known_plan_entry in He.
    rewrite E1, E2, E3, E4 in He. cbn in He. inv He. reflexivity.
Qed.

(** X5: the errors of the loop over the plan information.  The first
    entry that either has a name other than the four that are known or
    is a "clause_cols" entry whose value, read as an [int], is negative,
    decides the error [pgstrom_init_exec_state] raises: "unexpected
    private plan information" with the name of the entry in the first
    case, the "negative bitmapset member" error of [bms_add_member] in
    the second; whatever the entries before and after it are and whether
    or not OpenCL is usable. *)
Theorem init_raises_first_plan_error fdw_private cl_ok d e :
  find (fun d => negb (plan_entry_ok d)) fdw_private = Some d ->
  plan_entry_error d = Some e ->
  pgstrom_init_exec_state fdw_private cl_ok = inl e.
Proof.
  intros H He. unfold pgstrom_init_exec_state.
  now rewrite (read_fdw_private_error _ _ _ _ H He).
Qed.

Lemma begin_column_scans_spec rs clause : forall temp cols cols',
  begin_column_scans rs clause temp cols = Some cols' ->
  length cols' = length cols /\
  forall csidx, 0 <= csidx ->
    (bms_is_member (csidx + 1) (attnums temp) &&
     negb (bms_is_member (csidx + 1) clause) = true ->
     exists rel,
       list_get (cs_rel rs) csidx = Some (Some rel) /\
       list_get cols' csidx = Some (Some (column_begin (rd_cs_tuples rel)))) /\
    (bms_is_member (csidx + 1) (attnums temp) &&
     negb (bms_is_member (csidx + 1) clause) = false ->
     list_get cols' csidx = list_get cols csidx).
Proof.
  induction temp as [|m rest IH]; intros cols cols' H; simpl in H.
  - inv H. split; [reflexivity|]. intros csidx _. simpl.
    split; [discriminate|auto].
  - cbn [attnums].
    destruct (to_int16 m >? 0) eqn:Ea.
    2:{ inv H. split; [reflexivity|]. intros csidx _. simpl.
        split; [discriminate|auto]. }
    set (a := to_int16 m) in *.
    assert (Hpos : 0 < a) by (rewrite Z.gtb_ltb in Ea; now apply Z.ltb_lt).
    destruct (bms_is_member a clause) eqn:Ec.
    + destruct (IH _ _ H) as [L S]. split; [exact L|].
      intros csidx H0. destruct (S csidx H0) as [S1 S2].
      unfold bms_is_member at 1 3. cbn [existsb].
      fold (bms_is_member (csidx + 1) (attnums rest)).
      destruct (csidx + 1 =? a) eqn:E.
      * apply Z.eqb_eq in E. rewrite E in *. rewrite Ec in *.
        rewrite andb_false_r in *. simpl. split; [discriminate|]. auto.
      * simpl. auto.
    + bind_case H. bind_case H. bind_case H.
      destruct (IH _ _ H) as [L S].
      pose proof (list_set_length _ _ _ _ E1) as L1.
      split; [congruence|].
      intros csidx H0. destruct (S csidx H0) as [S1 S2].
      unfold bms_is_member at 1 3. cbn [existsb].
      fold (bms_is_member (csidx + 1) (attnums rest)).
      destruct (csidx + 1 =? a) eqn:Eq.
      * apply Z.eqb_eq in Eq. assert (csidx = a - 1) by lia. subst csidx.
        replace (a - 1 + 1) with a in * by lia. rewrite Ec in *. simpl.
        split; [|discriminate]. intros _.
        destruct (bms_is_member a (attnums rest)) eqn:Er.
        -- apply S1. reflexivity.
        -- exists r. split; [congruence|].
           rewrite S2 by reflexivity.
           apply (list_get_set_same _ _ _ _ E1).
      * simpl. split; [exact S1|]. intros Hc. rewrite S2 by exact Hc.
        apply (list_get_set_other _ _ _ _ _ E1); [|lia].
        apply Z.eqb_neq in Eq. lia.
Qed.

Lemma list_get_repeat {A} (x : A) n i :
  0 <= i < Z.of_nat n -> list_get (repeat x n) i = Some x.
Proof.
  intros H. unfold list_get.
  destruct (i <? 0) eqn:E; [apply Z.ltb_lt in E; lia|].
  rewrite nth_error_repeat; [reflexivity|lia].
Qed.

Lemma begin_column_entries
  cat base fdw_private cl_ok tr st :
  pgstrom_begin_foreign_scan cat base fdw_private cl_ok false
    = (tr, Begun st) ->
  length (cs_cols st) = length (base_attrs base) /\
  (forall csidx, 0 <= csidx < Z.of_nat (length (base_attrs base)) ->
    (bms_is_member (csidx + 1) (attnums (required_cols st)) &&
     negb (bms_is_member (csidx + 1) (clause_cols st)) = true ->
     exists rel,
       list_get (cs_rel (relset st)) csidx = Some (Some rel) /\
       list_get (cs_cols st) csidx
         = Some (Some (column_begin (rd_cs_tuples rel)))) /\
    (bms_is_member (csidx + 1) (attnums (required_cols st)) &&
     negb (bms_is_member (csidx + 1) (clause_cols st)) = false ->
     list_get (cs_cols st) csidx = Some None)) /\
  (Forall (fun a => a < 2 ^ 15) (required_cols st) ->
   attnums (required_cols st) = required_cols st).
Proof.
  unfold pgstrom_begin_foreign_scan. intros H.
  destruct (pgstrom_init_exec_state fdw_private cl_ok)
    as [e|[info program]] eqn:Ei; [inv H|].
  destruct (pgstrom_open_relation_set cat base true []) as [tr1 [e|rs]];
    [inv H|].
  destruct (begin_column_scans _ _ _ _) as [cols|] eqn:Eb; inv H.
  cbn [cs_cols required_cols clause_cols relset].
  apply init_exec_state_info in Ei. destruct Ei as [Ei _].
  apply read_fdw_private_ok in Ei. destruct Ei as (R & _). simpl in R.
  apply begin_column_scans_spec in Eb.
  destruct Eb as [L S]. rewrite repeat_length in L.
  unfold RelationGetNumberOfAttributes in *.
  split; [exact L|]. split.
  - intros csidx Hc. destruct (S csidx (proj1 Hc)) as [S1 S2].
    split; [exact S1|]. intros Hf. rewrite (S2 Hf).
    apply list_get_repeat. exact Hc.
  - intros Hsmall. apply attnums_small.
    rewrite Forall_forall in *. intros x Hx.
    specialize (Hsmall x Hx). apply R in Hx. lia.
Qed.

(** X6: the state in which a scan begins has one entry of [cs_scan] for
    each attribute of the base table.  An index scan is begun on the
    column store of exactly the columns whose number the loop of lines
    782-795 reads from [required_cols] (each member as an [AttrNumber],
    up to the first that is not positive then) and that are not clause
    columns; the entry of every other column stays NULL.  When every
    required column number is below 32768, the numbers the loop reads
    are the required columns themselves. *)
Theorem begin_opens_scans_of_lazy_columns
  cat base fdw_private cl_ok tr st :
  pgstrom_begin_foreign_scan cat base fdw_private cl_ok false
    = (tr, Begun st) ->
  length (cs_cols st) = length (base_attrs base) /\
  (forall csidx, 0 <= csidx < Z.of_nat (length (base_attrs base)) ->
    (bms_is_member (csidx + 1) (attnums (required_cols st)) &&
     negb (bms_is_member (csidx + 1) (clause_cols st)) = true ->
     exists rel,
       list_get (cs_rel (relset st)) csidx = Some (Some rel) /\
       list_get (cs_cols st) csidx
         = Some (Some (column_begin (rd_cs_tuples rel)))) /\
    (bms_is_member (csidx + 1) (attnums (required_cols st)) &&
     negb (bms_is_member (csidx + 1) (clause_cols st)) = false ->
     list_get (cs_cols st) csidx = Some None)) /\
  (Forall (fun a => a < 2 ^ 15) (required_cols st) ->
   attnums (required_cols st) = required_cols st).
Proof. exact (begin_column_entries cat base fdw_private cl_ok tr st). Qed.

(** ** More on the column-store cache *)

Lemma to_int32_small z : 0 <= z < 2 ^ 31 -> to_int32 z = z.
Proof.
  intros H. unfold to_int32.
  rewrite Z.mod_small; lia.
Qed.

Lemma index_getnext_rel sd dir :
  xs_rel (fst (index_getnext sd dir)) = xs_rel sd.
Proof.
  unfold index_getnext.
  destruct (next_position sd dir) as [i|]; [|reflexivity].
  destruct (nth_error (scan_matches sd) i); reflexivity.
Qed.

(** A probe that misses moves the index scan and nothing else. *)
Lemma forward_probe_miss : forall count cs r cs1,
  forward_probe count cs r = (cs1, false) ->
  xs_rel (cs_scan cs1) = xs_rel (cs_scan cs) /\
  cs_cur_values cs1 = cs_cur_values cs /\
  cs_cur_rowid_min cs1 = cs_cur_rowid_min cs /\
  cs_cur_rowid_max cs1 = cs_cur_rowid_max cs.
Proof.
  induction count as [|count IH]; intros cs r cs1 H; simpl in H.
  - inv H. auto.
  - pose proof (index_getnext_rel (cs_scan cs) ForwardScanDirection) as R.
    destruct (index_getnext (cs_scan cs) ForwardScanDirection) as [sd [t|]].
    + destruct ((r >=? cs_rowid t) && _); [discriminate|].
      apply IH in H. simpl in *. destruct H as (H1 & H2 & H3 & H4).
      repeat split; congruence.
    + inv H. simpl in *. auto.
Qed.

Lemma forward_probe_rel count cs r :
  xs_rel (cs_scan (fst (forward_probe count cs r))) = xs_rel (cs_scan cs).
Proof.
  destruct (forward_probe count cs r) as [cs1 [|]] eqn:E.
  - revert cs cs1 E. induction count as [|count IH]; intros cs cs1 E;
      simpl in E; [discriminate|].
    pose proof (index_getnext_rel (cs_scan cs) ForwardScanDirection) as R.
    destruct (index_getnext (cs_scan cs) ForwardScanDirection) as [sd [t|]];
      [|discriminate].
    destruct ((r >=? cs_rowid t) && _).
    + inv E. simpl in *. exact R.
    + apply IH in E. simpl in *. congruence.
  - apply forward_probe_miss in E. simpl. tauto.
Qed.

(** What a full seek leaves: the cache empty when no tuple starts at or
    below the row, else the last such tuple cached. *)
Lemma full_seek_result cs r :
  let m := filter (keys_hold [ScanKeyInit BTLessEqualStrategyNumber r])
                  (xs_rel (cs_scan cs)) in
  xs_rel (cs_scan (fst (full_seek cs r))) = xs_rel (cs_scan cs) /\
  match rev m with
  | [] => snd (full_seek cs r) = false /\
          cs_cur_values (fst (full_seek cs r)) = None
  | t :: _ =>
      snd (full_seek cs r) = true /\
      cs_cur_values (fst (full_seek cs r)) = Some (cs_array t) /\
      cs_cur_rowid_min (fst (full_seek cs r)) = cs_rowid t /\
      cs_cur_rowid_max (fst (full_seek cs r))
        = cs_rowid t + ARR_DIMS0 (cs_array t)
  end.
Proof.
  intros m. unfold full_seek.
  set (cs0 := match cs_cur_values cs with Some _ => _ | None => cs end).
  assert (R0 : xs_rel (cs_scan cs0) = xs_rel (cs_scan cs))
    by (unfold cs0; destruct (cs_cur_values cs); reflexivity).
  assert (V0 : cs_cur_values cs0 = None).
  { unfold cs0. destruct (cs_cur_values cs) eqn:E; [reflexivity|exact E]. }
  unfold index_getnext, next_position, scan_matches.
  cbn [xs_pos xs_keys xs_rel index_rescan].
  rewrite R0. fold m.
  destruct (rev m) as [|t l] eqn:Erev.
  - assert (m = []) by (rewrite <- (rev_involutive m), Erev; reflexivity).
    rewrite H. simpl. auto.
  - assert (Hm : m = rev l ++ [t])
      by (rewrite <- (rev_involutive m), Erev; reflexivity).
    rewrite Hm, length_app. simpl.
    replace (length (rev l) + 1)%nat with (S (length (rev l))) by lia.
    rewrite nth_error_app2 by lia. rewrite Nat.sub_diag. simpl. auto.
Qed.

Lemma keys_hold_le r t :
  keys_hold [ScanKeyInit BTLessEqualStrategyNumber r] t = (cs_rowid t <=? r).
Proof. unfold keys_hold, key_holds. simpl. apply andb_true_r. Qed.

Lemma full_seek_consistent cs r :
  xs_rel (cs_scan (fst (full_seek cs r))) = xs_rel (cs_scan cs) /\
  cache_consistent (fst (full_seek cs r)).
Proof.
  destruct (full_seek_result cs r) as [R H]. split; [exact R|].
  unfold cache_consistent.
  destruct (rev (filter _ (xs_rel (cs_scan cs)))) as [|t l] eqn:E.
  - destruct H as [_ ->]. exact I.
  - destruct H as (_ & -> & Hmin & Hmax). exists t. rewrite R.
    repeat split; auto.
    assert (Hin : In t (rev (filter
              (keys_hold [ScanKeyInit BTLessEqualStrategyNumber r])
              (xs_rel (cs_scan cs))))) by (rewrite E; now left).
    apply in_rev in Hin. apply filter_In in Hin. tauto.
Qed.

Lemma scan_column_store_consistent cs r :
  cache_consistent cs ->
  xs_rel (cs_scan (fst (pgstrom_scan_column_store cs r)))
    = xs_rel (cs_scan cs) /\
  cache_consistent (fst (pgstrom_scan_column_store cs r)).
Proof.
  intros Hc. unfold pgstrom_scan_column_store.
  destruct (cache_miss cs r); [|simpl; auto].
  assert (P : exists cs1 hit,
    (if probe_applicable cs r then forward_probe 2 cs r else (cs, false))
      = (cs1, hit) /\
    xs_rel (cs_scan cs1) = xs_rel (cs_scan cs) /\ cache_consistent cs1).
  { destruct (probe_applicable cs r).
    - destruct (forward_probe 2 cs r) as [cs1 hit] eqn:E.
      exists cs1, hit. split; [reflexivity|].
      pose proof (forward_probe_rel 2 cs r) as R. rewrite E in R. simpl in R.
      split; [exact R|].
      destruct hit.
      + apply forward_probe_hit in E.
        destruct E as (t & Hin & Hv & Hmin & Hmax & _).
        unfold cache_consistent. rewrite Hv. exists t. rewrite R. auto.
      + apply forward_probe_miss in E. destruct E as (_ & Hv & Hmin & Hmax).
        unfold cache_consistent in *. rewrite Hv, Hmin, Hmax, R. exact Hc.
    - exists cs, false. auto. }
  destruct P as (cs1 & hit & -> & R1 & C1).
  destruct hit; [simpl; auto|].
  unfold lookup_by_full_seek.
  destruct (full_seek_consistent cs1 r) as [R2 C2].
  destruct (full_seek cs1 r) as [cs2 found]. simpl in *.
  destruct found; simpl; split; congruence.
Qed.

(** X7: after any run of lookups on a column, the index scan is still a
    scan of the same column store, and the cached array, when there is
    one, is the array of one of its tuples with the bounds [rowid] and
    [rowid + nitems]. *)
Theorem lookups_keep_cache_consistent rel rs :
  xs_rel (cs_scan (fst (lookups (column_begin rel) rs))) = rel /\
  cache_consistent (fst (lookups (column_begin rel) rs)).
Proof.
  assert (G : forall cs, cache_consistent cs ->
    xs_rel (cs_scan (fst (lookups cs rs))) = xs_rel (cs_scan cs) /\
    cache_consistent (fst (lookups cs rs))).
  { induction rs as [|r rs IH]; intros cs Hc; simpl; [auto|].
    destruct (scan_column_store_consistent cs r Hc) as [R1 C1].
    destruct (pgstrom_scan_column_store cs r) as [cs1 v]. simpl in *.
    destruct (IH cs1 C1) as [R2 C2].
    destruct (lookups cs1 rs) as [cs2 vs]. simpl in *.
    split; congruence. }
  apply (G (column_begin rel)). exact I.
Qed.

Lemma sorted_split_around (t : cs_tuple) : forall l1 l2,
  StronglySorted apart (l1 ++ t :: l2) ->
  Forall (fun x => apart x t) l1 /\ Forall (apart t) l2.
Proof.
  induction l1 as [|x l1 IH]; intros l2 H; simpl in H.
  - inversion H; subst. split; [constructor|assumption].
  - inversion H as [|? ? Hs Hall]; subst.
    destruct (IH _ Hs) as [H1 H2]. split; [|exact H2].
    constructor; [|exact H1].
    rewrite Forall_forall in Hall. apply Hall.
    apply in_or_app. right. now left.
Qed.

(** In a store of arrays that do not overlap a row is held by one tuple
    at most, and a tuple of which the row is not the end does not reach
    a row held by another. *)
Lemma holder_is_unique rel t t' r :
  StronglySorted apart rel -> In t rel -> In t' rel ->
  holds_row t r ->
  cs_rowid t' <= r <= cs_rowid t' + ARR_DIMS0 (cs_array t') ->
  r <> cs_rowid t' + ARR_DIMS0 (cs_array t') ->
  t' = t.
Proof.
  intros Hs Hin Hin' Hr Hr' Hne. unfold holds_row in Hr.
  apply in_split in Hin. destruct Hin as (l1 & l2 & ->).
  destruct (sorted_split_around _ _ _ Hs) as [H1 H2].
  rewrite Forall_forall in H1, H2.
  apply in_app_or in Hin'. destruct Hin' as [Hin'|[Heq|Hin']].
  - destruct (H1 _ Hin') as [_ Ha]. lia.
  - now symmetry.
  - destruct (H2 _ Hin') as [_ Ha]. lia.
Qed.

Lemma is_array_end_false rel r t :
  is_array_end rel r = false -> In t rel ->
  r <> cs_rowid t + ARR_DIMS0 (cs_array t).
Proof.
  unfold is_array_end. intros H Hin Heq.
  assert (existsb (fun t => r =? cs_rowid t + ARR_DIMS0 (cs_array t)) rel = true).
  { apply existsb_exists. exists t. split; [exact Hin|]. now apply Z.eqb_eq. }
  congruence.
Qed.

Lemma stored_value_holder rel r t :
  StronglySorted apart rel -> In t rel -> holds_row t r ->
  stored_value rel r = array_ref (cs_array t) (r - cs_rowid t).
Proof.
  intros Hs Hin Hr. unfold stored_value.
  destruct (find _ rel) as [t'|] eqn:F.
  - apply find_some in F. destruct F as [Hin' Hc].
    apply andb_true_iff in Hc. destruct Hc as [H1 H2].
    apply Z.leb_le in H1. apply Z.ltb_lt in H2.
    rewrite (holder_is_unique rel t t' r); auto; lia.
  - exfalso. apply (find_none _ _ F) in Hin. unfold holds_row in Hr.
    apply andb_false_iff in Hin. destruct Hin as [H|H].
    + apply Z.leb_gt in H. lia.
    + apply Z.ltb_ge in H. lia.
Qed.

Lemma has_stored_row_holder rel r :
  has_stored_row rel r = true -> exists t, In t rel /\ holds_row t r.
Proof.
  unfold has_stored_row. intros H. apply existsb_exists in H.
  destruct H as (t & Hin & Hc). exists t. split; [exact Hin|].
  apply andb_true_iff in Hc. destruct Hc as [H1 H2].
  apply Z.leb_le in H1. apply Z.ltb_lt in H2. split; lia.
Qed.

Lemma scan_column_store_stored cs r :
  StronglySorted apart (xs_rel (cs_scan cs)) ->
  dims_are_int (xs_rel (cs_scan cs)) ->
  cache_consistent cs ->
  has_stored_row (xs_rel (cs_scan cs)) r = true ->
  is_array_end (xs_rel (cs_scan cs)) r = false ->
  snd (pgstrom_scan_column_store cs r) = stored_value (xs_rel (cs_scan cs)) r.
Proof.
  intros Hs Hd Hc Hst Hend.
  destruct (has_stored_row_holder _ _ Hst) as (t & Hin & Hr).
  rewrite (stored_value_holder _ _ t Hs Hin Hr).
  assert (Hidx : to_int32 (r - cs_rowid t) = r - cs_rowid t).
  { apply to_int32_small. unfold dims_are_int in Hd.
    rewrite Forall_forall in Hd. specialize (Hd t Hin).
    unfold holds_row in Hr. lia. }
  unfold pgstrom_scan_column_store.
  destruct (cache_miss cs r) eqn:Em.
  - destruct (probe_applicable cs r).
    + destruct (forward_probe 2 cs r) as [cs1 [|]] eqn:Ep.
      * simpl. apply forward_probe_hit in Ep.
        destruct Ep as (t' & Hin' & Hv & Hmin & Hmax & Hr').
        assert (t' = t).
        { apply (holder_is_unique (xs_rel (cs_scan cs)) t t' r); auto.
          eapply is_array_end_false; eauto. }
        subst t'. unfold fetch_cached. rewrite Hv, Hmin, Hidx. reflexivity.
      * pose proof (forward_probe_miss _ _ _ _ Ep) as (R & _).
        rewrite (full_seek_covering cs1 r t); try rewrite R; auto.
        now rewrite Hidx.
    + rewrite (full_seek_covering cs r t); auto. now rewrite Hidx.
  - simpl. unfold cache_miss in Em. unfold cache_consistent in Hc.
    unfold fetch_cached.
    destruct (cs_cur_values cs) as [a|]; [|discriminate].
    destruct Hc as (t' & Hin' & -> & Hmin & Hmax).
    apply orb_false_iff in Em. destruct Em as [E1 E2].
    apply Z.ltb_ge in E1. rewrite Z.gtb_ltb in E2. apply Z.ltb_ge in E2.
    assert (t' = t).
    { apply (holder_is_unique (xs_rel (cs_scan cs)) t t' r); auto; try lia.
      eapply is_array_end_false; eauto. }
    subst t'. rewrite Hmin, Hidx. reflexivity.
Qed.

(** X8: a lookup of a row for which the column store holds a value
    returns that value (the item of the array that holds the row, or
    null when the item is null), from any state the cache can be in,
    provided the row is not the row after the last one of a stored
    array.  The arrays of the store do not overlap and have [int] many
    items. *)
Theorem lookup_returns_stored_value cs r :
  StronglySorted apart (xs_rel (cs_scan cs)) ->
  dims_are_int (xs_rel (cs_scan cs)) ->
  cache_consistent cs ->
  has_stored_row (xs_rel (cs_scan cs)) r = true ->
  is_array_end (xs_rel (cs_scan cs)) r = false ->
  snd (pgstrom_scan_column_store cs r) = stored_value (xs_rel (cs_scan cs)) r.
Proof. exact (scan_column_store_stored cs r). Qed.

(** X9: a run of lookups from the beginning of a scan, in any order,
    returns for each row the value the column store holds for it, when
    every row asked for is held by an array and none is the row after
    the last one of an array. *)
Theorem lookups_return_stored_values rel rs :
  StronglySorted apart rel ->
  dims_are_int rel ->
  Forall (fun r => has_stored_row rel r = true /\
                   is_array_end rel r = false) rs ->
  snd (lookups (column_begin rel) rs) = map (stored_value rel) rs.
Proof.
  intros Hs Hd.
  assert (G : forall rs cs, xs_rel (cs_scan cs) = rel -> cache_consistent cs ->
    Forall (fun r => has_stored_row rel r = true /\
                     is_array_end rel r = false) rs ->
    snd (lookups cs rs) = map (stored_value rel) rs).
  { clear rs. induction rs as [|r rs IH]; intros cs R Hc Hall; simpl; [reflexivity|].
    inversion Hall as [|? ? [H1 H2] Hrest]; subst.
    pose proof (scan_column_store_stored cs r) as L.
    destruct (scan_column_store_consistent cs r Hc) as [R1 C1].
    destruct (pgstrom_scan_column_store cs r) as [cs1 v]. simpl in *.
    specialize (IH cs1 R1 C1 Hrest).
    destruct (lookups cs1 rs) as [cs2 vs]. simpl in *.
    rewrite L, IH; auto. }
  intros Hall. apply G; auto. exact I.
Qed.

Lemma no_tuple_below rel r :
  (forall t, In t rel -> r < cs_rowid t) ->
  filter (keys_hold [ScanKeyInit BTLessEqualStrategyNumber r]) rel = [].
Proof.
  induction rel as [|t rel IH]; intros H; cbn [filter]; [reflexivity|].
  rewrite keys_hold_le.
  assert ((cs_rowid t <=? r) = false)
    by (apply Z.leb_gt; apply H; now left).
  rewrite H0. apply IH. intros t' Ht'. apply H. now right.
Qed.

(** X10: a lookup of a row below the first row of every tuple of the
    column store (of any row, when the store is empty) returns null and
    leaves no array cached; it is not an error. *)
Theorem lookup_before_first_array_is_null cs r :
  cache_consistent cs ->
  (forall t, In t (xs_rel (cs_scan cs)) -> r < cs_rowid t) ->
  snd (pgstrom_scan_column_store cs r) = (0, true) /\
  cs_cur_values (fst (pgstrom_scan_column_store cs r)) = None.
Proof.
  intros Hc Hbelow.
  assert (Em : cache_miss cs r = true).
  { unfold cache_miss. unfold cache_consistent in Hc.
    destruct (cs_cur_values cs); [|reflexivity].
    destruct Hc as (t & Hin & _ & Hmin & _).
    apply orb_true_iff. left. apply Z.ltb_lt. rewrite Hmin. auto. }
  unfold pgstrom_scan_column_store. rewrite Em.
  assert (P : exists cs1,
    (if probe_applicable cs r then forward_probe 2 cs r else (cs, false))
      = (cs1, false) /\ xs_rel (cs_scan cs1) = xs_rel (cs_scan cs)).
  { destruct (probe_applicable cs r); [|eauto].
    destruct (forward_probe 2 cs r) as [cs1 [|]] eqn:Ep.
    - apply forward_probe_hit in Ep. destruct Ep as (t & Hin & _ & _ & _ & Hr).
      specialize (Hbelow t Hin). lia.
    - exists cs1. split; [reflexivity|].
      apply forward_probe_miss in Ep. tauto. }
  destruct P as (cs1 & -> & R).
  unfold lookup_by_full_seek.
  destruct (full_seek_result cs1 r) as [_ H].
  rewrite R, no_tuple_below in H by exact Hbelow. simpl in H.
  destruct H as [Hf Hv].
  destruct (full_seek cs1 r) as [cs2 found]. simpl in *. subst found.
  simpl. auto.
Qed.

(** ** More on the loader *)

Section Loader.

Variable chunk_size : Z.


Lemma load_chunks_predictable : forall n st loaded,
  predictable st <> 0 ->
  let rest := rs_rest (ri_scan st) in
  let k := Nat.min n (length rest) in
  exists st',
    load_chunks chunk_size n st loaded = Some (st', loaded + Z.of_nat k) /\
    chunk_ready_list st'
      = chunk_ready_list st ++ map (new_chunk st) (firstn k rest) /\
    rs_rest (ri_scan st')
      = (if (length rest <? n)%nat then rs_rel (ri_scan st)
         else skipn k rest) /\
    rs_rel (ri_scan st') = rs_rel (ri_scan st) /\
    cs_cols st' = cs_cols st /\
    (curr_chunk st', curr_index st') = (curr_chunk st, curr_index st).
Proof.
  induction n as [|n IH]; intros st loaded Hp; simpl.
  - exists st. rewrite Z.add_0_r, app_nil_r.
    destruct (rs_rest (ri_scan st)); simpl; auto 7.
  - unfold heap_getnext.
    destruct (rs_rest (ri_scan st)) as [|t rest] eqn:R.
    + eexists. rewrite Z.add_0_r. split; [reflexivity|].
      simpl. rewrite app_nil_r. auto 7.
    + cbn [set_ri_scan predictable clause_cols chunk_ready_list].
      destruct (predictable st =? 0) eqn:E; [apply Z.eqb_eq in E; contradiction|].
      match goal with
      | |- context [load_chunks _ n ?s ?l] =>
          destruct (IH s l) as (st' & H1 & H2 & H3 & H4 & H5 & H6);
            [exact Hp|]
      end.
      cbn [ri_scan rs_rest rs_rel set_chunk_ready_list set_ri_scan
           chunk_ready_list cs_cols curr_chunk curr_index] in *.
      exists st'. split.
      * rewrite H1. f_equal. f_equal. simpl. lia.
      * rewrite H2, H3, H4, H5, H6. simpl. rewrite <- app_assoc. simpl.
        repeat split; auto.
Qed.

(** X11: in a predictable query [pgstrom_load_chunk_buffer] cannot fail.
    Asked for [num_chunks] chunks it fetches tuples of the rowid
    relation until it has that many or the scan runs off the end,
    appends one chunk for each tuple to the ready list in the order
    read, and returns their number; a count that is zero or negative
    reads nothing.  When the scan has run off the end (there were fewer
    tuples left than chunks asked for) it is left at the beginning of
    the relation, so that the next load reads the relation again from
    its first tuple. *)
Theorem load_chunk_buffer_predictable st num_chunks :
  predictable st <> 0 ->
  let rest := rs_rest (ri_scan st) in
  let k := Nat.min (Z.to_nat num_chunks) (length rest) in
  exists st',
    pgstrom_load_chunk_buffer chunk_size st num_chunks
      = Some (st', Z.of_nat k) /\
    chunk_ready_list st'
      = chunk_ready_list st ++ map (new_chunk st) (firstn k rest) /\
    rs_rest (ri_scan st')
      = (if (length rest <? Z.to_nat num_chunks)%nat then rs_rel (ri_scan st)
         else skipn k rest) /\
    rs_rel (ri_scan st') = rs_rel (ri_scan st) /\
    cs_cols st' = cs_cols st /\
    (curr_chunk st', curr_index st') = (curr_chunk st, curr_index st).
Proof.
  intros Hp. unfold pgstrom_load_chunk_buffer.
  exact (load_chunks_predictable (Z.to_nat num_chunks) st 0 Hp).
Qed.

Lemma scan_remaining_getnext sd :
  match scan_remaining sd with
  | [] => snd (index_getnext sd ForwardScanDirection) = None
  | t :: rest =>
      snd (index_getnext sd ForwardScanDirection) = Some t /\
      scan_remaining (fst (index_getnext sd ForwardScanDirection)) = rest
  end.
Proof.
  unfold scan_remaining, index_getnext, next_position.
  destruct (xs_pos sd) as [|i|] eqn:P.
  - destruct (scan_matches sd) as [|t rest] eqn:M; simpl; [reflexivity|].
    unfold scan_remaining, scan_matches in *. simpl. rewrite M. auto.
  - assert (F : (match i with O | _ => Some (S i) end) = Some (S i))
      by (destruct i; reflexivity).
    destruct (skipn (S i) (scan_matches sd)) as [|t rest] eqn:K.
    + assert (N : nth_error (scan_matches sd) (S i) = None).
      { apply nth_error_None.
        assert (length (skipn (S i) (scan_matches sd)) = O) by now rewrite K.
        rewrite length_skipn in H. lia. }
      destruct i; rewrite N; reflexivity.
    + assert (N : nth_error (scan_matches sd) (S i) = Some t /\
                  skipn (S (S i)) (scan_matches sd) = rest).
      { pose proof (skipn_cons_nth t (S i) (scan_matches sd) t rest K) as [H1 H2].
        split; [|exact H2].
        assert (L : (S i < length (scan_matches sd))%nat).
        { assert (length (skipn (S i) (scan_matches sd)) = S (length rest))
            by now rewrite K.
          rewrite length_skipn in H. lia. }
        rewrite (nth_error_nth' _ t L). now rewrite H1. }
      destruct N as [N1 N2].
      destruct i; rewrite N1; simpl; unfold scan_remaining, scan_matches in *;
        simpl; auto.
  - reflexivity.
Qed.

(** The loop over the tuples of the range is the fold over the tuples
    the scan has still to return. *)
Lemma load_tuples_is_fold csidx : forall fuel iscan chunk found,
  (length (scan_remaining iscan) < fuel)%nat ->
  load_tuples chunk_size fuel iscan chunk csidx found
  = load_fold chunk_size (scan_remaining iscan) chunk csidx found.
Proof.
  induction fuel as [|fuel IH]; intros iscan chunk found Hf; [lia|].
  cbn [load_tuples].
  pose proof (scan_remaining_getnext iscan) as G.
  destruct (index_getnext iscan ForwardScanDirection) as [sd tup].
  destruct (scan_remaining iscan) as [|t rest]; simpl in G.
  - subst tup. reflexivity.
  - destruct G as [-> G]. cbn [load_fold].
    destruct (load_tuple chunk_size chunk csidx t) as [chunk1|]; [|reflexivity].
    cbn [bind]. rewrite <- G. apply IH. rewrite G. simpl in Hf. lia.
Qed.

End Loader.

Lemma memcpy_inside (dst : list Z) off (src : list Z) n :
  0 <= off -> 0 <= n ->
  (Z.to_nat off + Z.to_nat n <= length dst)%nat ->
  (Z.to_nat n <= length src)%nat ->
  length (memcpy dst off src n) = length dst /\
  forall i : nat,
    nth i (memcpy dst off src n) 0 =
    if (Z.to_nat off <=? i)%nat && (i <? Z.to_nat off + Z.to_nat n)%nat
    then nth (i - Z.to_nat off) src 0
    else nth i dst 0.
Proof.
  intros Ho Hn Hd Hs. unfold memcpy.
  set (o := Z.to_nat off) in *. set (k := Z.to_nat n) in *.
  assert (F : firstn k (src ++ repeat 0 k) = firstn k src).
  { rewrite firstn_app.
    replace (k - length src)%nat with O by lia. simpl. apply app_nil_r. }
  rewrite F.
  assert (L : length (firstn o dst ++ firstn k src ++ skipn (o + k) dst)
              = length dst).
  { rewrite !length_app, !length_firstn, length_skipn. lia. }
  rewrite firstn_all2 by lia. split; [exact L|].
  intros i.
  destruct (Nat.leb_spec o i) as [H1|H1]; simpl.
  - rewrite app_nth2 by (rewrite length_firstn; lia).
    rewrite length_firstn. replace (Nat.min o (length dst)) with o by lia.
    destruct (Nat.ltb_spec i (o + k)) as [H2|H2].
    + rewrite app_nth1 by (rewrite length_firstn; lia).
      rewrite nth_firstn.
      destruct (Nat.ltb_spec (i - o) k); [reflexivity|lia].
    + rewrite app_nth2 by (rewrite length_firstn; lia).
      rewrite length_firstn. replace (Nat.min k (length src)) with k by lia.
      rewrite nth_skipn. f_equal. lia.
  - rewrite app_nth1 by (rewrite length_firstn; lia).
    rewrite nth_firstn.
    destruct (Nat.ltb_spec i o); [reflexivity|lia].
Qed.


Section Eager.

Variable chunk_size : Z.


Lemma load_fold_plain csidx : forall ts chunk buf found,
  chunk_size < 2 ^ 31 ->
  list_get (cs_nulls chunk) csidx = Some None ->
  list_get (cs_values chunk) csidx = Some (Some buf) ->
  length buf = Z.to_nat chunk_size ->
  StronglySorted apart ts ->
  Forall (fits_chunk chunk_size chunk) ts ->
  exists chunk' buf',
    load_fold chunk_size ts chunk csidx found
      = Some (chunk', match ts with [] => found | _ => true end) /\
    list_get (cs_nulls chunk') csidx = Some None /\
    list_get (cs_values chunk') csidx = Some (Some buf') /\
    forall i, 0 <= i < chunk_size ->
      (forall t, In t ts -> holds_row t (rowid chunk + i) ->
         nth (Z.to_nat i) buf' 0
         = nth (Z.to_nat (rowid chunk + i - cs_rowid t))
               (ARR_DATA_PTR (cs_array t)) 0) /\
      ((forall t, In t ts -> ~ holds_row t (rowid chunk + i)) ->
         nth (Z.to_nat i) buf' 0 = nth (Z.to_nat i) buf 0).
Proof.
  induction ts as [|t ts IH]; intros chunk buf found Hsz Hn Hv Hl Hs Hf.
  - exists chunk, buf. simpl. repeat split; auto. intros t [].
  - inversion Hs as [|? ? Hs' Hall]; subst.
    inversion Hf as [|? ? Ht Hf']; subst.
    destruct Ht as (Hnb & Hdl & Hd0 & Hlo & Hhi).
    cbn [load_fold]. unfold load_tuple.
    rewrite Hn. cbn [bind]. rewrite Hnb. cbn [bind]. rewrite Hv. cbn [bind].
    assert (Hoff : to_int32 (cs_rowid t - rowid chunk) = cs_rowid t - rowid chunk)
      by (apply to_int32_small; lia).
    rewrite Hoff.
    set (off := cs_rowid t - rowid chunk) in *.
    set (buf1 := memcpy buf off (ARR_DATA_PTR (cs_array t))
                        (ARR_DIMS0 (cs_array t))).
    assert (M : length buf1 = length buf /\
      forall i : nat,
        nth i buf1 0 =
        if (Z.to_nat off <=? i)%nat &&
           (i <? Z.to_nat off + Z.to_nat (ARR_DIMS0 (cs_array t)))%nat
        then nth (i - Z.to_nat off) (ARR_DATA_PTR (cs_array t)) 0
        else nth i buf 0).
    { unfold Datum in *. apply memcpy_inside; unfold off; lia. }
    destruct M as [L1 N1].
    assert (Hrange : 0 <= csidx < Z.of_nat (length (cs_values chunk))).
    { unfold list_get in Hv. destruct (csidx <? 0) eqn:E; [discriminate|].
      apply Z.ltb_ge in E.
      assert (nth_error (cs_values chunk) (Z.to_nat csidx) <> None) by congruence.
      apply nth_error_Some in H. lia. }
    destruct (list_set_some (cs_values chunk) csidx (Some buf1) Hrange)
      as [vs Hvs].
    unfold set_chunk_values. rewrite Hvs. cbn [bind].
    set (chunk1 := {| nattrs := nattrs chunk; rowid := rowid chunk;
                      rowmap := rowmap chunk; cs_nulls := cs_nulls chunk;
                      cs_values := vs |}).
    destruct (IH chunk1 buf1 true) as (chunk' & buf' & E & Hn' & Hv' & Hval);
      auto.
    + apply (list_get_set_same _ _ _ _ Hvs).
    + unfold Datum in *. rewrite L1. exact Hl.
    + exists chunk', buf'. rewrite E.
      split; [destruct ts; reflexivity|].
      split; [exact Hn'|]. split; [exact Hv'|].
      intros i Hi. destruct (Hval i Hi) as [V1 V2].
      change (rowid chunk1) with (rowid chunk) in V1, V2.
      assert (Hhead : holds_row t (rowid chunk + i) ->
                forall t', In t' ts -> ~ holds_row t' (rowid chunk + i)).
      { intros Hh t' Hin' Hh'. rewrite Forall_forall in Hall.
        destruct (Hall t' Hin') as [_ Ha]. unfold holds_row in *. lia. }
      split.
      * intros t' [<-|Hin'] Hh; [|auto].
        rewrite (V2 (Hhead Hh)). rewrite N1.
        unfold holds_row in Hh. unfold off.
        destruct (Nat.leb_spec (Z.to_nat (cs_rowid t - rowid chunk))
                               (Z.to_nat i)); [|lia].
        destruct (Nat.ltb_spec (Z.to_nat i)
                    (Z.to_nat (cs_rowid t - rowid chunk) +
                     Z.to_nat (ARR_DIMS0 (cs_array t)))); [|lia].
        simpl. f_equal. lia.
      * intros Hnone. rewrite V2 by (intros t' Hin'; apply Hnone; now right).
        rewrite N1.
        assert (Hnt : ~ holds_row t (rowid chunk + i))
          by (apply Hnone; now left).
        unfold holds_row in Hnt. unfold off.
        destruct (Nat.leb_spec (Z.to_nat (cs_rowid t - rowid chunk))
                               (Z.to_nat i)); [|reflexivity].
        destruct (Nat.ltb_spec (Z.to_nat i)
                    (Z.to_nat (cs_rowid t - rowid chunk) +
                     Z.to_nat (ARR_DIMS0 (cs_array t)))); [lia|reflexivity].
Qed.


Lemma sorted_filter (f : cs_tuple -> bool) : forall l,
  StronglySorted apart l -> StronglySorted apart (filter f l).
Proof.
  induction l as [|x l IH]; intros H; simpl; [constructor|].
  inversion H as [|? ? Hs Hall]; subst.
  destruct (f x); [|auto].
  constructor; [auto|].
  rewrite Forall_forall in *. intros y Hy. apply filter_In in Hy.
  apply Hall. tauto.
Qed.

Lemma array_ref_plain a i :
  ARR_NULLBITMAP a = None -> 0 <= i < ARR_DIMS0 a ->
  array_ref a i = (nth (Z.to_nat i) (ARR_DATA_PTR a) 0, false).
Proof.
  intros Hn Hi. unfold array_ref, array_get_isnull, array_seek. rewrite Hn.
  destruct (i <? 0) eqn:E1; [apply Z.ltb_lt in E1; lia|].
  destruct (i >=? ARR_DIMS0 a) eqn:E2;
    [rewrite Z.geb_leb in E2; apply Z.leb_le in E2; lia|].
  reflexivity.
Qed.

(** X12: the eager load of a column into a new chunk, when the arrays of
    the column store that start within the chunk have no null bitmap,
    do not overlap and end within the chunk: the load succeeds, and every
    row held by such an array then reads from the chunk, at the offset
    [r - chunk.rowid], as the value the column store holds for it. *)
Theorem eager_load_reads_stored_values rel chunk csidx :
  0 <= chunk_size < 2 ^ 31 ->
  list_get (cs_nulls chunk) csidx = Some None ->
  0 <= csidx < Z.of_nat (length (cs_values chunk)) ->
  StronglySorted apart rel ->
  (forall t, In t rel ->
     rowid chunk <= cs_rowid t < rowid chunk + chunk_size ->
     fits_chunk chunk_size chunk t) ->
  exists chunk',
    load_column_store chunk_size rel chunk csidx = Some chunk' /\
    forall t r, In t rel -> rowid chunk <= cs_rowid t -> holds_row t r ->
      r < rowid chunk + chunk_size ->
      loaded_value chunk' csidx (r - rowid chunk)
        = Some (stored_value rel r).
Proof.
  intros Hsz Hn Hc Hs Hfit.
  unfold load_column_store.
  destruct (list_set_some (cs_values chunk) csidx
              (Some (repeat 0 (Z.to_nat chunk_size))) Hc) as [vs Hvs].
  unfold set_chunk_values at 1. rewrite Hvs. cbn [bind].
  set (chunk1 := {| nattrs := nattrs chunk; rowid := rowid chunk;
                    rowmap := rowmap chunk; cs_nulls := cs_nulls chunk;
                    cs_values := vs |}).
  set (skeys := [ScanKeyInit BTGreaterEqualStrategyNumber (rowid chunk);
                 ScanKeyInit BTLessStrategyNumber (rowid chunk + chunk_size)]).
  set (iscan := index_rescan (index_beginscan rel) skeys).
  set (ts := filter (keys_hold skeys) rel).
  assert (Hrem : scan_remaining iscan = ts) by reflexivity.
  assert (Hkeys : forall t, keys_hold skeys t = true <->
            rowid chunk <= cs_rowid t < rowid chunk + chunk_size).
  { intros t. unfold keys_hold, key_holds, skeys. simpl.
    rewrite andb_true_r, andb_true_iff, Z.geb_leb, Z.leb_le, Z.ltb_lt.
    tauto. }
  rewrite load_tuples_is_fold
    by (rewrite Hrem; unfold ts;
        pose proof (filter_length_le (keys_hold skeys) rel); lia).
  rewrite Hrem.
  destruct (load_fold_plain csidx ts chunk1 (repeat 0 (Z.to_nat chunk_size)) false)
    as (chunk' & buf' & E & Hn' & Hv' & Hval); auto; try lia.
  { apply (list_get_set_same _ _ _ _ Hvs). }
  { apply repeat_length. }
  { apply sorted_filter. exact Hs. }
  { apply Forall_forall. intros t Ht. apply filter_In in Ht.
    destruct Ht as [Hin Hk]. apply Hkeys in Hk.
    exact (Hfit t Hin Hk). }
  rewrite E. cbn [bind].
  assert (Hin_ts : forall t r, In t rel -> rowid chunk <= cs_rowid t ->
            holds_row t r -> r < rowid chunk + chunk_size -> In t ts).
  { intros t r Hin Hlo Hr Hlt. apply filter_In. split; [exact Hin|].
    apply Hkeys. unfold holds_row in Hr. lia. }
  destruct ts as [|t0 ts0] eqn:Ets.
  - assert (Hn1 : 0 <= csidx < Z.of_nat (length (cs_nulls chunk'))).
    { unfold list_get in Hn'. destruct (csidx <? 0) eqn:E0; [discriminate|].
      apply Z.ltb_ge in E0.
      assert (nth_error (cs_nulls chunk') (Z.to_nat csidx) <> None)
        by congruence.
      apply nth_error_Some in H. lia. }
    destruct (list_set_some (cs_nulls chunk') csidx
                (Some (repeat 255 (Z.to_nat (chunk_size / BITS_PER_BYTE)))) Hn1)
      as [ns Hns].
    unfold set_chunk_nulls. rewrite Hns. cbn [bind].
    eexists. split; [reflexivity|].
    intros t r Hin Hlo Hr Hlt. destruct (Hin_ts t r Hin Hlo Hr Hlt).
  - exists chunk'. split; [reflexivity|].
    intros t r Hin Hlo Hr Hlt.
    pose proof (Hin_ts t r Hin Hlo Hr Hlt) as Hints.
    unfold loaded_value. rewrite Hv'. cbn [bind]. rewrite Hn'. cbn [bind].
    unfold chunk_fetch.
    assert (Hi : 0 <= r - rowid chunk < chunk_size)
      by (unfold holds_row in Hr; lia).
    destruct (Hval _ Hi) as [V1 _].
    change (rowid chunk1) with (rowid chunk) in V1.
    replace (rowid chunk + (r - rowid chunk)) with r in V1 by lia.
    rewrite (V1 t Hints Hr).
    rewrite (stored_value_holder rel r t Hs Hin Hr).
    assert (Hk : rowid chunk <= cs_rowid t < rowid chunk + chunk_size)
      by (unfold holds_row in Hr; lia).
    destruct (Hfit t Hin Hk) as (Hnb & _).
    rewrite array_ref_plain; [reflexivity|exact Hnb|].
    unfold holds_row in Hr. lia.
Qed.

End Eager.

(** ** More on the scan of a chunk *)

Lemma scan_bits_none chunk : forall n index st slot st' slot',
  scan_bits n index chunk st slot = Some (st', slot', None) ->
  st' = st /\ slot' = slot /\
  forall j, index <= j < index + Z.of_nat n ->
    bit_is_set (VARBITS (rowmap chunk)) j = false.
Proof.
  induction n as [|n IH]; intros index st slot st' slot' H; simpl in H.
  - inv H. repeat split; auto. lia.
  - destruct (bit_is_set (VARBITS (rowmap chunk)) index) eqn:B.
    + bind_case H. destruct p. discriminate.
    + apply IH in H. destruct H as (-> & -> & Hb). repeat split; auto.
      intros j Hj. destruct (Z.eq_dec j index) as [->|]; auto. apply Hb. lia.
Qed.

Lemma scan_bits_all_clear chunk st slot : forall n index,
  (forall j, index <= j < index + Z.of_nat n ->
     bit_is_set (VARBITS (rowmap chunk)) j = false) ->
  scan_bits n index chunk st slot = Some (st, slot, None).
Proof.
  induction n as [|n IH]; intros index H; simpl; [reflexivity|].
  rewrite H by lia. apply IH. intros j Hj. apply H. lia.
Qed.

Lemma scan_chunk_buffer_dead st slot cell chunk :
  curr_chunk st = Some cell ->
  nth_error (chunk_ready_list st) cell = Some chunk ->
  no_live_row_from chunk (curr_index st) ->
  pgstrom_scan_chunk_buffer st slot = Some (st, slot, None).
Proof.
  intros Hc Hn Hd. unfold pgstrom_scan_chunk_buffer.
  rewrite Hc. cbn [bind]. rewrite Hn. cbn [bind].
  apply scan_bits_all_clear. intros j Hj. apply Hd. lia.
Qed.

(** X13: [pgstrom_scan_chunk_buffer] returns false exactly when the
    current chunk has no live row at or after [curr_index]; it then
    leaves the state and the slot as they were (no column is read, no
    index scan is called). *)
Theorem scan_chunk_buffer_false_iff_no_live_row st slot cell chunk :
  curr_chunk st = Some cell ->
  nth_error (chunk_ready_list st) cell = Some chunk ->
  (no_live_row_from chunk (curr_index st) <->
   pgstrom_scan_chunk_buffer st slot = Some (st, slot, None)) /\
  (forall st' slot',
     pgstrom_scan_chunk_buffer st slot = Some (st', slot', None) ->
     st' = st /\ slot' = slot).
Proof.
  intros Hc Hn. unfold pgstrom_scan_chunk_buffer.
  rewrite Hc. cbn [bind]. rewrite Hn. cbn [bind].
  split; [split|].
  - intros Hd. apply scan_bits_all_clear. intros j Hj. apply Hd. lia.
  - intros H. apply scan_bits_none in H. destruct H as (_ & _ & Hb).
    intros j Hj. apply Hb. lia.
  - intros st' slot' H. apply scan_bits_none in H. tauto.
Qed.

Lemma scan_column_cols_other chunk index r csidx st slot st' slot' j :
  scan_column chunk index r csidx st slot = Some (st', slot') ->
  j <> csidx -> 0 <= j ->
  list_get (cs_cols st') j = list_get (cs_cols st) j.
Proof.
  unfold scan_column. intros H Hj H0.
  destruct (negb (bms_is_member (csidx + 1) (required_cols st))).
  - bind_case H. now inv H.
  - bind_case H. destruct o.
    + bind_case H. bind_case H. now inv H.
    + unfold pgstrom_scan_column_store_at in H.
      bind_case H. bind_case H.
      destruct (pgstrom_scan_column_store c r) as [cs' v].
      bind_case H. bind_case H. inv H. simpl.
      eapply list_get_set_other; eauto.
Qed.

Lemma scan_columns_cols_below chunk index r : forall n c0 st slot st' slot' j,
  scan_columns n c0 chunk index r st slot = Some (st', slot') ->
  0 <= j < c0 -> list_get (cs_cols st') j = list_get (cs_cols st) j.
Proof.
  induction n as [|n IH]; intros c0 st slot st' slot' j H Hj; simpl in H.
  - now inv H.
  - bind_case H. destruct p as [st1 slot1].
    rewrite (IH _ _ _ _ _ j H) by lia.
    eapply scan_column_cols_other; eauto; lia.
Qed.

(** The round of the column loop for the column [csidx] starts from the
    entry the column had before the loop, and what it leaves in the slot
    and in the entry is there after the loop. *)
Lemma scan_columns_at chunk index r :
  forall n c0 st slot st' slot' csidx,
  scan_columns n c0 chunk index r st slot = Some (st', slot') ->
  0 <= c0 -> c0 <= csidx < c0 + Z.of_nat n ->
  exists st1 slot1 st2 slot2,
    scan_column chunk index r csidx st1 slot1 = Some (st2, slot2) /\
    required_cols st1 = required_cols st /\
    list_get (cs_cols st1) csidx = list_get (cs_cols st) csidx /\
    slot_column slot' csidx = slot_column slot2 csidx /\
    list_get (cs_cols st') csidx = list_get (cs_cols st2) csidx.
Proof.
  induction n as [|n IH]; intros c0 st slot st' slot' csidx H H0 Hc;
    simpl in H; [lia|].
  bind_case H. destruct p as [sta slota].
  destruct (Z.eq_dec csidx c0) as [->|Hne].
  - exists st, slot, sta, slota. repeat split; auto.
    + apply (scan_columns_below _ _ _ _ _ _ _ _ _ c0 H). lia.
    + apply (scan_columns_cols_below _ _ _ _ _ _ _ _ _ c0 H). lia.
  - destruct (IH _ _ _ _ _ csidx H) as (st1 & slot1 & st2 & slot2 & Hs & Rq & Hl & R1 & R2);
      try lia.
    exists st1, slot1, st2, slot2. repeat split; auto.
    + apply scan_column_frame in E. destruct E as [P _].
      unfold plan_of in P. inv P. congruence.
    + rewrite Hl. eapply scan_column_cols_other; eauto; lia.
Qed.

Lemma scan_chunk_buffer_none st slot st' slot' :
  pgstrom_scan_chunk_buffer st slot = Some (st', slot', None) ->
  st' = st /\ slot' = slot.
Proof.
  unfold pgstrom_scan_chunk_buffer. intros H.
  bind_case H. bind_case H. apply scan_bits_none in H. tauto.
Qed.

Section RowContent.

Variable chunk_size : Z.
Variable max_async : Z.

Lemma iterate_retry_emits_cols : forall fuel st slot st' slot' r,
  iterate_retry chunk_size max_async fuel st slot
    = Some (Returns st' slot' (Some r)) ->
  exists st0 slot0,
    pgstrom_scan_chunk_buffer st0 slot0 = Some (st', slot', Some r) /\
    plan_of st0 = plan_of st /\ cs_cols st0 = cs_cols st.
Proof.
  induction fuel as [|fuel IH]; intros st slot st' slot' r H; simpl in H;
    [discriminate|].
  destruct (pgstrom_scan_chunk_buffer st slot)
    as [[[st1 slot1] emitted]|] eqn:E; [cbn [bind] in H|discriminate].
  destruct emitted as [r1|].
  - inv H. eauto.
  - apply scan_chunk_buffer_none in E. destruct E as [-> ->].
    bind_case H. destruct p as [st2 n].
    apply load_chunks_frame in E. destruct E as (P2 & C2 & _).
    bind_case H.
    destruct (length (chunk_ready_list st2) <=? S n0)%nat.
    + destruct (chunk_exec_list st2), (chunk_exec_pending_list st2); inv H.
    + apply IH in H. destruct H as (st0 & slot0 & Hs & P0 & C0).
      exists st0, slot0. split; auto.
      unfold plan_of in *. simpl in *. split; congruence.
Qed.

Lemma iterate_emits_cols fuel st slot st' slot' r :
  pgstrom_iterate_foreign_scan chunk_size max_async fuel st slot
    = Some (Returns st' slot' (Some r)) ->
  exists st0 slot0,
    pgstrom_scan_chunk_buffer st0 slot0 = Some (st', slot', Some r) /\
    plan_of st0 = plan_of st /\ cs_cols st0 = cs_cols st.
Proof.
  unfold pgstrom_iterate_foreign_scan. intros H.
  destruct (predictable st <? 0); [inv H|].
  destruct (curr_chunk st).
  - eapply iterate_retry_emits_cols; eauto.
  - bind_case H. destruct p as [st1 loaded].
    apply load_chunks_frame in E. destruct E as (P2 & C2 & _).
    destruct (loaded =? 0); [inv H|].
    apply iterate_retry_emits_cols in H.
    destruct H as (st0 & slot0 & Hs & P0 & C0).
    exists st0, slot0. split; auto.
    unfold plan_of in *. simpl in *. split; congruence.
Qed.

(** For a tuple the iterator returns, the round of the column loop that
    filled the column [csidx] of the slot. *)
Lemma returned_row_round fuel st slot st' slot' r :
  pgstrom_iterate_foreign_scan chunk_size max_async fuel st slot
    = Some (Returns st' slot' (Some r)) ->
  exists cell chunk,
    curr_chunk st' = Some cell /\
    nth_error (chunk_ready_list st') cell = Some chunk /\
    forall csidx, 0 <= csidx < nattrs chunk ->
      exists st1 slot1 st2 slot2,
        scan_column chunk (r - rowid chunk) r csidx st1 slot1
          = Some (st2, slot2) /\
        required_cols st1 = required_cols st /\
        list_get (cs_cols st1) csidx = list_get (cs_cols st) csidx /\
        slot_column slot' csidx = slot_column slot2 csidx /\
        list_get (cs_cols st') csidx = list_get (cs_cols st2) csidx.
Proof.
  intros H. apply iterate_emits_cols in H.
  destruct H as (st0 & slot0 & Hs & P0 & C0).
  pose proof (scan_chunk_buffer_frame _ _ _ _ _ Hs) as [_ C1].
  unfold pgstrom_scan_chunk_buffer in Hs.
  destruct (curr_chunk st0) as [cell|] eqn:Ec; [cbn [bind] in Hs|discriminate].
  destruct (nth_error (chunk_ready_list st0) cell) as [chunk|] eqn:En;
    [cbn [bind] in Hs|discriminate].
  apply scan_bits_emits in Hs.
  destruct Hs as (i & slot1 & Hi & Hr & Hb & Hbefore & Hcols & ->).
  unfold cursor_of in C1. inv C1.
  exists cell, chunk. repeat split; try congruence.
  intros csidx Hc.
  replace (rowid chunk + i - rowid chunk) with i by lia.
  destruct (scan_columns_at _ _ _ _ _ _ _ _ _ csidx Hcols)
    as (sta & slota & stb & slotb & Hs & Rq & Hl & R1 & R2); try lia.
  exists sta, slota, stb, slotb. repeat split; auto.
  - unfold plan_of in P0. inv P0. congruence.
  - congruence.
Qed.

(** X14: in a tuple the iterator returns, a required column that was
    loaded into the chunk is read from the chunk buffer at the offset of
    the row, null map honoured; the cache and the index scan of that
    column are not touched. *)
Theorem loaded_column_is_read_from_chunk fuel st slot st' slot' r :
  pgstrom_iterate_foreign_scan chunk_size max_async fuel st slot
    = Some (Returns st' slot' (Some r)) ->
  exists cell chunk,
    curr_chunk st' = Some cell /\
    nth_error (chunk_ready_list st') cell = Some chunk /\
    forall csidx vals,
      0 <= csidx < nattrs chunk ->
      bms_is_member (csidx + 1) (required_cols st) = true ->
      list_get (cs_values chunk) csidx = Some (Some vals) ->
      slot_column slot' csidx = loaded_value chunk csidx (r - rowid chunk) /\
      list_get (cs_cols st') csidx = list_get (cs_cols st) csidx.
Proof.
  intros H. apply returned_row_round in H.
  destruct H as (cell & chunk & Hc & Hn & Hround).
  exists cell, chunk. repeat split; auto.
  all: destruct (Hround csidx H)
      as (st1 & slot1 & st2 & slot2 & Hs & Rq & Hl & R1 & R2);
    unfold scan_column in Hs; rewrite Rq, H0 in Hs; simpl in Hs;
    rewrite H1 in Hs; cbn [bind] in Hs;
    bind_case Hs; bind_case Hs; inv Hs.
  - rewrite R1. unfold loaded_value. rewrite H1. cbn [bind]. rewrite E.
    cbn [bind]. eapply slot_store_same; eauto.
  - congruence.
Qed.

(** X15: in a tuple the iterator returns, a required column that the
    column loop reaches (its index is below [chunk->nattrs], the number
    of attributes of the rowid relation) and that was not loaded into
    the chunk holds what [pgstrom_scan_column_store] returns for the row
    from the entry the column had before the call, and the entry after
    the call is the one that lookup leaves. *)
Theorem unloaded_column_is_looked_up fuel st slot st' slot' r :
  pgstrom_iterate_foreign_scan chunk_size max_async fuel st slot
    = Some (Returns st' slot' (Some r)) ->
  exists cell chunk,
    curr_chunk st' = Some cell /\
    nth_error (chunk_ready_list st') cell = Some chunk /\
    forall csidx,
      0 <= csidx < nattrs chunk ->
      bms_is_member (csidx + 1) (required_cols st) = true ->
      list_get (cs_values chunk) csidx = Some None ->
      exists cs,
        list_get (cs_cols st) csidx = Some (Some cs) /\
        slot_column slot' csidx
          = Some (snd (pgstrom_scan_column_store cs r)) /\
        list_get (cs_cols st') csidx
          = Some (Some (fst (pgstrom_scan_column_store cs r))).
Proof.
  intros H. apply returned_row_round in H.
  destruct H as (cell & chunk & Hc & Hn & Hround).
  exists cell, chunk. repeat split; auto.
  intros csidx Hi Hm Hv.
  destruct (Hround csidx Hi)
    as (st1 & slot1 & st2 & slot2 & Hs & Rq & Hl & R1 & R2).
  unfold scan_column in Hs. rewrite Rq, Hm in Hs. simpl in Hs.
  rewrite Hv in Hs. cbn [bind] in Hs.
  unfold pgstrom_scan_column_store_at in Hs.
  bind_case Hs. bind_case Hs.
  destruct (pgstrom_scan_column_store c r) as [cs' v] eqn:El.
  bind_case Hs. bind_case Hs. inv Hs.
  exists c. rewrite El. simpl. repeat split.
  - congruence.
  - rewrite R1. eapply slot_store_same; eauto.
  - rewrite R2. simpl. eapply list_get_set_same; eauto.
Qed.

End RowContent.

(** ** More on the iterator *)

Section Iterator.

Variable chunk_size : Z.
Variable max_async : Z.

Lemma load_chunks_appends : forall n st loaded st' loaded',
  load_chunks chunk_size n st loaded = Some (st', loaded') ->
  exists l, chunk_ready_list st' = chunk_ready_list st ++ l.
Proof.
  induction n as [|n IH]; intros st loaded st' loaded' H; simpl in H.
  - inv H. exists []. now rewrite app_nil_r.
  - unfold heap_getnext in H.
    destruct (rs_rest (ri_scan st)) as [|t rest].
    + inv H. exists []. simpl. now rewrite app_nil_r.
    + cbn [set_ri_scan predictable clause_cols chunk_ready_list] in H.
      destruct (predictable st =? 0).
      * bind_case H. apply IH in H. destruct H as [l Hl].
        simpl in Hl. rewrite <- app_assoc in Hl. eauto.
      * apply IH in H. destruct H as [l Hl].
        simpl in Hl. rewrite <- app_assoc in Hl. eauto.
Qed.

Lemma iterate_retry_appends : forall fuel st slot st' slot' e,
  iterate_retry chunk_size max_async fuel st slot
    = Some (Returns st' slot' e) ->
  exists l, chunk_ready_list st' = chunk_ready_list st ++ l.
Proof.
  induction fuel as [|fuel IH]; intros st slot st' slot' e H; simpl in H;
    [discriminate|].
  bind_case H. destruct p as [[st1 slot1] emitted].
  apply scan_chunk_buffer_frame in E. destruct E as [_ C1].
  unfold cursor_of in C1. inv C1.
  destruct emitted as [r|].
  - inv H. exists []. rewrite app_nil_r. congruence.
  - bind_case H. destruct p as [st2 n].
    apply load_chunks_appends in E. destruct E as [l1 L1].
    bind_case H.
    destruct (length (chunk_ready_list st2) <=? S n0)%nat.
    + destruct (chunk_exec_list st2), (chunk_exec_pending_list st2); inv H.
      exists l1. congruence.
    + apply IH in H. destruct H as [l2 L2]. simpl in L2.
      exists (l1 ++ l2). rewrite L2, L1, app_assoc. congruence.
Qed.

(** X16: a call of the iterator removes no chunk from the ready list and
    changes none: the list after the call is the list before it with
    the chunks loaded during the call appended.  A chunk whose rows have
    all been passed stays on the list. *)
Theorem iterate_only_appends_chunks fuel st slot st' slot' e :
  pgstrom_iterate_foreign_scan chunk_size max_async fuel st slot
    = Some (Returns st' slot' e) ->
  exists l, chunk_ready_list st' = chunk_ready_list st ++ l.
Proof.
  unfold pgstrom_iterate_foreign_scan. intros H.
  destruct (predictable st <? 0).
  { inv H. exists []. now rewrite app_nil_r. }
  destruct (curr_chunk st).
  - eapply iterate_retry_appends; eauto.
  - bind_case H. destruct p as [st1 loaded].
    apply load_chunks_appends in E. destruct E as [l1 L1].
    destruct (loaded =? 0).
    + inv H. eauto.
    + apply iterate_retry_appends in H. destruct H as [l2 L2]. simpl in L2.
      exists (l1 ++ l2). rewrite L2, L1, app_assoc. reflexivity.
Qed.

Lemma iterate_retry_cursor : forall fuel st slot st' slot' e,
  iterate_retry chunk_size max_async fuel st slot
    = Some (Returns st' slot' e) ->
  cursor_passed_dead_chunks st -> cursor_passed_dead_chunks st'.
Proof.
  induction fuel as [|fuel IH]; intros st slot st' slot' e H Hinv;
    simpl in H; [discriminate|].
  destruct (pgstrom_scan_chunk_buffer st slot)
    as [[[st1 slot1] emitted]|] eqn:E; [cbn [bind] in H|discriminate].
  destruct emitted as [r|].
  - inv H. apply scan_chunk_buffer_frame in E. destruct E as [_ C1].
    unfold cursor_of in C1. inv C1.
    unfold cursor_passed_dead_chunks in *. rewrite H1, H2, H3. exact Hinv.
  - pose proof E as E'. apply scan_chunk_buffer_none in E'.
    destruct E' as [-> ->].
    unfold pgstrom_scan_chunk_buffer in E.
    destruct (curr_chunk st) as [cell|] eqn:Ec; [cbn [bind] in E|discriminate].
    destruct (nth_error (chunk_ready_list st) cell) as [chunk|] eqn:En;
      [cbn [bind] in E|discriminate].
    apply scan_bits_none in E. destruct E as (_ & _ & Hclear).
    destruct Hinv as [Hidx Hdead]. rewrite Ec in Hdead.
    assert (Hchunk : no_live_row_from chunk 0).
    { intros j Hj. apply Hclear. rewrite Hidx. lia. }
    bind_case H. destruct p as [st2 n].
    pose proof (load_chunks_appends _ _ _ _ _ E) as [l L].
    apply load_chunks_frame in E.
    destruct E as (_ & _ & CC & CI & _).
    rewrite CC, Ec in H. cbn [bind] in H.
    assert (Hpre : forall k, (k <= cell)%nat ->
              nth_error (chunk_ready_list st2) k
              = nth_error (chunk_ready_list st) k).
    { intros k Hk. rewrite L. apply nth_error_app1.
      assert (nth_error (chunk_ready_list st) cell <> None) by congruence.
      apply nth_error_Some in H0. lia. }
    destruct (length (chunk_ready_list st2) <=? S cell)%nat.
    + destruct (chunk_exec_list st2), (chunk_exec_pending_list st2); inv H.
      split; [congruence|]. rewrite CC, Ec.
      intros k c Hk Hn. rewrite Hpre in Hn by lia. eauto.
    + apply IH in H; [exact H|].
      split; [reflexivity|]. simpl.
      intros k c Hk Hn. rewrite Hpre in Hn by lia.
      destruct (Nat.eq_dec k cell) as [->|Hne].
      * rewrite En in Hn. inv Hn. exact Hchunk.
      * apply (Hdead k c); [lia|exact Hn].
Qed.

Lemma reachable_cursor st :
  reachable chunk_size max_async st -> cursor_passed_dead_chunks st.
Proof.
  induction 1 as [cat base fdw cl tr st H | fuel st slot st' slot' e Hr IH H].
  - unfold pgstrom_begin_foreign_scan in H.
    destruct (pgstrom_init_exec_state fdw cl) as [e|[info program]]; [inv H|].
    destruct (pgstrom_open_relation_set cat base true []) as [tr1 [e|rs]];
      [inv H|].
    destruct (begin_column_scans _ _ _ _); inv H.
    split; simpl; auto.
  - unfold pgstrom_iterate_foreign_scan in H.
    destruct (predictable st <? 0); [inv H; exact IH|].
    destruct (curr_chunk st) eqn:Ec.
    + eapply iterate_retry_cursor; eauto.
    + bind_case H. destruct p as [st1 loaded].
      apply load_chunks_frame in E.
      destruct E as (_ & _ & CC & CI & _).
      destruct (loaded =? 0).
      * inv H. destruct IH as [I1 _]. split; [congruence|].
        rewrite CC, Ec. exact I.
      * eapply iterate_retry_cursor; eauto.
        split; simpl; [reflexivity|]. intros k c Hk. lia.
Qed.

(** X17: every tuple that the iterator returns in the course of a scan is
    the first live row of the first chunk, in the order of the rowid
    relation, that has a live row: no chunk before the current one has
    a live row, and no row of the current chunk before the returned one
    is live. *)
Theorem returned_row_is_first_live_row fuel st slot st' slot' r :
  reachable chunk_size max_async st ->
  pgstrom_iterate_foreign_scan chunk_size max_async fuel st slot
    = Some (Returns st' slot' (Some r)) ->
  exists cell chunk i,
    nth_error (chunk_ready_list st') cell = Some chunk /\
    0 <= i < VARBITLEN (rowmap chunk) /\
    r = rowid chunk + i /\
    bit_is_set (VARBITS (rowmap chunk)) i = true /\
    (forall j, 0 <= j < i -> bit_is_set (VARBITS (rowmap chunk)) j = false) /\
    (forall k c, (k < cell)%nat ->
       nth_error (chunk_ready_list st') k = Some c -> no_live_row_from c 0).
Proof.
  intros Hr H.
  assert (Hr' : reachable chunk_size max_async st')
    by (eapply reach_iterate; eauto).
  apply reachable_cursor in Hr'. destruct Hr' as [Hidx Hdead].
  apply returned_row_is_live in H.
  destruct H as (cell & chunk & i & Hc & Hn & Hi & Hrow & Hb & Hbefore).
  rewrite Hidx in *. rewrite Hc in Hdead.
  exists cell, chunk, i. repeat split; auto; try lia.
Qed.

End Iterator.

Section IteratorEnds.

Variable chunk_size : Z.
Variable max_async : Z.

Lemma iterate_retry_slot : forall fuel st slot st' slot' e,
  iterate_retry chunk_size max_async fuel st slot
    = Some (Returns st' slot' e) ->
  tts_isempty slot = true ->
  tts_isempty slot' = match e with Some _ => false | None => true end.
Proof.
  induction fuel as [|fuel IH]; intros st slot st' slot' e H Hs; simpl in H;
    [discriminate|].
  destruct (pgstrom_scan_chunk_buffer st slot)
    as [[[st1 slot1] emitted]|] eqn:E; [cbn [bind] in H|discriminate].
  destruct emitted as [r|].
  - inv H. unfold pgstrom_scan_chunk_buffer in E.
    bind_case E. bind_case E. apply scan_bits_emits in E.
    destruct E as (i & s1 & _ & _ & _ & _ & _ & ->). reflexivity.
  - apply scan_chunk_buffer_none in E. destruct E as [-> ->].
    bind_case H. destruct p as [st2 n]. bind_case H.
    destruct (length (chunk_ready_list st2) <=? S n0)%nat.
    + destruct (chunk_exec_list st2), (chunk_exec_pending_list st2); inv H.
      exact Hs.
    + eapply IH; eauto.
Qed.

(** X18: the slot the iterator returns is empty exactly when the call
    returns no tuple: a returned tuple is stored by
    [ExecStoreVirtualTuple], and the end of the scan is the slot that
    [ExecClearTuple] left. *)
Theorem returned_slot_is_empty_iff_no_row fuel st slot st' slot' e :
  pgstrom_iterate_foreign_scan chunk_size max_async fuel st slot
    = Some (Returns st' slot' e) ->
  tts_isempty slot' = match e with Some _ => false | None => true end.
Proof.
  unfold pgstrom_iterate_foreign_scan. intros H.
  destruct (predictable st <? 0); [inv H; reflexivity|].
  destruct (curr_chunk st).
  - eapply iterate_retry_slot; eauto.
  - bind_case H. destruct p as [st1 loaded].
    destruct (loaded =? 0); [inv H; reflexivity|].
    eapply iterate_retry_slot; eauto.
Qed.

(** X19: when [pgstrom_max_async_chunks] does not exceed the number of
    chunks on the executing list (in particular when it is 0 or
    negative), the first call of the iterator reads no tuple of the
    rowid relation and returns the end of the scan, whatever rows the
    table has; the state is unchanged, so every later call does the
    same. *)
Theorem no_chunk_allowed_means_no_row fuel st slot :
  curr_chunk st = None ->
  max_async <= Z.of_nat (length (chunk_exec_list st)) ->
  pgstrom_iterate_foreign_scan chunk_size max_async fuel st slot
    = Some (Returns st (ExecClearTuple slot) None).
Proof.
  intros Hc Hm. unfold pgstrom_iterate_foreign_scan.
  destruct (predictable st <? 0); [reflexivity|].
  rewrite Hc. unfold pgstrom_load_chunk_buffer.
  replace (Z.to_nat (max_async - Z.of_nat (length (chunk_exec_list st))))
    with O by lia.
  reflexivity.
Qed.

Lemma new_chunk_dead st t :
  no_live_row_in t -> no_live_row_from (new_chunk st t) 0.
Proof. intros H j Hj. apply H. exact Hj. Qed.

Lemma load_one_chunk st :
  chunk_exec_list st = [] ->
  max_async = 1 ->
  predictable st <> 0 ->
  exists st',
    pgstrom_load_chunk_buffer chunk_size st
      (max_async - Z.of_nat (length (chunk_exec_list st)))
      = Some (st', Z.of_nat (Nat.min 1 (length (rs_rest (ri_scan st))))) /\
    plan_of st' = plan_of st /\
    chunk_ready_list st'
      = chunk_ready_list st ++
        map (new_chunk st) (firstn 1 (rs_rest (ri_scan st))) /\
    rs_rest (ri_scan st')
      = match rs_rest (ri_scan st) with
        | [] => rs_rel (ri_scan st)
        | _ :: rest => rest
        end /\
    rs_rel (ri_scan st') = rs_rel (ri_scan st) /\
    curr_chunk st' = curr_chunk st /\ curr_index st' = curr_index st.
Proof.
  intros He Hm Hp. rewrite He, Hm. simpl.
  destruct (load_chunks_predictable chunk_size 1 st 0 Hp)
    as (st' & El & Hready & Hrs & Hrel & _ & Hcur).
  cbn [Z.add] in El.
  exists st'. unfold pgstrom_load_chunk_buffer.
  change (Z.to_nat 1) with 1%nat.
  pose proof (load_chunks_frame _ _ _ _ _ _ El) as (P & _).
  split; [exact El|]. split; [exact P|].
  inv Hcur.
  destruct (rs_rest (ri_scan st)) as [|t rest]; simpl in *; auto 7.
Qed.

(** With one chunk allowed in flight and the cursor on the last chunk of
    the ready list, the rounds of [retry:] over chunks without a live
    row load one chunk each and end when the rowid scan runs off the
    end. *)
Lemma retry_one_at_a_time : forall fuel st slot cell,
  (length (rs_rest (ri_scan st)) < fuel)%nat ->
  predictable st <> 0 ->
  max_async = 1 ->
  chunk_exec_list st = [] ->
  chunk_exec_pending_list st = [] ->
  curr_index st = 0 ->
  curr_chunk st = Some cell ->
  S cell = length (chunk_ready_list st) ->
  (forall c, nth_error (chunk_ready_list st) cell = Some c ->
             no_live_row_from c 0) ->
  Forall no_live_row_in (rs_rest (ri_scan st)) ->
  exists st',
    iterate_retry chunk_size max_async fuel st slot
      = Some (Returns st' slot None) /\
    rs_rest (ri_scan st') = rs_rel (ri_scan st) /\
    length (chunk_ready_list st')
      = (length (chunk_ready_list st) + length (rs_rest (ri_scan st)))%nat.
Proof.
  induction fuel as [|fuel IH];
    intros st slot cell Hf Hp Hmax He Hpd Hi Hc Hlast Hdead Hrest; [lia|].
  cbn [iterate_retry].
  destruct (nth_error (chunk_ready_list st) cell) as [chunk|] eqn:En;
    [|apply nth_error_None in En; lia].
  rewrite (scan_chunk_buffer_dead st slot cell chunk Hc En)
    by (rewrite Hi; apply Hdead; reflexivity).
  cbn [bind].
  destruct (load_one_chunk st He Hmax Hp)
    as (st2 & El & P2 & Hready & Hrs & Hrel & Hcc & Hci).
  rewrite El. cbn [bind]. rewrite Hcc, Hc. cbn [bind].
  unfold plan_of in P2.
  assert (Ee : chunk_exec_list st2 = []) by congruence.
  assert (Ep : chunk_exec_pending_list st2 = []) by congruence.
  destruct (rs_rest (ri_scan st)) as [|t rest] eqn:R.
  - simpl in Hready. rewrite app_nil_r in Hready. rewrite Hready.
    replace (length (chunk_ready_list st) <=? S cell)%nat with true
      by (symmetry; apply Nat.leb_le; lia).
    rewrite Ee, Ep. exists st2. split; [reflexivity|].
    split; [exact Hrs|]. rewrite Hready. simpl. lia.
  - simpl in Hready.
    assert (L2 : length (chunk_ready_list st2)
                 = S (length (chunk_ready_list st)))
      by (rewrite Hready, length_app; simpl; lia).
    replace (length (chunk_ready_list st2) <=? S cell)%nat with false
      by (symmetry; apply Nat.leb_gt; lia).
    apply Forall_cons_iff in Hrest. destruct Hrest as [Ht Hrest'].
    destruct (IH (set_cursor st2 (Some (S cell)) 0) slot (S cell))
      as (st' & Hr & Hnil & Hlen); simpl; auto; try congruence.
    + rewrite Hrs. simpl in Hf. lia.
    + intros c Hn.
      change (nth_error (chunk_ready_list st2) (S cell) = Some c) in Hn.
      rewrite Hready, Hlast in Hn.
      rewrite nth_error_app2 in Hn by lia.
      rewrite Nat.sub_diag in Hn. simpl in Hn. inv Hn.
      apply new_chunk_dead. exact Ht.
    + exists st'. split; [exact Hr|]. simpl in Hnil, Hlen.
      split; [congruence|]. rewrite Hlen, Hrs, L2. simpl. lia.
Qed.

(** With two chunks or more allowed in flight, the rounds of [retry:]
    over chunks without a live row never end when the relation has no
    live row at all: the ready list grows faster than the cursor moves,
    and the rowid scan starts over each time it has run off the end. *)
Lemma retry_dead_for_ever : forall fuel st slot cell,
  predictable st <> 0 ->
  2 <= max_async ->
  chunk_exec_list st = [] ->
  curr_index st = 0 ->
  curr_chunk st = Some cell ->
  (cell < length (chunk_ready_list st))%nat ->
  (forall k c, (cell <= k)%nat ->
     nth_error (chunk_ready_list st) k = Some c -> no_live_row_from c 0) ->
  Forall no_live_row_in (rs_rest (ri_scan st)) ->
  Forall no_live_row_in (rs_rel (ri_scan st)) ->
  rs_rel (ri_scan st) <> [] ->
  (rs_rest (ri_scan st) = [] -> (S cell < length (chunk_ready_list st))%nat) ->
  iterate_retry chunk_size max_async fuel st slot = Some OutOfFuel.
Proof.
  induction fuel as [|fuel IH];
    intros st slot cell Hp Hmax He Hi Hc Hlt Hdead Hrest Hrel Hne Hnext;
    [reflexivity|].
  cbn [iterate_retry].
  destruct (nth_error (chunk_ready_list st) cell) as [chunk|] eqn:En;
    [|apply nth_error_None in En; lia].
  rewrite (scan_chunk_buffer_dead st slot cell chunk Hc En)
    by (rewrite Hi; eapply Hdead; eauto).
  cbn [bind].
  destruct (load_chunks_predictable chunk_size (Z.to_nat max_async) st 0 Hp)
    as (st2 & El & Hready & Hrs & Hrl & _ & Hcur).
  cbn [Z.add] in El.
  fold (pgstrom_load_chunk_buffer chunk_size st max_async) in El.
  replace (max_async - Z.of_nat (length (chunk_exec_list st)))
    with max_async by (rewrite He; simpl; lia).
  pose proof El as El'. unfold pgstrom_load_chunk_buffer in El'.
  apply load_chunks_frame in El'. destruct El' as (P2 & _).
  rewrite El. cbn [bind]. inv Hcur. rewrite H0, Hc. cbn [bind].
  set (m := Z.to_nat max_async) in *.
  assert (Hm : (2 <= m)%nat) by (unfold m; lia).
  set (k := Nat.min m (length (rs_rest (ri_scan st)))) in *.
  assert (L2 : length (chunk_ready_list st2)
               = (length (chunk_ready_list st) + k)%nat).
  { rewrite Hready, length_app, length_map, length_firstn. unfold k. lia. }
  assert (Hk : rs_rest (ri_scan st) <> [] -> (1 <= k)%nat).
  { unfold k. destruct (rs_rest (ri_scan st)); [congruence|]. simpl. lia. }
  assert (Hgt : (S cell < length (chunk_ready_list st2))%nat).
  { destruct (rs_rest (ri_scan st)) eqn:R.
    - specialize (Hnext eq_refl). lia.
    - assert (1 <= k)%nat by (apply Hk; discriminate). lia. }
  replace (length (chunk_ready_list st2) <=? S cell)%nat with false
    by (symmetry; apply Nat.leb_gt; lia).
  unfold plan_of in P2.
  apply (IH (set_cursor st2 (Some (S cell)) 0) slot (S cell)); simpl;
    auto; try congruence.
  - intros j c Hj Hn. rewrite Hready in Hn.
    destruct (Nat.lt_ge_cases j (length (chunk_ready_list st))) as [Hjl|Hjg].
    + rewrite nth_error_app1 in Hn by exact Hjl.
      apply (Hdead j c); [lia|exact Hn].
    + rewrite nth_error_app2 in Hn by exact Hjg.
      apply nth_error_In in Hn. apply in_map_iff in Hn.
      destruct Hn as (t & <- & Ht). apply new_chunk_dead.
      rewrite Forall_forall in Hrest. apply Hrest.
      rewrite <- (firstn_skipn k (rs_rest (ri_scan st))).
      apply in_or_app. left. exact Ht.
  - rewrite Hrs. destruct (length (rs_rest (ri_scan st)) <? m)%nat;
      [exact Hrel|].
    rewrite <- (firstn_skipn k (rs_rest (ri_scan st))) in Hrest.
    apply Forall_app in Hrest. tauto.
  - rewrite Hrs.
    destruct (length (rs_rest (ri_scan st)) <? m)%nat eqn:Elt;
      [intros Hnil; congruence|].
    apply Nat.ltb_ge in Elt. intros Hnil.
    assert (length (skipn k (rs_rest (ri_scan st))) = O)
      by (rewrite Hnil; reflexivity).
    rewrite length_skipn in H. unfold k in *. lia.
Qed.

End IteratorEnds.

Section DeadTable.

Variable chunk_size : Z.
Variable max_async : Z.

(** X20: a predictable scan of a table none of whose chunks has a live
    row, with one chunk allowed in flight.  The first call of the
    iterator reads the rowid relation to its end, one chunk for each
    tuple, and returns the end of the scan, within as many rounds of
    [retry:] as the relation has tuples; the rowid scan, which has run
    off the end, is left at the beginning of the relation. *)
Theorem scan_without_live_rows_ends fuel st slot :
  curr_chunk st = None ->
  chunk_ready_list st = [] ->
  chunk_exec_list st = [] ->
  chunk_exec_pending_list st = [] ->
  curr_index st = 0 ->
  0 < predictable st ->
  max_async = 1 ->
  Forall no_live_row_in (rs_rest (ri_scan st)) ->
  (length (rs_rest (ri_scan st)) <= fuel)%nat ->
  exists st',
    pgstrom_iterate_foreign_scan chunk_size max_async fuel st slot
      = Some (Returns st' (ExecClearTuple slot) None) /\
    rs_rest (ri_scan st') = rs_rel (ri_scan st) /\
    length (chunk_ready_list st') = length (rs_rest (ri_scan st)).
Proof.
  intros Hc Hr He Hpd Hi Hp Hmax Hdead Hf.
  unfold pgstrom_iterate_foreign_scan.
  destruct (predictable st <? 0) eqn:E; [apply Z.ltb_lt in E; lia|].
  rewrite Hc.
  assert (Hp' : predictable st <> 0) by lia.
  destruct (load_one_chunk chunk_size max_async st He Hmax Hp')
    as (st1 & El & P1 & Hready & Hrs & Hrel & Hcc & Hci).
  rewrite El. cbn [bind].
  rewrite Hr in Hready. simpl in Hready.
  unfold plan_of in P1.
  destruct (rs_rest (ri_scan st)) as [|t rest] eqn:R.
  - simpl. exists st1. split; [reflexivity|].
    rewrite Hrs, Hready. auto.
  - simpl. simpl in Hready.
    apply Forall_cons_iff in Hdead. destruct Hdead as [Ht Hrest].
    destruct (retry_one_at_a_time chunk_size max_async fuel
                (set_cursor st1 (Some O) 0) (ExecClearTuple slot) O)
      as (st' & Hret & Hnil & Hlen); simpl; auto; try congruence.
    + rewrite Hrs. simpl in Hf. lia.
    + rewrite Hready. reflexivity.
    + intros c Hn. rewrite Hready in Hn. simpl in Hn. inv Hn.
      apply new_chunk_dead. exact Ht.
    + exists st'. split; [exact Hret|]. simpl in Hnil, Hlen.
      split; [congruence|]. rewrite Hlen, Hready, Hrs. simpl. lia.
Qed.

(** X25: a predictable scan of a table that has tuples in its rowid
    relation and no live row, with two chunks or more allowed in flight.
    The first call of the iterator does not return: each round of
    [retry:] finds a next chunk on the ready list, because the loader
    adds chunks faster than the cursor passes them and reads the rowid
    relation again each time its scan has run off the end.  Whatever the
    number of rounds followed, the call is still in the loop. *)
Theorem scan_without_live_rows_never_ends fuel st slot :
  curr_chunk st = None ->
  chunk_ready_list st = [] ->
  chunk_exec_list st = [] ->
  0 < predictable st ->
  2 <= max_async ->
  rs_rest (ri_scan st) <> [] ->
  rs_rel (ri_scan st) <> [] ->
  Forall no_live_row_in (rs_rest (ri_scan st)) ->
  Forall no_live_row_in (rs_rel (ri_scan st)) ->
  pgstrom_iterate_foreign_scan chunk_size max_async fuel st slot
    = Some OutOfFuel.
Proof.
  intros Hc Hr He Hp Hmax Hne Hrne Hdead Hrel.
  unfold pgstrom_iterate_foreign_scan.
  destruct (predictable st <? 0) eqn:E; [apply Z.ltb_lt in E; lia|].
  rewrite Hc.
  assert (Hp' : predictable st <> 0) by lia.
  destruct (load_chunks_predictable chunk_size (Z.to_nat max_async) st 0 Hp')
    as (st1 & El & Hready & Hrs & Hrl & _ & Hcur).
  cbn [Z.add] in El.
  fold (pgstrom_load_chunk_buffer chunk_size st max_async) in El.
  replace (max_async - Z.of_nat (length (chunk_exec_list st)))
    with max_async by (rewrite He; simpl; lia).
  rewrite El. cbn [bind].
  pose proof El as El'. unfold pgstrom_load_chunk_buffer in El'.
  apply load_chunks_frame in El'. destruct El' as (P1 & _).
  unfold plan_of in P1.
  set (m := Z.to_nat max_async) in *.
  assert (Hm : (2 <= m)%nat) by (unfold m; lia).
  set (k := Nat.min m (length (rs_rest (ri_scan st)))) in *.
  assert (Hk : (1 <= k)%nat).
  { unfold k. destruct (rs_rest (ri_scan st)); [congruence|]. simpl. lia. }
  rewrite Hr in Hready. simpl in Hready.
  assert (L1 : length (chunk_ready_list st1) = k).
  { rewrite Hready, length_map, length_firstn. unfold k. lia. }
  destruct (Z.of_nat k =? 0) eqn:Ek; [apply Z.eqb_eq in Ek; lia|].
  apply (retry_dead_for_ever chunk_size max_async fuel
           (set_cursor st1 (Some O) 0) (ExecClearTuple slot) O); simpl;
    auto; try congruence; try lia.
  - intros j c _ Hn. rewrite Hready in Hn.
    apply nth_error_In in Hn. apply in_map_iff in Hn.
    destruct Hn as (t & <- & Ht). apply new_chunk_dead.
    rewrite Forall_forall in Hdead. apply Hdead.
    rewrite <- (firstn_skipn k (rs_rest (ri_scan st))).
    apply in_or_app. left. exact Ht.
  - rewrite Hrs. destruct (length (rs_rest (ri_scan st)) <? m)%nat;
      [exact Hrel|].
    rewrite <- (firstn_skipn k (rs_rest (ri_scan st))) in Hdead.
    apply Forall_app in Hdead. tauto.
  - rewrite Hrs.
    destruct (length (rs_rest (ri_scan st)) <? m)%nat eqn:Elt;
      [intros Hnil; congruence|].
    apply Nat.ltb_ge in Elt. intros Hnil.
    assert (length (skipn k (rs_rest (ri_scan st))) = O)
      by (rewrite Hnil; reflexivity).
    rewrite length_skipn in H. unfold k in *. lia.
Qed.

End DeadTable.

(** ** Ending a scan *)

Lemma close_mirrors_open cat base with_index tr rs :
  pgstrom_open_relation_set cat base with_index [] = (tr, inr rs) ->
  pgstrom_close_relation_set rs [] = map Closed (opened_handles tr).
Proof.
  unfold pgstrom_open_relation_set.
  destruct (negb (relkind_eqb (base_relkind base) RELKIND_FOREIGN_TABLE));
    [discriminate|].
  destruct (negb (base_is_pgstrom base)); [discriminate|].
  unfold obind at 1.
  destruct (open_as cat NameRowid _ _ []) as [tr1 [e|rrel]] eqn:E1;
    [discriminate|].
  apply open_as_trace in E1. subst tr1.
  unfold obind at 1.
  match goal with
  | |- context [(if with_index then ?a else ?b) ?t] =>
      destruct ((if with_index then a else b) t) as [tr2 [e|ridx]] eqn:E2;
        [discriminate|]
  end.
  assert (T2 : tr2 = ([] ++ [Opened rrel]) ++
                     map Opened (match ridx with Some x => [x] | None => [] end)).
  { destruct with_index.
    - unfold obind in E2.
      destruct (open_as cat NameRowidIdx _ _ _) as [tr3 [e|r]] eqn:E3;
        [discriminate|].
      apply open_as_trace in E3. unfold oret in E2. inv E2. reflexivity.
    - unfold oret in E2. inv E2. simpl. reflexivity. }
  clear E2. subst tr2.
  unfold obind at 1.
  destruct (open_columns cat with_index 0 (base_attrs base) _)
    as [tr3 [e|cols]] eqn:E3; [discriminate|].
  apply open_columns_trace in E3. destruct E3 as (L1 & L2 & ->).
  destruct (cat NameSeq); [|discriminate].
  intros H; inv H.
  unfold pgstrom_close_relation_set, RelationGetNumberOfAttributes. simpl.
  rewrite (close_columns_trace _ (length (base_attrs base)) 0
             (fst cols) (snd cols)); auto.
  rewrite close_if_open_trace. unfold relation_close. simpl.
  rewrite !opened_handles_app.
  rewrite !(proj1 (handles_of_opened _)). simpl.
  rewrite map_app. reflexivity.
Qed.

Lemma open_result_base cat base with_index tr tr' rs :
  pgstrom_open_relation_set cat base with_index tr = (tr', inr rs) ->
  base_rel rs = base.
Proof.
  unfold pgstrom_open_relation_set.
  destruct (negb (relkind_eqb (base_relkind base) RELKIND_FOREIGN_TABLE));
    [discriminate|].
  destruct (negb (base_is_pgstrom base)); [discriminate|].
  unfold obind at 1.
  destruct (open_as cat NameRowid _ _ tr) as [tr1 [e|rrel]]; [discriminate|].
  unfold obind at 1.
  match goal with
  | |- context [(if with_index then ?a else ?b) ?t] =>
      destruct ((if with_index then a else b) t) as [tr2 [e|ridx]];
        [discriminate|]
  end.
  unfold obind at 1.
  destruct (open_columns cat with_index 0 (base_attrs base) _)
    as [tr3 [e|cols]]; [discriminate|].
  destruct (cat NameSeq); [|discriminate].
  intros H; inv H. reflexivity.
Qed.

Lemma end_column_scans_filter cols : forall n i,
  end_column_scans n i cols
  = map IndexEndScan
        (filter (fun j => has_scan (nth j cols None)) (seq i n)).
Proof.
  induction n as [|n IH]; intros i; simpl; [reflexivity|].
  rewrite IH. destruct (nth i cols None); reflexivity.
Qed.

Lemma nth_has_scan cols j :
  has_scan (nth j cols None) = nth j (map has_scan cols) false.
Proof.
  change false with (has_scan None). symmetry. apply map_nth.
Qed.

Lemma begin_device_program cat base fdw_private cl_ok tr st :
  pgstrom_begin_foreign_scan cat base fdw_private cl_ok false
    = (tr, Begun st) ->
  device_program st = (predictable st =? 0) /\
  pgstrom_open_relation_set cat base true [] = (tr, inr (relset st)).
Proof.
  unfold pgstrom_begin_foreign_scan, pgstrom_init_exec_state. intros H.
  destruct (read_fdw_private fdw_private _) as [e|info]; [inv H|].
  destruct (pi_predictable info =? 0) eqn:Ep; simpl in H.
  - destruct cl_ok; [|inv H].
    destruct (pgstrom_open_relation_set cat base true []) as [tr1 [e|rs]];
      [inv H|].
    destruct (begin_column_scans _ _ _ _); inv H. simpl. rewrite Ep. auto.
  - destruct (pgstrom_open_relation_set cat base true []) as [tr1 [e|rs]];
      [inv H|].
    destruct (begin_column_scans _ _ _ _); inv H. simpl. rewrite Ep. auto.
Qed.

(** X21: [pgboost_end_foreign_scan] on the state in which a scan began.
    It ends the index scan of each column on which
    [pgstrom_begin_foreign_scan] began one (the columns whose number its
    loop reads from [required_cols] as an [AttrNumber] and that are not
    clause columns), in the order of the columns, then the rowid scan;
    it closes the relations that [pgstrom_begin_foreign_scan] opened,
    each once and in the order of their opening; and it releases the
    command queues and then the program exactly when the query is not
    predictable. *)
Theorem end_releases_what_begin_acquired
  num_devices cat base fdw_private cl_ok tr st :
  pgstrom_begin_foreign_scan cat base fdw_private cl_ok false
    = (tr, Begun st) ->
  pgboost_end_foreign_scan num_devices (Some st)
  = map IndexEndScan
      (filter (fun j =>
                 bms_is_member (Z.of_nat j + 1) (attnums (required_cols st)) &&
                 negb (bms_is_member (Z.of_nat j + 1) (clause_cols st)))
              (seq 0 (length (base_attrs base)))) ++
    [HeapEndScan] ++
    map (fun r => RelationEvent (Closed r)) (opened_handles tr) ++
    (if predictable st =? 0
     then map ReleaseCommandQueue (seq 0 num_devices) ++ [ReleaseProgram]
     else []).
Proof.
  intros H.
  destruct (begin_device_program _ _ _ _ _ _ H) as [Hd Ho].
  pose proof (begin_column_entries _ _ _ _ _ _ H) as (L & Hcols & _).
  pose proof (open_result_base _ _ _ _ _ _ Ho) as Hb.
  unfold pgboost_end_foreign_scan.
  rewrite (close_mirrors_open _ _ _ _ _ Ho), Hd, map_map.
  unfold RelationGetNumberOfAttributes. rewrite Hb.
  f_equal.
  rewrite end_column_scans_filter. f_equal.
  apply filter_ext_in. intros j Hj. apply in_seq in Hj.
  assert (Hr : 0 <= Z.of_nat j < Z.of_nat (length (base_attrs base))) by lia.
  destruct (Hcols _ Hr) as [S1 S2].
  assert (G : forall o, list_get (cs_cols st) (Z.of_nat j) = Some o ->
                        nth j (cs_cols st) None = o).
  { unfold list_get. destruct (Z.of_nat j <? 0) eqn:E; [discriminate|].
    rewrite Nat2Z.id. intros o Ho'. now apply nth_error_nth. }
  destruct (bms_is_member (Z.of_nat j + 1) (attnums (required_cols st)) &&
            negb (bms_is_member (Z.of_nat j + 1) (clause_cols st))).
  - destruct (S1 eq_refl) as (rel & _ & Hg). now rewrite (G _ Hg).
  - now rewrite (G _ (S2 eq_refl)).
Qed.

Lemma scan_column_end_view chunk index r csidx st slot st' slot' :
  scan_column chunk index r csidx st slot = Some (st', slot') ->
  end_view st' = end_view st.
Proof.
  intros H. pose proof (scan_column_shape _ _ _ _ _ _ _ _ H) as S.
  pose proof (scan_column_frame _ _ _ _ _ _ _ _ H) as [P _].
  assert (D : device_program st' = device_program st).
  { unfold scan_column in H.
    destruct (negb (bms_is_member (csidx + 1) (required_cols st))).
    - bind_case H. now inv H.
    - bind_case H. destruct o.
      + bind_case H. bind_case H. now inv H.
      + unfold pgstrom_scan_column_store_at in H.
        bind_case H. bind_case H.
        destruct (pgstrom_scan_column_store c r) as [cs' v].
        bind_case H. bind_case H. now inv H. }
  unfold end_view, shape, plan_of in *. congruence.
Qed.

Lemma scan_columns_end_view chunk index r : forall n c0 st slot st' slot',
  scan_columns n c0 chunk index r st slot = Some (st', slot') ->
  end_view st' = end_view st.
Proof.
  induction n as [|n IH]; intros c0 st slot st' slot' H; simpl in H.
  - now inv H.
  - bind_case H. destruct p as [st1 slot1].
    apply scan_column_end_view in E. apply IH in H. congruence.
Qed.

Lemma scan_bits_end_view chunk : forall n index st slot st' slot' e,
  scan_bits n index chunk st slot = Some (st', slot', e) ->
  end_view st' = end_view st.
Proof.
  induction n as [|n IH]; intros index st slot st' slot' e H; simpl in H.
  - now inv H.
  - destruct (bit_is_set (VARBITS (rowmap chunk)) index).
    + bind_case H. destruct p as [st1 slot1]. inv H.
      eapply scan_columns_end_view; eauto.
    + eapply IH; eauto.
Qed.

Section EndView.

Variable chunk_size : Z.
Variable max_async : Z.

Lemma load_chunks_end_view : forall n st loaded st' loaded',
  load_chunks chunk_size n st loaded = Some (st', loaded') ->
  end_view st' = end_view st.
Proof.
  induction n as [|n IH]; intros st loaded st' loaded' H; simpl in H.
  - now inv H.
  - unfold heap_getnext in H.
    destruct (rs_rest (ri_scan st)) as [|t rest].
    + now inv H.
    + cbn [set_ri_scan predictable clause_cols chunk_ready_list] in H.
      destruct (predictable st =? 0).
      * bind_case H. apply IH in H. exact H.
      * apply IH in H. exact H.
Qed.

Lemma iterate_retry_end_view : forall fuel st slot st' slot' e,
  iterate_retry chunk_size max_async fuel st slot
    = Some (Returns st' slot' e) ->
  end_view st' = end_view st.
Proof.
  induction fuel as [|fuel IH]; intros st slot st' slot' e H; simpl in H;
    [discriminate|].
  bind_case H. destruct p as [[st1 slot1] emitted].
  assert (V1 : end_view st1 = end_view st).
  { unfold pgstrom_scan_chunk_buffer in E. bind_case E. bind_case E.
    eapply scan_bits_end_view; eauto. }
  destruct emitted as [r|].
  - now inv H.
  - bind_case H. destruct p as [st2 n].
    apply load_chunks_end_view in E0.
    bind_case H.
    destruct (length (chunk_ready_list st2) <=? S n0)%nat.
    + destruct (chunk_exec_list st2), (chunk_exec_pending_list st2); inv H.
      congruence.
    + apply IH in H. unfold end_view in *. simpl in *. congruence.
Qed.

(** X22: what [pgboost_end_foreign_scan] ends, closes and releases does
    not depend on how far the scan has gone: a call of the iterator
    leaves the relation set, the device program and the set of columns
    that have an index scan as they were. *)
Theorem end_is_the_same_after_iterate fuel num_devices st slot st' slot' e :
  pgstrom_iterate_foreign_scan chunk_size max_async fuel st slot
    = Some (Returns st' slot' e) ->
  pgboost_end_foreign_scan num_devices (Some st')
  = pgboost_end_foreign_scan num_devices (Some st).
Proof.
  intros H.
  assert (V : end_view st' = end_view st).
  { unfold pgstrom_iterate_foreign_scan in H.
    destruct (predictable st <? 0); [now inv H|].
    destruct (curr_chunk st).
    - eapply iterate_retry_end_view; eauto.
    - bind_case H. destruct p as [st1 loaded].
      apply load_chunks_end_view in E.
      destruct (loaded =? 0); [inv H; exact E|].
      apply iterate_retry_end_view in H.
      unfold end_view in *. simpl in *. congruence. }
  unfold end_view in V. inv V.
  unfold pgboost_end_foreign_scan. rewrite H1, H2.
  f_equal. rewrite !end_column_scans_filter. f_equal.
  apply filter_ext. intros j. rewrite !nth_has_scan. now rewrite H3.
Qed.

End EndView.

(** ** The OpenCL objects *)

Lemma released_queues_below m :
  released_queues (release_queues_below m) = rev (seq 0 m).
Proof.
  induction m as [|m IH]; [reflexivity|].
  simpl release_queues_below. cbn [released_queues flat_map].
  fold (released_queues (release_queues_below m)). rewrite IH.
  rewrite seq_S, rev_app_distr. reflexivity.
Qed.

Lemma created_queues_below m :
  created_queues (release_queues_below m) = [].
Proof. induction m as [|m IH]; [reflexivity|exact IH]. Qed.

Lemma create_queues_spec drv : forall n i evs ok,
  create_queues drv n i = (evs, ok) ->
  if ok
  then evs = map CreatedQueue (seq i n) /\
       forall j, (i <= j < i + n)%nat -> cl_create_queue drv j = true
  else exists k, (k < n)%nat /\
         (forall j, (i <= j < i + k)%nat -> cl_create_queue drv j = true) /\
         cl_create_queue drv (i + k) = false /\
         evs = map CreatedQueue (seq i k) ++
               release_queues_below (i + k) ++ [ReleasedProgram].
Proof.
  induction n as [|n IH]; intros i evs ok H; simpl in H.
  - inv H. split; [reflexivity|]. intros j Hj. lia.
  - destruct (cl_create_queue drv i) eqn:Q.
    + destruct (create_queues drv n (S i)) as [evs1 ok1] eqn:E. inv H.
      apply IH in E. destruct ok.
      * destruct E as [-> Hall]. split; [reflexivity|].
        intros j Hj. destruct (Nat.eq_dec j i) as [->|]; [exact Q|].
        apply Hall. lia.
      * destruct E as (k & Hk & Hall & Hfail & ->).
        exists (S k). repeat split; try lia.
        -- intros j Hj. destruct (Nat.eq_dec j i) as [->|]; [exact Q|].
           apply Hall. lia.
        -- now replace (i + S k)%nat with (S i + k)%nat by lia.
        -- simpl. now replace (i + S k)%nat with (S (i + k))%nat by lia.
    + inv H. exists O. rewrite Nat.add_0_r.
      split; [lia|]. split; [intros j Hj; lia|]. split; [exact Q|reflexivity].
Qed.

Lemma queues_of_created i n :
  created_queues (map CreatedQueue (seq i n)) = seq i n /\
  released_queues (map CreatedQueue (seq i n)) = [].
Proof.
  revert i. induction n as [|n IH]; intros i; [split; reflexivity|].
  destruct (IH (S i)) as [H1 H2]. simpl. split; [now f_equal|exact H2].
Qed.

Lemma created_queues_app a b :
  created_queues (a ++ b) = created_queues a ++ created_queues b.
Proof. apply flat_map_app. Qed.

Lemma released_queues_app a b :
  released_queues (a ++ b) = released_queues a ++ released_queues b.
Proof. apply flat_map_app. Qed.

Lemma count_event_app e a b :
  count_event e (a ++ b) = (count_event e a + count_event e b)%nat.
Proof. unfold count_event. now rewrite filter_app, length_app. Qed.

Lemma count_event_created_queues e l :
  count_event e (map CreatedQueue l) = O.
Proof. induction l as [|x l IH]; [reflexivity|exact IH]. Qed.

Lemma count_event_release_queues e m :
  count_event e (release_queues_below m) = O.
Proof. induction m as [|m IH]; [reflexivity|exact IH]. Qed.

(** X23: the OpenCL objects of a query that is not predictable.  When
    the program and the queue of every device are created, nothing is
    released.  When the creation of the queue of a device fails, the
    queues created before it are released in the reverse of the order of
    their creation, then the program, before the error is raised; when
    the build fails the program is released; when the creation of the
    program fails nothing was created and nothing is released. *)
Theorem device_setup_releases_on_failure drv num_devices evs ok :
  device_setup drv num_devices = (evs, ok) ->
  (ok = true ->
     evs = CreatedProgram :: map CreatedQueue (seq 0 num_devices)) /\
  (ok = false ->
     released_queues evs = rev (created_queues evs) /\
     count_event ReleasedProgram evs = count_event CreatedProgram evs /\
     (evs = [] \/ exists pre, evs = CreatedProgram :: pre ++ [ReleasedProgram])).
Proof.
  unfold device_setup. intros H.
  destruct (cl_create_program drv); simpl in H.
  - destruct (cl_build_program drv); simpl in H.
    + destruct (create_queues drv num_devices 0) as [evs1 ok1] eqn:E. inv H.
      apply create_queues_spec in E. destruct ok.
      * destruct E as [-> _]. split; [reflexivity|discriminate].
      * destruct E as (k & Hk & _ & _ & ->). simpl.
        split; [discriminate|]. intros _.
        split; [|split].
        -- cbn [released_queues created_queues flat_map app].
           fold (released_queues (map CreatedQueue (seq 0 k) ++
                   release_queues_below k ++ [ReleasedProgram])).
           fold (created_queues (map CreatedQueue (seq 0 k) ++
                   release_queues_below k ++ [ReleasedProgram])).
           rewrite !released_queues_app, !created_queues_app.
           rewrite (proj1 (queues_of_created 0 k)),
                   (proj2 (queues_of_created 0 k)).
           rewrite released_queues_below, created_queues_below. simpl.
           now rewrite app_nil_r, app_nil_r.
        -- change (CreatedProgram :: ?l) with ([CreatedProgram] ++ l).
           rewrite !count_event_app, !count_event_created_queues,
                   !count_event_release_queues.
           reflexivity.
        -- right. eexists. rewrite app_assoc. reflexivity.
    + inv H. split; [discriminate|]. intros _.
      split; [reflexivity|]. split; [reflexivity|].
      right. exists []. reflexivity.
  - inv H. split; [discriminate|]. intros _. simpl. auto.
Qed.

(** ** Which columns a chunk holds *)

Lemma list_get_nonneg {A} (l : list A) i x : list_get l i = Some x -> 0 <= i.
Proof.
  unfold list_get. destruct (i <? 0) eqn:E; [discriminate|].
  intros _. now apply Z.ltb_ge in E.
Qed.

Lemma set_chunk_values_other chunk csidx v chunk' j :
  set_chunk_values chunk csidx v = Some chunk' -> j <> csidx -> 0 <= j ->
  list_get (cs_values chunk') j = list_get (cs_values chunk) j.
Proof.
  unfold set_chunk_values. intros H Hj H0. bind_case H. inv H. simpl.
  eapply list_get_set_other; eauto.
Qed.

Lemma set_chunk_nulls_values chunk csidx v chunk' :
  set_chunk_nulls chunk csidx v = Some chunk' ->
  cs_values chunk' = cs_values chunk.
Proof. unfold set_chunk_nulls. intros H. bind_case H. now inv H. Qed.

Section ChunkColumns.

Variable chunk_size : Z.
Variable max_async : Z.

Lemma load_tuple_other chunk csidx t chunk' j :
  load_tuple chunk_size chunk csidx t = Some chunk' -> j <> csidx -> 0 <= j ->
  list_get (cs_values chunk') j = list_get (cs_values chunk) j.
Proof.
  unfold load_tuple. intros H Hj H0.
  bind_case H. bind_case H.
  assert (R1 : cs_values p = cs_values chunk).
  { destruct (ARR_NULLBITMAP (cs_array t)), o;
      try (now inv E0); eapply set_chunk_nulls_values; eauto. }
  bind_case H. bind_case H. bind_case H.
  apply (set_chunk_values_other _ _ _ _ j) in E3; auto.
  destruct (ARR_NULLBITMAP (cs_array t)).
  - bind_case H. bind_case H. apply set_chunk_nulls_values in H. congruence.
  - inv H. congruence.
Qed.

Lemma load_tuples_other csidx j : forall fuel iscan chunk found chunk' found',
  load_tuples chunk_size fuel iscan chunk csidx found = Some (chunk', found') ->
  j <> csidx -> 0 <= j ->
  list_get (cs_values chunk') j = list_get (cs_values chunk) j.
Proof.
  induction fuel as [|fuel IH]; intros iscan chunk found chunk' found' H Hj H0;
    simpl in H; [discriminate|].
  destruct (index_getnext iscan ForwardScanDirection) as [iscan1 [t|]].
  - bind_case H. apply (load_tuple_other _ _ _ _ j) in E; auto.
    apply IH in H; auto. congruence.
  - now inv H.
Qed.

Lemma load_column_store_other rel chunk csidx chunk' j :
  load_column_store chunk_size rel chunk csidx = Some chunk' ->
  j <> csidx -> 0 <= j ->
  list_get (cs_values chunk') j = list_get (cs_values chunk) j.
Proof.
  unfold load_column_store. intros H Hj H0.
  bind_case H. apply (set_chunk_values_other _ _ _ _ j) in E; auto.
  bind_case H. destruct p0 as [chunk2 found].
  apply (load_tuples_other _ j) in E0; auto.
  destruct found.
  - inv H. congruence.
  - apply set_chunk_nulls_values in H. congruence.
Qed.

Lemma load_clause_cols_other st j : forall temp chunk chunk',
  load_clause_cols chunk_size st temp chunk = Some chunk' ->
  0 <= j -> ~ In (j + 1) (attnums temp) ->
  list_get (cs_values chunk') j = list_get (cs_values chunk) j.
Proof.
  induction temp as [|a temp IH]; intros chunk chunk' H H0 Hn; simpl in H.
  - now inv H.
  - cbn [attnums] in Hn.
    destruct (to_int16 a >? 0); [|now inv H].
    bind_case H. apply IH in H; auto; [|intros Hin; apply Hn; now right].
    unfold pgstrom_load_column_store in E.
    bind_case E. bind_case E. bind_case E.
    apply (load_column_store_other _ _ _ _ j) in E; [congruence| |exact H0].
    intros ->. apply Hn. left. lia.
Qed.

Lemma new_chunk_holds_nothing st t j vals :
  list_get (cs_values (new_chunk st t)) j <> Some (Some vals).
Proof.
  intros H. unfold new_chunk, list_get in H. simpl in H.
  destruct (j <? 0); [discriminate|].
  apply nth_error_In in H. apply repeat_spec in H. discriminate.
Qed.

Lemma only_clause_loaded_plan st1 st2 c :
  predictable st1 = predictable st2 -> clause_cols st1 = clause_cols st2 ->
  only_clause_loaded st1 c -> only_clause_loaded st2 c.
Proof.
  unfold only_clause_loaded. intros P C H j vals Hj. rewrite <- P, <- C. eauto.
Qed.

Lemma load_chunks_only_clause : forall n st loaded st' loaded',
  load_chunks chunk_size n st loaded = Some (st', loaded') ->
  Forall (only_clause_loaded st) (chunk_ready_list st) ->
  Forall (only_clause_loaded st') (chunk_ready_list st').
Proof.
  induction n as [|n IH]; intros st loaded st' loaded' H Hall; simpl in H.
  - now inv H.
  - unfold heap_getnext in H.
    destruct (rs_rest (ri_scan st)) as [|t rest].
    + inv H. exact Hall.
    + cbn [set_ri_scan predictable clause_cols chunk_ready_list] in H.
      destruct (predictable st =? 0) eqn:Ep.
      * bind_case H. apply IH in H; [exact H|]. simpl.
        apply Forall_app. split.
        -- eapply Forall_impl; [|exact Hall]. intros c Hc.
           eapply only_clause_loaded_plan; [| |exact Hc]; reflexivity.
        -- constructor; [|constructor]. intros j vals Hj. simpl.
           split; [now apply Z.eqb_eq|].
           destruct (bms_is_member (j + 1) (attnums (clause_cols st))) eqn:Em;
             [reflexivity|].
           exfalso.
           assert (Hn : ~ In (j + 1) (attnums (clause_cols st))).
           { intros Hin. apply bms_is_member_In in Hin. congruence. }
           pose proof (list_get_nonneg _ _ _ Hj) as H0.
           rewrite (load_clause_cols_other _ j _ _ _ E H0 Hn) in Hj.
           exact (new_chunk_holds_nothing _ _ _ _ Hj).
      * apply IH in H; [exact H|]. simpl.
        apply Forall_app. split.
        -- eapply Forall_impl; [|exact Hall]. intros c Hc.
           eapply only_clause_loaded_plan; [| |exact Hc]; reflexivity.
        -- constructor; [|constructor]. intros j vals Hj. exfalso.
           exact (new_chunk_holds_nothing _ _ _ _ Hj).
Qed.

Lemma iterate_retry_only_clause : forall fuel st slot st' slot' e,
  iterate_retry chunk_size max_async fuel st slot
    = Some (Returns st' slot' e) ->
  Forall (only_clause_loaded st) (chunk_ready_list st) ->
  Forall (only_clause_loaded st') (chunk_ready_list st').
Proof.
  induction fuel as [|fuel IH]; intros st slot st' slot' e H Hall; simpl in H;
    [discriminate|].
  bind_case H. destruct p as [[st1 slot1] emitted].
  apply scan_chunk_buffer_frame in E. destruct E as [P1 C1].
  assert (A1 : Forall (only_clause_loaded st1) (chunk_ready_list st1)).
  { unfold cursor_of in C1. unfold plan_of in P1.
    replace (chunk_ready_list st1) with (chunk_ready_list st) by congruence.
    eapply Forall_impl; [|exact Hall]. intros c Hc.
    eapply only_clause_loaded_plan; [| |exact Hc]; congruence. }
  destruct emitted as [r|].
  - now inv H.
  - bind_case H. destruct p as [st2 n].
    apply load_chunks_only_clause in E; [|exact A1].
    bind_case H.
    destruct (length (chunk_ready_list st2) <=? S n0)%nat.
    + destruct (chunk_exec_list st2), (chunk_exec_pending_list st2); now inv H.
    + apply IH in H; exact H || exact E.
Qed.

Lemma iterate_only_clause fuel st slot st' slot' e :
  pgstrom_iterate_foreign_scan chunk_size max_async fuel st slot
    = Some (Returns st' slot' e) ->
  Forall (only_clause_loaded st) (chunk_ready_list st) ->
  Forall (only_clause_loaded st') (chunk_ready_list st').
Proof.
  unfold pgstrom_iterate_foreign_scan. intros H Hall.
  destruct (predictable st <? 0); [now inv H|].
  destruct (curr_chunk st).
  - eapply iterate_retry_only_clause; eauto.
  - bind_case H. destruct p as [st1 loaded].
    apply load_chunks_only_clause in E; [|exact Hall].
    destruct (loaded =? 0); [now inv H|].
    apply iterate_retry_only_clause in H; exact H || exact E.
Qed.

(** X24: in the course of a scan a chunk holds the values of a column
    only when the query is not predictable and the number of the column
    is one that the loop of lines 376-377 reads from [clause_cols] (each
    member as an [AttrNumber], up to the first that is not positive
    then).  In a predictable query no column is loaded with the chunks.
    When every clause column number is positive and below 32768, the
    numbers the loop reads are the clause columns themselves. *)
Theorem only_clause_columns_are_loaded st chunk csidx vals :
  reachable chunk_size max_async st ->
  In chunk (chunk_ready_list st) ->
  list_get (cs_values chunk) csidx = Some (Some vals) ->
  predictable st = 0 /\
  bms_is_member (csidx + 1) (attnums (clause_cols st)) = true /\
  (Forall (fun a => 0 < a < 2 ^ 15) (clause_cols st) ->
   attnums (clause_cols st) = clause_cols st).
Proof.
  intros Hr Hin Hv.
  assert (G : Forall (only_clause_loaded st) (chunk_ready_list st)).
  { clear Hin Hv.
    induction Hr as [cat base fdw cl tr st H | fuel st slot st' slot' e Hr IH H].
    - apply begin_state in H. destruct H as (_ & _ & R & _). rewrite R.
      constructor.
    - eapply iterate_only_clause; eauto. }
  rewrite Forall_forall in G.
  destruct (G chunk Hin csidx vals Hv) as [A B].
  split; [exact A|]. split; [exact B|]. apply attnums_small.
Qed.

End ChunkColumns.

(** ** The columns the column loop does not reach *)

Lemma scan_columns_outside chunk index r : forall n c0 st slot st' slot' j,
  scan_columns n c0 chunk index r st slot = Some (st', slot') ->
  0 <= j -> j < c0 \/ c0 + Z.of_nat n <= j ->
  slot_column slot' j = slot_column slot j.
Proof.
  induction n as [|n IH]; intros c0 st slot st' slot' j H H0 Hj; simpl in H.
  - now inv H.
  - bind_case H. destruct p as [st1 slot1].
    rewrite (IH _ _ _ _ _ j H) by lia.
    eapply scan_column_other; eauto; lia.
Qed.

Section Beyond.

Variable chunk_size : Z.
Variable max_async : Z.

Lemma iterate_retry_same_slot : forall fuel st slot st' slot' r,
  iterate_retry chunk_size max_async fuel st slot
    = Some (Returns st' slot' (Some r)) ->
  exists st0,
    pgstrom_scan_chunk_buffer st0 slot = Some (st', slot', Some r).
Proof.
  induction fuel as [|fuel IH]; intros st slot st' slot' r H; simpl in H;
    [discriminate|].
  destruct (pgstrom_scan_chunk_buffer st slot)
    as [[[st1 slot1] emitted]|] eqn:E; [cbn [bind] in H|discriminate].
  destruct emitted as [r1|].
  - inv H. eauto.
  - apply scan_chunk_buffer_none in E. destruct E as [-> ->].
    bind_case H. destruct p as [st2 n]. bind_case H.
    destruct (length (chunk_ready_list st2) <=? S n0)%nat.
    + destruct (chunk_exec_list st2), (chunk_exec_pending_list st2); inv H.
    + eapply IH; eauto.
Qed.

(** X26: in a tuple the iterator returns, a column whose index is
    [chunk->nattrs] or more is not written at all: the slot holds for it
    what it held before the call.  ([chunk->nattrs] is the number of
    attributes of the rowid relation, line 359.) *)
Theorem columns_beyond_nattrs_are_not_written fuel st slot st' slot' r :
  pgstrom_iterate_foreign_scan chunk_size max_async fuel st slot
    = Some (Returns st' slot' (Some r)) ->
  exists cell chunk,
    curr_chunk st' = Some cell /\
    nth_error (chunk_ready_list st') cell = Some chunk /\
    forall csidx,
      0 <= csidx -> nattrs chunk <= csidx ->
      slot_column slot' csidx = slot_column slot csidx.
Proof.
  intros H.
  assert (G : exists st0,
            pgstrom_scan_chunk_buffer st0 (ExecClearTuple slot)
            = Some (st', slot', Some r)).
  { unfold pgstrom_iterate_foreign_scan in H.
    destruct (predictable st <? 0); [inv H|].
    destruct (curr_chunk st).
    - eapply iterate_retry_same_slot; eauto.
    - bind_case H. destruct p as [st1 loaded].
      destruct (loaded =? 0); [inv H|].
      eapply iterate_retry_same_slot; eauto. }
  destruct G as (st0 & Hs).
  pose proof (scan_chunk_buffer_frame _ _ _ _ _ Hs) as [_ C1].
  unfold pgstrom_scan_chunk_buffer in Hs.
  destruct (curr_chunk st0) as [cell|] eqn:Ec; [cbn [bind] in Hs|discriminate].
  destruct (nth_error (chunk_ready_list st0) cell) as [chunk|] eqn:En;
    [cbn [bind] in Hs|discriminate].
  apply scan_bits_emits in Hs.
  destruct Hs as (i & slot1 & _ & _ & _ & _ & Hcols & ->).
  unfold cursor_of in C1. inv C1.
  exists cell, chunk. repeat split; try congruence.
  intros csidx H0 Hn.
  change (slot_column slot1 csidx = slot_column (ExecClearTuple slot) csidx).
  eapply scan_columns_outside; eauto. lia.
Qed.

End Beyond.

(** ** The properties above on the samples *)

(** The column store of the second column is missing: the rowid
    relation, its index and the store and index of the first column
    stay open. *)
Lemma open_never_closes_witness :
  snd (pgstrom_open_relation_set Case.no_second_store Sample.base true [])
    = inl (NoSuchRelation (NameCs 1)) /\
  exists l,
    fst (pgstrom_open_relation_set Case.no_second_store Sample.base true [])
      = [] ++ map Opened l.
Proof.
  split; [reflexivity|].
  apply (open_never_closes Case.no_second_store Sample.base true [] _
           (inl (NoSuchRelation (NameCs 1)))).
  reflexivity.
Defined.

Lemma open_result_per_attribute_witness :
  let cat := Sample.catalog [] [] [] in
  let rs := Case.opened_set
              (pgstrom_open_relation_set cat Case.base_dropped true []) in
  base_rel rs = Case.base_dropped /\
  cat NameRowid = Some (rowid_rel rs) /\
  rowid_idx rs = cat NameRowidIdx /\
  length (cs_rel rs) = 2%nat /\
  length (cs_idx rs) = 2%nat /\
  forall i attr, nth_error (base_attrs Case.base_dropped) i = Some attr ->
    nth_error (cs_rel rs) i
      = Some (if attisdropped attr then None else cat (NameCs i)) /\
    nth_error (cs_idx rs) i
      = Some (if attisdropped attr || negb true then None
              else cat (NameCsIdx i)).
Proof.
  exact (open_result_per_attribute (Sample.catalog [] [] [])
           Case.base_dropped true [] _ _ eq_refl).
Defined.

(** The value 2^32 + 1 of a "required_cols" entry is read as the
    column 1. *)
Lemma init_reads_plan_witness :
  let info := Case.plan_info
                (pgstrom_init_exec_state Case.wide_query true) in
  (pi_required_cols info = [1] /\ pi_clause_cols info = [2]) /\
  (forall x, bms_is_member x (pi_required_cols info) = true <->
     1 <= x /\ In x (plan_ints "required_cols" Case.wide_query)) /\
  (forall x, bms_is_member x (pi_clause_cols info) = true <->
     In x (plan_ints "clause_cols" Case.wide_query)) /\
  Forall (fun x => 0 <= x) (plan_ints "clause_cols" Case.wide_query) /\
  pi_predictable info =
    match rev (plan_entries "predictable" Case.wide_query) with
    | [] => 0
    | v :: _ => if v =? TRUE then 1 else -1
    end /\
  true = (pi_predictable info =? 0).
Proof.
  split; [split; reflexivity|].
  exact (init_reads_plan Case.wide_query true _ _ eq_refl).
Defined.

(** A negative clause column before an unknown entry, and an unknown
    entry alone. *)
Lemma init_raises_first_plan_error_witness :
  pgstrom_init_exec_state Case.negative_clause false
    = inl NegativeBitmapsetMember /\
  pgstrom_init_exec_state Case.unknown_entry false
    = inl (UnexpectedPlanInfo "kernel").
Proof.
  split.
  - exact (init_raises_first_plan_error Case.negative_clause false
             (makeDefElem "clause_cols" (T_Integer (-1))) _ eq_refl eq_refl).
  - exact (init_raises_first_plan_error Case.unknown_entry false
             (makeDefElem "kernel" (T_Integer 0)) _ eq_refl eq_refl).
Defined.

(** The column 1 is required and is looked up row by row. *)
Lemma begin_opens_scans_of_lazy_columns_witness :
  let cat := Sample.catalog Sample.one_live_row Sample.five_and_null
                            Sample.rows_100_to_109 in
  let st := Sample.begin cat Sample.lazy_query in
  length (cs_cols st) = 2%nat /\
  (forall csidx, 0 <= csidx < 2 ->
    (bms_is_member (csidx + 1) (attnums (required_cols st)) &&
     negb (bms_is_member (csidx + 1) (clause_cols st)) = true ->
     exists rel,
       list_get (cs_rel (relset st)) csidx = Some (Some rel) /\
       list_get (cs_cols st) csidx
         = Some (Some (column_begin (rd_cs_tuples rel)))) /\
    (bms_is_member (csidx + 1) (attnums (required_cols st)) &&
     negb (bms_is_member (csidx + 1) (clause_cols st)) = false ->
     list_get (cs_cols st) csidx = Some None)) /\
  (Forall (fun a => a < 2 ^ 15) (required_cols st) ->
   attnums (required_cols st) = required_cols st).
Proof.
  exact (begin_opens_scans_of_lazy_columns
           (Sample.catalog Sample.one_live_row Sample.five_and_null
                           Sample.rows_100_to_109)
           Sample.base Sample.lazy_query true _ _ eq_refl).
Defined.

Lemma three_arrays_apart : StronglySorted apart Sample.three_arrays.
Proof. repeat constructor; simpl; lia. Qed.

Lemma three_arrays_int : dims_are_int Sample.three_arrays.
Proof. repeat constructor; simpl; lia. Qed.

(** The row 27 of the arrays at the rows 0..19, 25..29 and 30..34, with
    the array of the rows 0..19 cached. *)
Lemma lookup_returns_stored_value_witness :
  let cs := fst (lookups (column_begin Sample.three_arrays) [3]) in
  snd (pgstrom_scan_column_store cs 27) = (2002, false).
Proof.
  exact (lookup_returns_stored_value
           (fst (lookups (column_begin Sample.three_arrays) [3])) 27
           three_arrays_apart three_arrays_int
           (proj2 (scan_column_store_consistent
                     (column_begin Sample.three_arrays) 3 I))
           eq_refl eq_refl).
Defined.

Lemma lookups_return_stored_values_witness :
  snd (lookups (column_begin Sample.three_arrays) [27; 3; 31; 3])
  = [(2002, false); (1003, false); (3001, false); (1003, false)].
Proof.
  apply (lookups_return_stored_values Sample.three_arrays [27; 3; 31; 3]
           three_arrays_apart three_arrays_int).
  repeat constructor.
Defined.

Lemma lookup_before_first_array_is_null_witness :
  let cs := column_begin Sample.rows_100_to_109 in
  snd (pgstrom_scan_column_store cs 5) = (0, true) /\
  cs_cur_values (fst (pgstrom_scan_column_store cs 5)) = None.
Proof.
  apply (lookup_before_first_array_is_null
           (column_begin Sample.rows_100_to_109) 5).
  - exact I.
  - intros t [<-|[]]. simpl. lia.
Defined.

(** Five chunks asked of a relation of two tuples: both are read, the
    scan runs off the end and is left at the first tuple again. *)
Lemma load_chunk_buffer_predictable_witness :
  let st := Sample.begin (Sample.catalog Case.dead_table [] [])
                         Sample.predictable_query in
  exists st',
    pgstrom_load_chunk_buffer 8 st 5 = Some (st', 2) /\
    chunk_ready_list st'
      = chunk_ready_list st ++ map (new_chunk st) Case.dead_table /\
    rs_rest (ri_scan st') = Case.dead_table /\
    rs_rel (ri_scan st') = rs_rel (ri_scan st) /\
    cs_cols st' = cs_cols st /\
    (curr_chunk st', curr_index st') = (curr_chunk st, curr_index st).
Proof.
  apply (load_chunk_buffer_predictable 8
           (Sample.begin (Sample.catalog Case.dead_table [] [])
                         Sample.predictable_query) 5).
  vm_compute. discriminate.
Defined.

(** The values of the rows 0..7 loaded into a chunk of sixteen rows. *)
Lemma eager_load_reads_stored_values_witness :
  exists chunk',
    load_column_store 16 Sample.first_half Sample.empty_chunk 0
      = Some chunk' /\
    forall t r, In t Sample.first_half ->
      rowid Sample.empty_chunk <= cs_rowid t -> holds_row t r ->
      r < rowid Sample.empty_chunk + 16 ->
      loaded_value chunk' 0 (r - rowid Sample.empty_chunk)
        = Some (stored_value Sample.first_half r).
Proof.
  apply (eager_load_reads_stored_values 16 Sample.first_half
           Sample.empty_chunk 0).
  - split; [lia|reflexivity].
  - reflexivity.
  - simpl. lia.
  - repeat constructor.
  - intros t [<-|[]] _. unfold fits_chunk. simpl. repeat split; lia.
Defined.

Lemma scan_chunk_buffer_false_iff_no_live_row_witness :
  let st := Case.at_first_chunk
              (Sample.begin (Sample.catalog Case.dead_table [] [])
                            Sample.predictable_query) in
  (no_live_row_from (new_chunk st (mkRiTuple 0 (mkVarBit 8 [0])))
                    (curr_index st) <->
   pgstrom_scan_chunk_buffer st Sample.slot0
     = Some (st, Sample.slot0, None)) /\
  (forall st' slot',
     pgstrom_scan_chunk_buffer st Sample.slot0 = Some (st', slot', None) ->
     st' = st /\ slot' = Sample.slot0).
Proof.
  exact (scan_chunk_buffer_false_iff_no_live_row
           (Case.at_first_chunk
              (Sample.begin (Sample.catalog Case.dead_table [] [])
                            Sample.predictable_query))
           Sample.slot0 O _ eq_refl eq_refl).
Defined.

Lemma loaded_column_is_read_from_chunk_witness :
  let st0 := Sample.begin
               (Sample.catalog Sample.one_live_row Sample.first_half [])
               Sample.eager_query in
  let res := pgstrom_iterate_foreign_scan 8 1 1 st0 Sample.slot0 in
  exists cell chunk,
    curr_chunk (Sample.returned_state res) = Some cell /\
    nth_error (chunk_ready_list (Sample.returned_state res)) cell
      = Some chunk /\
    forall csidx vals,
      0 <= csidx < nattrs chunk ->
      bms_is_member (csidx + 1) (required_cols st0) = true ->
      list_get (cs_values chunk) csidx = Some (Some vals) ->
      slot_column (Sample.returned_slot res) csidx
        = loaded_value chunk csidx (0 - rowid chunk) /\
      list_get (cs_cols (Sample.returned_state res)) csidx
        = list_get (cs_cols st0) csidx.
Proof.
  apply (loaded_column_is_read_from_chunk 8 1 1
           (Sample.begin
              (Sample.catalog Sample.one_live_row Sample.first_half [])
              Sample.eager_query)
           Sample.slot0 _ _ 0).
  reflexivity.
Defined.

Lemma unloaded_column_is_looked_up_witness :
  let st0 := Sample.begin
               (Sample.catalog Sample.one_live_row Sample.first_half [])
               Sample.lazy_query in
  let res := pgstrom_iterate_foreign_scan 8 1 1 st0 Sample.slot0 in
  exists cell chunk,
    curr_chunk (Sample.returned_state res) = Some cell /\
    nth_error (chunk_ready_list (Sample.returned_state res)) cell
      = Some chunk /\
    forall csidx,
      0 <= csidx < nattrs chunk ->
      bms_is_member (csidx + 1) (required_cols st0) = true ->
      list_get (cs_values chunk) csidx = Some None ->
      exists cs,
        list_get (cs_cols st0) csidx = Some (Some cs) /\
        slot_column (Sample.returned_slot res) csidx
          = Some (snd (pgstrom_scan_column_store cs 0)) /\
        list_get (cs_cols (Sample.returned_state res)) csidx
          = Some (Some (fst (pgstrom_scan_column_store cs 0))).
Proof.
  apply (unloaded_column_is_looked_up 8 1 1
           (Sample.begin
              (Sample.catalog Sample.one_live_row Sample.first_half [])
              Sample.lazy_query)
           Sample.slot0 _ _ 0).
  reflexivity.
Defined.

Lemma iterate_only_appends_chunks_witness :
  let st0 := Sample.begin (Sample.catalog Sample.two_live_rows [] [])
                          Sample.predictable_query in
  let res := pgstrom_iterate_foreign_scan 8 1 1 st0 Sample.slot0 in
  exists l,
    chunk_ready_list (Sample.returned_state res) = chunk_ready_list st0 ++ l.
Proof.
  exact (iterate_only_appends_chunks 8 1 1
           (Sample.begin (Sample.catalog Sample.two_live_rows [] [])
                         Sample.predictable_query)
           Sample.slot0 _ _ (Some 0) eq_refl).
Defined.

(** A table whose first chunk has no live row and whose second chunk
    has the rows 8 and 9 live: the row 8 is returned. *)
Lemma returned_row_is_first_live_row_witness :
  let ri := [mkRiTuple 0 (mkVarBit 8 [0]); mkRiTuple 8 (mkVarBit 8 [3])] in
  let st0 := Sample.begin (Sample.catalog ri [] []) Sample.predictable_query in
  let res := pgstrom_iterate_foreign_scan 8 1 2 st0 Sample.slot0 in
  exists cell chunk i,
    nth_error (chunk_ready_list (Sample.returned_state res)) cell
      = Some chunk /\
    0 <= i < VARBITLEN (rowmap chunk) /\
    8 = rowid chunk + i /\
    bit_is_set (VARBITS (rowmap chunk)) i = true /\
    (forall j, 0 <= j < i -> bit_is_set (VARBITS (rowmap chunk)) j = false) /\
    (forall k c, (k < cell)%nat ->
       nth_error (chunk_ready_list (Sample.returned_state res)) k = Some c ->
       no_live_row_from c 0).
Proof.
  eapply (returned_row_is_first_live_row 8 1 2
           (Sample.begin
              (Sample.catalog
                 [mkRiTuple 0 (mkVarBit 8 [0]); mkRiTuple 8 (mkVarBit 8 [3])]
                 [] [])
              Sample.predictable_query)
           Sample.slot0 _ _ 8).
  - eapply reach_begin with
      (cat := Sample.catalog
                [mkRiTuple 0 (mkVarBit 8 [0]); mkRiTuple 8 (mkVarBit 8 [3])]
                [] [])
      (base := Sample.base) (fdw_private := Sample.predictable_query)
      (cl_ok := true).
    reflexivity.
  - reflexivity.
Defined.

Lemma returned_slot_is_empty_iff_no_row_witness :
  let st0 := Sample.begin (Sample.catalog Case.dead_table [] [])
                          Sample.predictable_query in
  let res := pgstrom_iterate_foreign_scan 8 1 2 st0 Sample.slot0 in
  tts_isempty (Sample.returned_slot res) = true.
Proof.
  exact (returned_slot_is_empty_iff_no_row 8 1 2
           (Sample.begin (Sample.catalog Case.dead_table [] [])
                         Sample.predictable_query)
           Sample.slot0 _ _ None eq_refl).
Defined.

(** A table with two live rows and no chunk allowed in flight. *)
Lemma no_chunk_allowed_means_no_row_witness :
  let st0 := Sample.begin (Sample.catalog Sample.two_live_rows [] [])
                          Sample.predictable_query in
  pgstrom_iterate_foreign_scan 8 0 1 st0 Sample.slot0
  = Some (Returns st0 (ExecClearTuple Sample.slot0) None).
Proof.
  apply (no_chunk_allowed_means_no_row 8 0 1
           (Sample.begin (Sample.catalog Sample.two_live_rows [] [])
                         Sample.predictable_query)
           Sample.slot0).
  - reflexivity.
  - simpl. lia.
Defined.

Lemma dead_table_is_dead : Forall no_live_row_in Case.dead_table.
Proof.
  repeat constructor; intros j Hj; simpl in Hj;
    assert (C : j = 0 \/ j = 1 \/ j = 2 \/ j = 3 \/ j = 4 \/ j = 5 \/
                j = 6 \/ j = 7) by lia;
    destruct C as [->|[->|[->|[->|[->|[->|[->| ->]]]]]]]; reflexivity.
Qed.

Lemma scan_without_live_rows_ends_witness :
  let st0 := Sample.begin (Sample.catalog Case.dead_table [] [])
                          Sample.predictable_query in
  exists st',
    pgstrom_iterate_foreign_scan 8 1 2 st0 Sample.slot0
      = Some (Returns st' (ExecClearTuple Sample.slot0) None) /\
    rs_rest (ri_scan st') = Case.dead_table /\
    length (chunk_ready_list st') = 2%nat.
Proof.
  apply (scan_without_live_rows_ends 8 1 2
           (Sample.begin (Sample.catalog Case.dead_table [] [])
                         Sample.predictable_query)
           Sample.slot0); try reflexivity; try (simpl; lia).
  exact dead_table_is_dead.
Defined.

(** The same table with two chunks allowed in flight: the call is still
    in the loop after 500 rounds. *)
Lemma scan_without_live_rows_never_ends_witness :
  pgstrom_iterate_foreign_scan 8 2 500
    (Sample.begin (Sample.catalog Case.dead_table [] [])
                  Sample.predictable_query)
    Sample.slot0
  = Some OutOfFuel.
Proof.
  apply (scan_without_live_rows_never_ends 8 2 500
           (Sample.begin (Sample.catalog Case.dead_table [] [])
                         Sample.predictable_query)
           Sample.slot0); try reflexivity; try lia; try discriminate;
    exact dead_table_is_dead.
Defined.

(** A query that is not predictable, with the first column required and
    looked up row by row, on two devices. *)
Lemma end_releases_what_begin_acquired_witness :
  let cat := Sample.catalog Sample.one_live_row Sample.first_half [] in
  let fdw := [makeDefElem "required_cols" (T_Integer 1)] in
  let st := Sample.begin cat fdw in
  pgboost_end_foreign_scan 2 (Some st)
  = [IndexEndScan 0; HeapEndScan] ++
    map (fun r => RelationEvent (Closed r))
        (opened_handles
           (fst (pgstrom_begin_foreign_scan cat Sample.base fdw true false))) ++
    [ReleaseCommandQueue 0; ReleaseCommandQueue 1; ReleaseProgram].
Proof.
  exact (end_releases_what_begin_acquired 2
           (Sample.catalog Sample.one_live_row Sample.first_half [])
           Sample.base [makeDefElem "required_cols" (T_Integer 1)] true
           _ _ eq_refl).
Defined.

Lemma end_is_the_same_after_iterate_witness :
  let st0 := Sample.begin
               (Sample.catalog Sample.one_live_row Sample.first_half [])
               Sample.lazy_query in
  let res := pgstrom_iterate_foreign_scan 8 1 1 st0 Sample.slot0 in
  pgboost_end_foreign_scan 2 (Some (Sample.returned_state res))
  = pgboost_end_foreign_scan 2 (Some st0).
Proof.
  exact (end_is_the_same_after_iterate 8 1 1 2
           (Sample.begin
              (Sample.catalog Sample.one_live_row Sample.first_half [])
              Sample.lazy_query)
           Sample.slot0 _ _ (Some 0) eq_refl).
Defined.

(** Four devices, of which the third has no queue: the queues 1 and 0
    and then the program are released. *)
Lemma device_setup_releases_on_failure_witness :
  fst (device_setup Case.third_queue_fails 4)
    = [CreatedProgram; CreatedQueue 0; CreatedQueue 1;
       ReleasedQueue 1; ReleasedQueue 0; ReleasedProgram] /\
  (released_queues (fst (device_setup Case.third_queue_fails 4))
       = rev (created_queues (fst (device_setup Case.third_queue_fails 4))) /\
     count_event ReleasedProgram (fst (device_setup Case.third_queue_fails 4))
       = count_event CreatedProgram
           (fst (device_setup Case.third_queue_fails 4)) /\
     (fst (device_setup Case.third_queue_fails 4) = [] \/
      exists pre, fst (device_setup Case.third_queue_fails 4)
                  = CreatedProgram :: pre ++ [ReleasedProgram])).
Proof.
  split; [reflexivity|].
  exact (proj2 (device_setup_releases_on_failure Case.third_queue_fails 4
                  _ false eq_refl) eq_refl).
Defined.

(** The first column is a clause column of a query that is not
    predictable: the chunk holds its values. *)
Lemma only_clause_columns_are_loaded_witness :
  let st0 := Sample.begin
               (Sample.catalog Sample.one_live_row Sample.first_half [])
               Sample.eager_query in
  let st1 := Sample.returned_state
               (pgstrom_iterate_foreign_scan 8 1 1 st0 Sample.slot0) in
  predictable st1 = 0 /\
  bms_is_member (0 + 1) (attnums (clause_cols st1)) = true /\
  (Forall (fun a => 0 < a < 2 ^ 15) (clause_cols st1) ->
   attnums (clause_cols st1) = clause_cols st1).
Proof.
  eapply (only_clause_columns_are_loaded 8 1
            (Sample.returned_state
               (pgstrom_iterate_foreign_scan 8 1 1
                  (Sample.begin
                     (Sample.catalog Sample.one_live_row Sample.first_half [])
                     Sample.eager_query)
                  Sample.slot0))
            _ 0 [1; 2; 3; 4; 5; 6; 7; 8]).
  - eapply reach_iterate with (fuel := 1%nat) (slot := Sample.slot0).
    + eapply reach_begin with
        (cat := Sample.catalog Sample.one_live_row Sample.first_half [])
        (base := Sample.base) (fdw_private := Sample.eager_query)
        (cl_ok := true).
      reflexivity.
    + reflexivity.
  - left. reflexivity.
  - reflexivity.
Defined.

(** The table of three columns: the column 3 keeps the value 7 of the
    slot. *)
Lemma columns_beyond_nattrs_are_not_written_witness :
  let st0 := Case.begin3 (Case.catalog3 Sample.one_live_row)
                         Sample.predictable_query in
  let res := pgstrom_iterate_foreign_scan 8 1 1 st0 Case.slot3 in
  slot_column (Sample.returned_slot res) 2 = Some (7, false) /\
  exists cell chunk,
    curr_chunk (Sample.returned_state res) = Some cell /\
    nth_error (chunk_ready_list (Sample.returned_state res)) cell
      = Some chunk /\
    forall csidx,
      0 <= csidx -> nattrs chunk <= csidx ->
      slot_column (Sample.returned_slot res) csidx
        = slot_column Case.slot3 csidx.
Proof.
  split; [reflexivity|].
  exact (columns_beyond_nattrs_are_not_written 8 1 1
           (Case.begin3 (Case.catalog3 Sample.one_live_row)
                        Sample.predictable_query)
           Case.slot3 _ _ 0 eq_refl).
Defined.
